(** * semrush-mcp: the request execution pipeline of [src/semrush-api.ts]

    A shallow embedding of the rate limiter, the API client constructor,
    [makeRequest] and the operations built on it, with the
    properties the specification states about them; then of the tool
    handler that calls the operations and of [redactSensitive] and
    [loadEnv] of [config.ts], with further properties of the code.

    Conventions of the embedding.
    - A JS [number] is a [Z]: the numbers the pipeline handles are
      integers (millisecond timestamps, HTTP statuses, the two integers read
      by [parseInt] in [config.ts]); a display limit and the numbers of a
      response body are taken to be integers too.
    - A JS string is a [string] (for [redactSensitive] and [loadEnv], whose
      character classes need them, the list of its code units); an optional
      value ([T | undefined]) is an [option T].
    - The module-level singletons [apiCache] and [rateLimiter], the clock
      behind [Date.now()] and the record of HTTP exchanges are the fields of
      one [World]; an [async] method is a function on worlds.
    - A block of synchronous code runs at one instant of the clock; time
      passes at [setTimeout] and while the HTTP exchange is awaited.
    - A call of [makeRequest] is followed on its own.  What several pending
      calls do to the limiter they share is in the runs of polls
      ([runPolls]) and in the wait among other calls ([waitAmong]).
    - The [logger] calls write to the console only and are left out. *)

From Stdlib Require Import ZArith Lia String Ascii.
From stdpp Require Import gmap strings list pretty.

Open Scope Z_scope.
Set Warnings "-register-all".

(** ** JavaScript values *)

(** A thrown value or the value of a normal completion: constructors and
    methods of the source either return or [throw]. *)
Inductive Completion (E A : Type) : Type :=
| Normal (a : A)
| Throw (e : E).
Arguments Normal {E A} a.
Arguments Throw {E A} e.

Definition threw {E A} (c : Completion E A) : bool :=
  match c with Normal _ => false | Throw _ => true end.

(** The value of [new Error(message)]. *)
Record JsError := { error_message : string }.

(** Parsed response bodies ([data: any]): axios hands over the parsed JSON
    document, or the body text as a string when it is not JSON. *)
Inductive JSON :=
| JNull
| JBool (b : bool)
| JNum (n : Z)
| JStr (s : string)
| JArr (items : list JSON)
| JObj (fields : list (string * JSON)).

(** Property read [v.name] or [v?.name]: [None] is [undefined].  Of the
    values above only an object has an own property of a given name; the
    names read by the source ([error], [message]) are not properties of the
    String, Number, Boolean or Array prototypes, and [?.] turns the read on
    [null] into [undefined]. *)
Fixpoint assoc {A} (name : string) (fields : list (string * A)) : option A :=
  match fields with
  | [] => None
  | (k, v) :: rest => if String.eqb k name then Some v else assoc name rest
  end.

Definition getProp (name : string) (v : JSON) : option JSON :=
  match v with
  | JObj fields => assoc name fields
  | _ => None
  end.

(** JS truthiness, as tested by [||], [!] and [if]. *)
Definition truthy (v : option JSON) : bool :=
  match v with
  | None => false
  | Some JNull => false
  | Some (JBool b) => b
  | Some (JNum n) => negb (n =? 0)
  | Some (JStr s) => negb (String.eqb s "")
  | Some (JArr _) => true
  | Some (JObj _) => true
  end.

(** [ToString], applied by the [Error] constructor to its argument. *)
Fixpoint toString (v : JSON) : string :=
  match v with
  | JNull => "null"
  | JBool true => "true"
  | JBool false => "false"
  | JNum n => pretty n
  | JStr s => s
  | JArr items =>
      String.concat ","
        (map (fun x => match x with JNull => "" | _ => toString x end) items)
  | JObj _ => "[object Object]"
  end.

(** ** Query parameters and their serialisation *)

(** [ApiQueryParams]: [{ [key: string]: string | number | boolean | undefined }].
    The object is kept as the list of its properties in insertion order,
    which is the order [JSON.stringify] walks them in. *)
Inductive ParamValue :=
| PStr (s : string)
| PNum (n : Z)
| PBool (b : bool)
| PUndefined.

Definition ApiQueryParams := list (string * ParamValue).

(** Assignment [obj.name = v] (also the last step of the spread
    [{...obj, name: v}]): an existing property keeps its place and takes the
    new value, a new property goes last. *)
Fixpoint obj_set (name : string) (v : ParamValue) (obj : ApiQueryParams)
  : ApiQueryParams :=
  match obj with
  | [] => [(name, v)]
  | (k, old) :: rest =>
      if String.eqb k name then (k, v) :: rest
      else (k, old) :: obj_set name v rest
  end.

Definition dquote : ascii := "034"%char.
Definition backslash : ascii := "092"%char.

Definition hexDigit (n : N) : ascii :=
  match n with
  | 0%N => "0" | 1%N => "1" | 2%N => "2" | 3%N => "3" | 4%N => "4"
  | 5%N => "5" | 6%N => "6" | 7%N => "7" | 8%N => "8" | 9%N => "9"
  | 10%N => "a" | 11%N => "b" | 12%N => "c" | 13%N => "d" | 14%N => "e"
  | _ => "f"
  end%char.

(** One character of [QuoteJSONString].  (Strings are well-formed text, so
    the escape of a lone surrogate does not arise.) *)
Definition quoteChar (c : ascii) : string :=
  let n := N_of_ascii c in
  if (n =? 8)%N then String backslash "b"
  else if (n =? 9)%N then String backslash "t"
  else if (n =? 10)%N then String backslash "n"
  else if (n =? 12)%N then String backslash "f"
  else if (n =? 13)%N then String backslash "r"
  else if (n =? 34)%N then String backslash (String dquote "")
  else if (n =? 92)%N then String backslash (String backslash "")
  else if (n <? 32)%N then
    String backslash
      ("u00" +:+ String (hexDigit (n / 16)) (String (hexDigit (n mod 16)) ""))
  else String c "".

Fixpoint quoteChars (s : string) : string :=
  match s with
  | EmptyString => ""
  | String c rest => quoteChar c +:+ quoteChars rest
  end.

Definition quoteJSONString (s : string) : string :=
  String dquote (quoteChars s +:+ String dquote "").

(** [JSON.stringify] of one property; a property whose value is
    [undefined] is left out.  (A number is an integer here, written with its
    decimal digits as [JSON.stringify] writes an integer below 2^53 in
    magnitude; the numbers it writes otherwise, with a fraction or an
    exponent, or as [null] for [NaN] and the infinities, are outside the
    embedding.) *)
Definition stringifyProperty (p : string * ParamValue) : option string :=
  let '(k, v) := p in
  match v with
  | PStr s => Some (quoteJSONString k +:+ ":" +:+ quoteJSONString s)
  | PNum n => Some (quoteJSONString k +:+ ":" +:+ pretty n)
  | PBool true => Some (quoteJSONString k +:+ ":true")
  | PBool false => Some (quoteJSONString k +:+ ":false")
  | PUndefined => None
  end.

(** [JSON.stringify(requestParams)]. *)
Definition JSON_stringify (obj : ApiQueryParams) : string :=
  "{" +:+ String.concat "," (omap stringifyProperty obj) +:+ "}".

(** [Array.prototype.join] on a [string[]]. *)
Definition join (sep : string) (items : list string) : string :=
  String.concat sep items.

(** ** Configuration ([config.ts]) *)

Record Config := {
  SEMRUSH_API_KEY : option string;
  API_CACHE_TTL_SECONDS : Z;
  API_RATE_LIMIT_PER_SECOND : Z
}.

(** ** Rate limiter *)

Record RateLimiter := {
  requestTimestamps : list Z;
  rateLimit : Z
}.

(** [constructor(rateLimit = config.API_RATE_LIMIT_PER_SECOND)]. *)
Definition RateLimiter_new (config : Config) (rateLimit : option Z)
  : Completion JsError RateLimiter :=
  let rateLimit :=
    match rateLimit with
    | Some n => n
    | None => API_RATE_LIMIT_PER_SECOND config
    end in
  Normal {| requestTimestamps := []; rateLimit := rateLimit |}.

(** [canMakeRequest()], with the value [now] of [Date.now()]. *)
Definition canMakeRequest (now : Z) (rl : RateLimiter) : bool * RateLimiter :=
  let oneSecondAgo := now - 1000 in
  let kept :=
    filter (fun timestamp => oneSecondAgo < timestamp) (requestTimestamps rl) in
  (Z.of_nat (length kept) <? rateLimit rl,
   {| requestTimestamps := kept; rateLimit := rateLimit rl |}).

(** [recordRequest()], with the value [now] of [Date.now()]. *)
Definition recordRequest (now : Z) (rl : RateLimiter) : RateLimiter :=
  {| requestTimestamps := requestTimestamps rl ++ [now];
     rateLimit := rateLimit rl |}.

(** The closure [checkRateLimit] of [waitForRateLimit], one poll: [true]
    when the promise is resolved, [false] when the timer is armed.  [now]
    is the clock read by [canMakeRequest], [now'] the one read by
    [recordRequest]. *)
Definition checkRateLimit (now now' : Z) (rl : RateLimiter)
  : bool * RateLimiter :=
  let '(ok, rl1) := canMakeRequest now rl in
  if ok then (true, recordRequest now' rl1) else (false, rl1).

(** ** API responses and errors *)

(** [interface SemrushApiResponse]. *)
Record SemrushApiResponse := {
  data : JSON;
  status : Z;
  headers : list (string * string)
}.

(** [class SemrushApiError extends Error]; [err_response] is [None] when
    the constructor got no third argument or got [undefined]. *)
Record SemrushApiError := {
  err_message : string;
  err_status : Z;
  err_response : option JSON
}.

(** ** External libraries: node-cache and axios

    The two libraries are not part of the repository; the definitions below
    are their documented behaviour for the calls the source makes. *)

(** An entry of the cache: the value and the instant [t] (ms) after which
    it is expired; [t = 0] is an entry that never expires. *)
Record CacheEntry := {
  t : Z;
  v : SemrushApiResponse
}.

(** [new NodeCache({ stdTTL })]. *)
Record NodeCache := {
  stdTTL : Z;
  entries : gmap string CacheEntry
}.

Definition NodeCache_new (stdTTL : Z) : NodeCache :=
  {| stdTTL := stdTTL; entries := ∅ |}.

(** [cache.get(key)] at instant [now]: the value of an entry that is not
    expired, [undefined] otherwise.  The library also frees the expired
    entry it comes across; [get] and [set], the only calls the source
    makes, cannot tell an expired entry from a missing one, so the cache is
    modelled up to that and [get] leaves the map as it is. *)
Definition NodeCache_get (key : string) (now : Z) (c : NodeCache)
  : option SemrushApiResponse :=
  match entries c !! key with
  | Some e => if negb (t e =? 0) && (t e <? now) then None else Some (v e)
  | None => None
  end.

(** [cache.set(key, value)] at instant [now], with the standard TTL. *)
Definition NodeCache_set (key : string) (value : SemrushApiResponse)
  (now : Z) (c : NodeCache) : NodeCache :=
  let livetime := if stdTTL c =? 0 then 0 else now + stdTTL c * 1000 in
  {| stdTTL := stdTTL c;
     entries := <[key := {| t := livetime; v := value |}]> (entries c) |}.

(** The part of [AxiosRequestConfig] the pipeline depends on; an absent
    field is [None]. *)
Record AxiosRequestConfig := {
  opt_method : option string;
  opt_url : option string;
  opt_params : option ApiQueryParams;
  opt_validateStatus : option (Z -> bool)
}.

(** The default value [{}] of the [options] argument. *)
Definition noOptions : AxiosRequestConfig :=
  {| opt_method := None; opt_url := None; opt_params := None;
     opt_validateStatus := None |}.

(** axios' own default for [validateStatus]. *)
Definition defaultValidateStatus (status : Z) : bool :=
  (200 <=? status) && (status <? 300).

(** A request as axios issues it: the argument of [axios(...)] merged over
    the library defaults. *)
Record AxiosRequest := {
  method : string;
  url : string;
  params : ApiQueryParams;
  validateStatus : Z -> bool
}.

Record AxiosResponse := {
  response_data : JSON;
  response_status : Z;
  response_headers : list (string * string)
}.

Record AxiosError := {
  message : string;
  response : option AxiosResponse
}.

(** What happens to a request on the wire, and how an exchange ends.  (An
    exchange that never ends, which axios called without a [timeout] waits
    for, is not among the outcomes: the embedding describes the calls whose
    exchange ends.) *)
Inductive Upstream :=
| HttpResponse (r : AxiosResponse)   (* a response arrived, of any status *)
| NoResponse (message : string)      (* DNS, connection or timeout failure *)
| Thrown (message : string).         (* an exception that is no AxiosError *)

(** The transport of axios in Node follows redirections by itself: a
    response with a status from 300 to 399 and a non-empty [location]
    header (Node gives header names in lower case) is not handed to axios,
    the request is repeated at that location. *)
Definition isRedirect (r : AxiosResponse) : bool :=
  (300 <=? response_status r) && (response_status r <? 400)
  && match assoc "location" (response_headers r) with
     | Some location => negb (String.eqb location "")
     | None => false
     end.

(** The exchange from hop [h] on, with [budget] redirections still allowed:
    [hop h] is what happens to the request of hop [h] (hop 0 is the request
    axios was given, hop [h + 1] the one the redirection of hop [h] leads
    to).  One redirection too many ends the exchange with an error that
    carries no response. *)
Fixpoint followRedirects (hop : nat -> Upstream) (budget h : nat) : Upstream :=
  match hop h with
  | HttpResponse r =>
      if isRedirect r then
        match budget with
        | O => NoResponse "Maximum number of redirects exceeded"
        | S budget' => followRedirects hop budget' (S h)
        end
      else HttpResponse r
  | NoResponse m => NoResponse m
  | Thrown m => Thrown m
  end.

(** How the promise returned by [axios(...)] settles. *)
Inductive Settled :=
| Resolved (r : AxiosResponse)
| RejectedAxios (e : AxiosError)
| RejectedOther (e : JsError).

(** [axios(req)] for an exchange that ended as [u]: axios resolves a
    response whose status passes [validateStatus] (or is 0) and rejects any
    other with an [AxiosError] that carries it. *)
Definition axios (req : AxiosRequest) (u : Upstream) : Settled :=
  match u with
  | HttpResponse r =>
      if (response_status r =? 0) || validateStatus req (response_status r)
      then Resolved r
      else RejectedAxios
             {| message :=
                  "Request failed with status code " +:+
                  pretty (response_status r);
                response := Some r |}
  | NoResponse m => RejectedAxios {| message := m; response := None |}
  | Thrown m => RejectedOther {| error_message := m |}
  end.

(** ** The world the pipeline runs in *)

Record World := {
  clock : Z;                      (* Date.now() *)
  apiCache : NodeCache;
  rateLimiter : RateLimiter;
  network : list AxiosRequest     (* the requests issued, oldest first *)
}.

(** What the pipeline does not decide: what happens on the wire to each
    hop of the n-th HTTP exchange, the number of redirections the library
    follows (its default [maxRedirects], which no call of the sources
    changes; with 0 none is followed), the duration (ms) of the n-th
    exchange, and by how many ms a timer armed at a given instant fires
    late. *)
Record Env := {
  wire : nat -> nat -> AxiosRequest -> Upstream;
  maxRedirects : nat;
  duration : nat -> N;
  lateness : Z -> N
}.

(** How the n-th exchange, begun with the request [req], ends. *)
Definition upstream (env : Env) (n : nat) (req : AxiosRequest) : Upstream :=
  match maxRedirects env with
  | O => wire env n O req
  | S budget => followRedirects (fun h => wire env n h req) (S budget) O
  end.

(** [waitForRateLimit()]: [checkRateLimit] is run now and, as long as it
    arms the timer, again 100ms (or more) later.  [fuel] bounds the number
    of polls; [None] is a promise still pending after that many.  The
    result is the instant of the grant and the limiter then.  These are the
    polls of one call, with no other call polling the limiter in between;
    the polls of several pending calls in any order are the runs of
    [runPolls] below, and a call that waits among others is [waitAmong]. *)
Fixpoint waitForRateLimit (env : Env) (fuel : nat) (now : Z) (rl : RateLimiter)
  : option (Z * RateLimiter) :=
  match fuel with
  | O => None
  | S fuel' =>
      match checkRateLimit now now rl with
      | (true, rl') => Some (now, rl')
      | (false, rl') =>
          waitForRateLimit env fuel' (now + 100 + Z.of_N (lateness env now)) rl'
      end
  end.

(** ** The API client *)

Record SemrushApiClient := {
  apiKey : string
}.

(** [constructor(apiKey = config.SEMRUSH_API_KEY)]: [!apiKey] holds of
    [undefined] and of the empty string. *)
Definition SemrushApiClient_new (config : Config) (apiKey : option string)
  : Completion JsError SemrushApiClient :=
  let apiKey :=
    match apiKey with
    | Some k => Some k
    | None => SEMRUSH_API_KEY config
    end in
  match apiKey with
  | None => Throw {| error_message := "Semrush API key is required" |}
  | Some k =>
      if String.eqb k ""
      then Throw {| error_message := "Semrush API key is required" |}
      else Normal {| apiKey := k |}
  end.

Definition SEMRUSH_API_BASE_URL : string := "https://api.semrush.com/".
Definition TRENDS_API_BASE_URL : string := "https://api.semrush.com/analytics/ta/".

(** [{ ...params, key: this.apiKey }]. *)
Definition requestParams (c : SemrushApiClient) (params : ApiQueryParams)
  : ApiQueryParams :=
  obj_set "key" (PStr (apiKey c)) params.

(** [`${url}:${JSON.stringify(requestParams)}`]. *)
Definition cacheKey (c : SemrushApiClient) (url : string)
  (params : ApiQueryParams) : string :=
  url +:+ ":" +:+ JSON_stringify (requestParams c params).

(** [{ method: 'get', url, params: requestParams, ...options }]. *)
Definition axiosRequest (url : string) (requestParams : ApiQueryParams)
  (options : AxiosRequestConfig) : AxiosRequest :=
  {| method := default "get" (opt_method options);
     url := default url (opt_url options);
     params := default requestParams (opt_params options);
     validateStatus :=
       default defaultValidateStatus (opt_validateStatus options) |}.

(** [data?.error?.message]. *)
Definition nestedErrorMessage (data : JSON) : option JSON :=
  e ← getProp "error" data;
  getProp "message" e.

(** The [catch] block for an [AxiosError]:
    [status = error.response?.status || 500],
    [message = error.response?.data?.error?.message || error.message],
    [new SemrushApiError(message, status, error.response?.data)]. *)
Definition fromAxiosError (error : AxiosError) : SemrushApiError :=
  let status :=
    match response error with
    | Some r => if response_status r =? 0 then 500 else response_status r
    | None => 500
    end in
  let nested := r ← response error; nestedErrorMessage (response_data r) in
  let message :=
    match nested with
    | Some m => if truthy (Some m) then toString m else message error
    | None => message error
    end in
  {| err_message := message;
     err_status := status;
     err_response := response_data <$> response error |}.

(** [makeRequest(url, params = {}, options = {})].  [None]: the call is
    still waiting for the rate limiter after [fuel] polls. *)
Definition makeRequest (env : Env) (fuel : nat) (c : SemrushApiClient)
  (url : string) (params : ApiQueryParams) (options : AxiosRequestConfig)
  (w : World)
  : option (Completion SemrushApiError SemrushApiResponse * World) :=
  let requestParams := requestParams c params in
  let cacheKey := cacheKey c url params in
  match NodeCache_get cacheKey (clock w) (apiCache w) with
  | Some cachedResponse => Some (Normal cachedResponse, w)
  | None =>
      match waitForRateLimit env fuel (clock w) (rateLimiter w) with
      | None => None
      | Some (granted, rl) =>
          let req := axiosRequest url requestParams options in
          let n := length (network w) in
          let w1 :=
            {| clock := granted + Z.of_N (duration env n);
               apiCache := apiCache w;
               rateLimiter := rl;
               network := network w ++ [req] |} in
          match axios req (upstream env n req) with
          | Resolved response =>
              let apiResponse :=
                {| data := response_data response;
                   status := response_status response;
                   headers := response_headers response |} in
              Some (Normal apiResponse,
                    {| clock := clock w1;
                       apiCache :=
                         NodeCache_set cacheKey apiResponse (clock w1)
                           (apiCache w1);
                       rateLimiter := rateLimiter w1;
                       network := network w1 |})
          | RejectedAxios error => Some (Throw (fromAxiosError error), w1)
          | RejectedOther error =>
              Some (Throw {| err_message := error_message error;
                             err_status := 500;
                             err_response := None |}, w1)
          end
      end
  end.

(** ** The operations *)

(** [if (limit) { params.display_limit = limit; }] for [limit?: number]:
    the guard fails on [undefined] and on [0]. *)
Definition setDisplayLimit (limit : option Z) (params : ApiQueryParams)
  : ApiQueryParams :=
  match limit with
  | Some n => if n =? 0 then params else obj_set "display_limit" (PNum n) params
  | None => params
  end.

Section Operations.

Variable env : Env.
Variable fuel : nat.
Variable this : SemrushApiClient.

(** The type of an [async] method body once its arguments are given. *)
Definition Call : Type :=
  World -> option (Completion SemrushApiError SemrushApiResponse * World).

(** A parameter [database: string = 'us'] is an [option string]. *)

Definition getDomainOverview (domain : string) (database : option string)
  : Call :=
  makeRequest env fuel this SEMRUSH_API_BASE_URL
    [("type", PStr "domain_ranks");
     ("domain", PStr domain);
     ("database", PStr (default "us" database));
     ("export_columns", PStr "Db,Dn,Rk,Or,Ot,Oc,Ad,At,Ac,Sh,Sv")]
    noOptions.

Definition getDomainOrganicKeywords (domain : string)
  (database : option string) (limit : option Z) : Call :=
  let params :=
    [("type", PStr "domain_organic");
     ("domain", PStr domain);
     ("database", PStr (default "us" database));
     ("export_columns", PStr "Ph,Po,Pp,Pd,Nq,Cp,Ur,Tr,Tc,Co,Nr,Td")] in
  makeRequest env fuel this SEMRUSH_API_BASE_URL
    (setDisplayLimit limit params) noOptions.

Definition getDomainPaidKeywords (domain : string)
  (database : option string) (limit : option Z) : Call :=
  let params :=
    [("type", PStr "domain_adwords");
     ("domain", PStr domain);
     ("database", PStr (default "us" database));
     ("export_columns", PStr "Ph,Po,Pp,Pd,Ab,Nq,Cp,Tr,Tc,Co,Nr,Td")] in
  makeRequest env fuel this SEMRUSH_API_BASE_URL
    (setDisplayLimit limit params) noOptions.

Definition getCompetitorsInOrganic (domain : string)
  (database : option string) (limit : option Z) : Call :=
  let params :=
    [("type", PStr "domain_organic_organic");
     ("domain", PStr domain);
     ("database", PStr (default "us" database));
     ("export_columns", PStr "Dn,Cr,Np,Or,Ot,Oc,Ad,At,Ac")] in
  makeRequest env fuel this SEMRUSH_API_BASE_URL
    (setDisplayLimit limit params) noOptions.

Definition getBacklinks (target : string) (limit : option Z) : Call :=
  let params :=
    [("type", PStr "backlinks");
     ("target", PStr target);
     ("export_columns",
      PStr "source_title,source_url,target_url,anchor,page_score,domain_score,external_num,internal_num,first_seen,last_seen")] in
  makeRequest env fuel this SEMRUSH_API_BASE_URL
    (setDisplayLimit limit params) noOptions.

Definition getBacklinksDomains (target : string) (limit : option Z) : Call :=
  let params :=
    [("type", PStr "backlinks_refdomains");
     ("target", PStr target);
     ("export_columns",
      PStr "domain,domain_score,backlinks_num,ip,country,first_seen,last_seen")] in
  makeRequest env fuel this SEMRUSH_API_BASE_URL
    (setDisplayLimit limit params) noOptions.

Definition getKeywordOverview (keyword : string) (database : option string)
  : Call :=
  makeRequest env fuel this SEMRUSH_API_BASE_URL
    [("type", PStr "phrase_all");
     ("phrase", PStr keyword);
     ("database", PStr (default "us" database));
     ("export_columns", PStr "Ph,Nq,Cp,Co,Nr,Td")]
    noOptions.

Definition getRelatedKeywords (keyword : string) (database : option string)
  (limit : option Z) : Call :=
  let params :=
    [("type", PStr "phrase_related");
     ("phrase", PStr keyword);
     ("database", PStr (default "us" database));
     ("export_columns", PStr "Ph,Nq,Cp,Co,Nr,Td")] in
  makeRequest env fuel this SEMRUSH_API_BASE_URL
    (setDisplayLimit limit params) noOptions.

Definition getKeywordOverviewSingleDb (keyword database : string) : Call :=
  makeRequest env fuel this SEMRUSH_API_BASE_URL
    [("type", PStr "phrase_this");
     ("phrase", PStr keyword);
     ("database", PStr database);
     ("export_columns", PStr "Ph,Nq,Cp,Co,Nr,Td,In,Kd")]
    noOptions.

Definition getBatchKeywordOverview (keywords : list string)
  (database : string) : Call :=
  makeRequest env fuel this SEMRUSH_API_BASE_URL
    [("type", PStr "phrase_these");
     ("phrase", PStr (join ";" keywords));
     ("database", PStr database);
     ("export_columns", PStr "Ph,Nq,Cp,Co,Nr,Td,In,Kd")]
    noOptions.

Definition getKeywordOrganicResults (keyword database : string)
  (limit : option Z) : Call :=
  let params :=
    [("type", PStr "phrase_organic");
     ("phrase", PStr keyword);
     ("database", PStr database);
     ("export_columns", PStr "Po,Pt,Dn,Ur,Fk,Fp,Fl")] in
  makeRequest env fuel this SEMRUSH_API_BASE_URL
    (setDisplayLimit limit params) noOptions.

Definition getKeywordPaidResults (keyword database : string)
  (limit : option Z) : Call :=
  let params :=
    [("type", PStr "phrase_adwords");
     ("phrase", PStr keyword);
     ("database", PStr database);
     ("export_columns", PStr "Dn,Ur,Vu")] in
  makeRequest env fuel this SEMRUSH_API_BASE_URL
    (setDisplayLimit limit params) noOptions.

Definition getKeywordAdsHistory (keyword database : string)
  (limit : option Z) : Call :=
  let params :=
    [("type", PStr "phrase_adwords_historical");
     ("phrase", PStr keyword);
     ("database", PStr database);
     ("export_columns", PStr "Dn,Dt,Po,Ur,Tt,Ds,Vu")] in
  makeRequest env fuel this SEMRUSH_API_BASE_URL
    (setDisplayLimit limit params) noOptions.

Definition getBroadMatchKeywords (keyword database : string)
  (limit : option Z) : Call :=
  let params :=
    [("type", PStr "phrase_fullsearch");
     ("phrase", PStr keyword);
     ("database", PStr database);
     ("export_columns", PStr "Ph,Nq,Cp,Co,Nr,Td,Fk,In,Kd")] in
  makeRequest env fuel this SEMRUSH_API_BASE_URL
    (setDisplayLimit limit params) noOptions.

Definition getPhraseQuestions (keyword database : string)
  (limit : option Z) : Call :=
  let params :=
    [("type", PStr "phrase_questions");
     ("phrase", PStr keyword);
     ("database", PStr database);
     ("export_columns", PStr "Ph,Nq,Cp,Co,Nr,Td,In,Kd")] in
  makeRequest env fuel this SEMRUSH_API_BASE_URL
    (setDisplayLimit limit params) noOptions.

Definition getKeywordDifficulty (keywords : list string) (database : string)
  : Call :=
  makeRequest env fuel this SEMRUSH_API_BASE_URL
    [("type", PStr "phrase_kdi");
     ("phrase", PStr (join ";" keywords));
     ("database", PStr database);
     ("export_columns", PStr "Ph,Kd")]
    noOptions.

Definition getTrafficSummary (domains : list string)
  (country : option string) : Call :=
  makeRequest env fuel this (TRENDS_API_BASE_URL +:+ "summary")
    [("domains", PStr (join "," domains));
     ("country", PStr (default "us" country));
     ("date", PStr "all")]
    noOptions.

Definition getTrafficSources (domain : string) (country : option string)
  : Call :=
  makeRequest env fuel this (TRENDS_API_BASE_URL +:+ "sources")
    [("domain", PStr domain);
     ("country", PStr (default "us" country));
     ("date", PStr "all")]
    noOptions.

Definition getApiUnitsBalance : Call :=
  makeRequest env fuel this SEMRUSH_API_BASE_URL
    [("type", PStr "api_units")]
    noOptions.

End Operations.

(** A call of one of the public methods, with its arguments. *)
Inductive Operation :=
| DomainOverview (domain : string) (database : option string)
| DomainOrganicKeywords (domain : string) (database : option string)
    (limit : option Z)
| DomainPaidKeywords (domain : string) (database : option string)
    (limit : option Z)
| CompetitorsInOrganic (domain : string) (database : option string)
    (limit : option Z)
| Backlinks (target : string) (limit : option Z)
| BacklinksDomains (target : string) (limit : option Z)
| KeywordOverview (keyword : string) (database : option string)
| RelatedKeywords (keyword : string) (database : option string)
    (limit : option Z)
| KeywordOverviewSingleDb (keyword database : string)
| BatchKeywordOverview (keywords : list string) (database : string)
| KeywordOrganicResults (keyword database : string) (limit : option Z)
| KeywordPaidResults (keyword database : string) (limit : option Z)
| KeywordAdsHistory (keyword database : string) (limit : option Z)
| BroadMatchKeywords (keyword database : string) (limit : option Z)
| PhraseQuestions (keyword database : string) (limit : option Z)
| KeywordDifficulty (keywords : list string) (database : string)
| TrafficSummary (domains : list string) (country : option string)
| TrafficSources (domain : string) (country : option string)
| ApiUnitsBalance.

Definition invoke (env : Env) (fuel : nat) (this : SemrushApiClient)
  (op : Operation) : Call :=
  match op with
  | DomainOverview d db => getDomainOverview env fuel this d db
  | DomainOrganicKeywords d db l => getDomainOrganicKeywords env fuel this d db l
  | DomainPaidKeywords d db l => getDomainPaidKeywords env fuel this d db l
  | CompetitorsInOrganic d db l => getCompetitorsInOrganic env fuel this d db l
  | Backlinks tg l => getBacklinks env fuel this tg l
  | BacklinksDomains tg l => getBacklinksDomains env fuel this tg l
  | KeywordOverview k db => getKeywordOverview env fuel this k db
  | RelatedKeywords k db l => getRelatedKeywords env fuel this k db l
  | KeywordOverviewSingleDb k db => getKeywordOverviewSingleDb env fuel this k db
  | BatchKeywordOverview ks db => getBatchKeywordOverview env fuel this ks db
  | KeywordOrganicResults k db l => getKeywordOrganicResults env fuel this k db l
  | KeywordPaidResults k db l => getKeywordPaidResults env fuel this k db l
  | KeywordAdsHistory k db l => getKeywordAdsHistory env fuel this k db l
  | BroadMatchKeywords k db l => getBroadMatchKeywords env fuel this k db l
  | PhraseQuestions k db l => getPhraseQuestions env fuel this k db l
  | KeywordDifficulty ks db => getKeywordDifficulty env fuel this ks db
  | TrafficSummary ds co => getTrafficSummary env fuel this ds co
  | TrafficSources d co => getTrafficSources env fuel this d co
  | ApiUnitsBalance => getApiUnitsBalance env fuel this
  end.

(** The [limit] argument of a call: [None] for a method that has none,
    [Some None] for a limit left [undefined]. *)
Definition limitArgument (op : Operation) : option (option Z) :=
  match op with
  | DomainOrganicKeywords _ _ l | DomainPaidKeywords _ _ l
  | CompetitorsInOrganic _ _ l | Backlinks _ l | BacklinksDomains _ l
  | RelatedKeywords _ _ l | KeywordOrganicResults _ _ l
  | KeywordPaidResults _ _ l | KeywordAdsHistory _ _ l
  | BroadMatchKeywords _ _ l | PhraseQuestions _ _ l => Some l
  | _ => None
  end.

(** The same call with another [limit] argument. *)
Definition withLimit (limit : option Z) (op : Operation) : Operation :=
  match op with
  | DomainOrganicKeywords d db _ => DomainOrganicKeywords d db limit
  | DomainPaidKeywords d db _ => DomainPaidKeywords d db limit
  | CompetitorsInOrganic d db _ => CompetitorsInOrganic d db limit
  | Backlinks tg _ => Backlinks tg limit
  | BacklinksDomains tg _ => BacklinksDomains tg limit
  | RelatedKeywords k db _ => RelatedKeywords k db limit
  | KeywordOrganicResults k db _ => KeywordOrganicResults k db limit
  | KeywordPaidResults k db _ => KeywordPaidResults k db limit
  | KeywordAdsHistory k db _ => KeywordAdsHistory k db limit
  | BroadMatchKeywords k db _ => BroadMatchKeywords k db limit
  | PhraseQuestions k db _ => PhraseQuestions k db limit
  | other => other
  end.

(** Module initialisation: [apiCache], [rateLimiter] and the exported
    singleton [semrushApi], at instant [now]. *)
Definition initialise (config : Config) (now : Z)
  : Completion JsError (World * SemrushApiClient) :=
  let apiCache := NodeCache_new (API_CACHE_TTL_SECONDS config) in
  match RateLimiter_new config None with
  | Throw e => Throw e
  | Normal rateLimiter =>
      match SemrushApiClient_new config None with
      | Throw e => Throw e
      | Normal semrushApi =>
          Normal ({| clock := now; apiCache := apiCache;
                     rateLimiter := rateLimiter; network := [] |},
                  semrushApi)
      end
  end.

(** ** Runs of the rate limiter *)

(** A poll is one run of [checkRateLimit], given with the two clock
    readings it makes.  [runPolls] performs the polls in turn, whichever
    pending call each belongs to, and collects the timestamps of the
    requests admitted. *)
Fixpoint runPolls (polls : list (Z * Z)) (admitted : list Z) (rl : RateLimiter)
  : list Z * RateLimiter :=
  match polls with
  | [] => (admitted, rl)
  | (now, now') :: rest =>
      match checkRateLimit now now' rl with
      | (true, rl') => runPolls rest (admitted ++ [now']) rl'
      | (false, rl') => runPolls rest admitted rl'
      end
  end.


(** The clock does not go back: every reading is at least the one before,
    starting from [lo]. *)
Fixpoint chronological (lo : Z) (polls : list (Z * Z)) : Prop :=
  match polls with
  | [] => True
  | (now, now') :: rest => lo <= now /\ now <= now' /\ chronological now' rest
  end.

(** The number of admitted requests in the window [[w, w + 1000)]. *)
Definition admittedIn (w : Z) (admitted : list Z) : nat :=
  length (filter (fun t => w <= t /\ t < w + 1000) admitted).

(** The number of timestamps less than one second old at [now]. *)
Definition recent (now : Z) (timestamps : list Z) : nat :=
  length (filter (fun t => now - 1000 < t) timestamps).

(** The invariant of a run, at clock [lo]: the limiter still holds every
    admitted timestamp that can matter from [lo] on, and no window holds
    more than the limit. *)
Definition runInvariant (lo : Z) (admitted : list Z) (rl : RateLimiter) : Prop :=
  (forall x, lo - 1000 <= x ->
     filter (fun t => x < t) admitted
     = filter (fun t => x < t) (requestTimestamps rl))
  /\ (forall w, Z.of_nat (admittedIn w admitted) <= Z.max 0 (rateLimit rl)).

(** ** The worlds a call of [makeRequest] leads to *)

(** The world once the exchange [req], started at the grant, is over. *)
Definition afterExchange (env : Env) (req : AxiosRequest) (w : World)
  (granted : Z) (rl : RateLimiter) : World :=
  {| clock := granted + Z.of_N (duration env (length (network w)));
     apiCache := apiCache w;
     rateLimiter := rl;
     network := network w ++ [req] |}.

(** The world after the response [r] to [req] was stored under [key]. *)
Definition afterStore (env : Env) (key : string) (req : AxiosRequest)
  (w : World) (granted : Z) (rl : RateLimiter) (r : AxiosResponse) : World :=
  let w1 := afterExchange env req w granted rl in
  {| clock := clock w1;
     apiCache :=
       NodeCache_set key
         {| data := response_data r; status := response_status r;
            headers := response_headers r |} (clock w1) (apiCache w);
     rateLimiter := rl;
     network := network w1 |}.

(** ** Concrete inputs used below *)

(** The configuration of the README defaults with a key. *)
Definition sampleConfig : Config :=
  {| SEMRUSH_API_KEY := Some "secret";
     API_CACHE_TTL_SECONDS := 300;
     API_RATE_LIMIT_PER_SECOND := 10 |}.

(** No key in the environment. *)
Definition keylessConfig : Config :=
  {| SEMRUSH_API_KEY := None;
     API_CACHE_TTL_SECONDS := 300;
     API_RATE_LIMIT_PER_SECOND := 10 |}.

(** A limiter with limit 2 that admitted requests at 4500 and 4900. *)
Definition busyLimiter : RateLimiter :=
  {| requestTimestamps := [4500; 4900]; rateLimit := 2 |}.

(** An upstream that answers every request with [r] after 50ms; timers
    fire on time. *)
Definition answering (r : AxiosResponse) : Env :=
  {| wire := fun _ _ _ => HttpResponse r;
     maxRedirects := 21;
     duration := fun _ => 50%N;
     lateness := fun _ => 0%N |}.

(** An upstream that cannot be reached. *)
Definition unreachable : Env :=
  {| wire := fun _ _ _ => NoResponse "connect ECONNREFUSED 10.0.0.1:443";
     maxRedirects := 21;
     duration := fun _ => 50%N;
     lateness := fun _ => 0%N |}.

Definition okResponse : AxiosResponse :=
  {| response_data := JStr "Ph;Nq";
     response_status := 200;
     response_headers := [("content-type", "text/plain")] |}.

Definition sampleClient : SemrushApiClient := {| apiKey := "secret" |}.

(** The world right after initialisation with [sampleConfig] at instant
    1000000. *)
Definition freshWorld : World :=
  {| clock := 1000000;
     apiCache := NodeCache_new 300;
     rateLimiter := {| requestTimestamps := []; rateLimit := 10 |};
     network := [] |}.

(** An error page: status 404, a body that is no JSON document. *)
Definition notFoundResponse : AxiosResponse :=
  {| response_data := JStr "<html>Not Found</html>";
     response_status := 404;
     response_headers := [("content-type", "text/html")] |}.

(** Status 403 with the body [{error:{message:"Access denied"}}]. *)
Definition deniedResponse : AxiosResponse :=
  {| response_data := JObj [("error", JObj [("message", JStr "Access denied")])];
     response_status := 403;
     response_headers := [("content-type", "application/json")] |}.

(** A redirection: status 302 with a [location] header. *)
Definition movedResponse : AxiosResponse :=
  {| response_data := JStr "";
     response_status := 302;
     response_headers := [("location", "https://www.semrush.com/api/")] |}.

(** An upstream that answers the request itself with [movedResponse] and
    the request the redirection leads to with [r]. *)
Definition redirecting (r : AxiosResponse) : Env :=
  {| wire := fun _ h _ =>
               match h with
               | O => HttpResponse movedResponse
               | S _ => HttpResponse r
               end;
     maxRedirects := 21;
     duration := fun _ => 50%N;
     lateness := fun _ => 0%N |}.

(** The world after [getApiUnitsBalance] was answered with [okResponse]
    in [freshWorld]. *)
Definition storedWorld : World :=
  afterStore (answering okResponse)
    (cacheKey sampleClient SEMRUSH_API_BASE_URL [("type", PStr "api_units")])
    (axiosRequest SEMRUSH_API_BASE_URL
       (requestParams sampleClient [("type", PStr "api_units")]) noOptions)
    freshWorld 1000000 {| requestTimestamps := [1000000]; rateLimit := 10 |}
    okResponse.

(** 299 seconds later, with a limiter that would admit nothing. *)
Definition laterWorld : World :=
  {| clock := clock storedWorld + 299000;
     apiCache := apiCache storedWorld;
     rateLimiter := {| requestTimestamps := []; rateLimit := 0 |};
     network := network storedWorld |}.

(** ** The tool handler (server part of the sources)

    The handler of [CallToolRequestSchema]: it selects the operation by the
    tool name, validates the arguments with the zod schema of the tool,
    awaits the operation and answers with the serialised payload; whatever
    is thrown on the way is turned into an error result by
    [handleApiError]. *)

(** [JSON.stringify(value)] of a parsed document. *)
Fixpoint stringify (value : JSON) : string :=
  match value with
  | JNull => "null"
  | JBool true => "true"
  | JBool false => "false"
  | JNum n => pretty n
  | JStr s => quoteJSONString s
  | JArr items => "[" +:+ String.concat "," (map stringify items) +:+ "]"
  | JObj fields =>
      "{" +:+
      String.concat ","
        (map (fun p => quoteJSONString (fst p) +:+ ":" +:+ stringify (snd p))
           fields) +:+
      "}"
  end.

(** The answer of the handler: [{ content: [{ type: 'text', text }] }],
    with [isError: true] when [isError] holds. *)
Record ToolResult := {
  isError : bool;
  text : string
}.

(** What the [catch] block of the handler can get. *)
Inductive Caught :=
| CaughtApiError (error : SemrushApiError)
| CaughtError (message : string).

(** [handleApiError(error)]. *)
Definition handleApiError (error : Caught) : ToolResult :=
  match error with
  | CaughtApiError e =>
      {| isError := true;
         text := "Error: " +:+ err_message e +:+ ". Status: " +:+
                 pretty (err_status e) |}
  | CaughtError message =>
      {| isError := true;
         text := "Unexpected error: " +:+
                 (if String.eqb message "" then "Unknown error" else message) |}
  end.

(** zod: [z.string()], [z.string().optional().default(d)],
    [z.number().optional()], [z.boolean()], [z.array(z.string())] applied to
    a property of the arguments ([None]: the property is absent), and
    [z.object] applied to the arguments.  [None] as a result is a thrown
    [ZodError]. *)
Definition zString (value : option JSON) : option string :=
  match value with
  | Some (JStr s) => Some s
  | _ => None
  end.

Definition zStringDefault (d : string) (value : option JSON) : option string :=
  match value with
  | None => Some d
  | Some (JStr s) => Some s
  | Some _ => None
  end.

Definition zNumberOptional (value : option JSON) : option (option Z) :=
  match value with
  | None => Some None
  | Some (JNum n) => Some (Some n)
  | Some _ => None
  end.

Definition zBoolean (value : option JSON) : option bool :=
  match value with
  | Some (JBool b) => Some b
  | _ => None
  end.

Definition zStringArray (value : option JSON) : option (list string) :=
  match value with
  | Some (JArr items) => mapM (fun item => zString (Some item)) items
  | _ => None
  end.

Definition zObject (args : option JSON) : option (list (string * JSON)) :=
  match args with
  | Some (JObj fields) => Some fields
  | _ => None
  end.

(** The schemas [DomainParams], [TargetParams], [KeywordParams],
    [TrafficDomainsParams], [TrafficDomainParams], [CheckParams] and
    [BatchKeywordParams]: the parsed properties, in the order declared. *)
Definition DomainParams (args : option JSON)
  : option (string * string * option Z) :=
  fields ← zObject args;
  domain ← zString (assoc "domain" fields);
  database ← zStringDefault "us" (assoc "database" fields);
  limit ← zNumberOptional (assoc "limit" fields);
  Some (domain, database, limit).

Definition TargetParams (args : option JSON) : option (string * option Z) :=
  fields ← zObject args;
  target ← zString (assoc "target" fields);
  limit ← zNumberOptional (assoc "limit" fields);
  Some (target, limit).

Definition KeywordParams (args : option JSON)
  : option (string * string * option Z) :=
  fields ← zObject args;
  keyword ← zString (assoc "keyword" fields);
  database ← zStringDefault "us" (assoc "database" fields);
  limit ← zNumberOptional (assoc "limit" fields);
  Some (keyword, database, limit).

Definition TrafficDomainsParams (args : option JSON)
  : option (list string * string) :=
  fields ← zObject args;
  domains ← zStringArray (assoc "domains" fields);
  country ← zStringDefault "us" (assoc "country" fields);
  Some (domains, country).

Definition TrafficDomainParams (args : option JSON) : option (string * string) :=
  fields ← zObject args;
  domain ← zString (assoc "domain" fields);
  country ← zStringDefault "us" (assoc "country" fields);
  Some (domain, country).

Definition CheckParams (args : option JSON) : option bool :=
  fields ← zObject args;
  zBoolean (assoc "check" fields).

Definition BatchKeywordParams (args : option JSON)
  : option (list string * string) :=
  fields ← zObject args;
  keywords ← zStringArray (assoc "keywords" fields);
  database ← zStringDefault "us" (assoc "database" fields);
  Some (keywords, database).

(** The [switch] of the handler up to the call of the client: the tool is
    unknown, the arguments are refused by the schema, or a method of
    [semrushApi] is called with the parsed arguments. *)
Inductive Dispatch :=
| UnknownTool
| InvalidArguments
| CallOperation (op : Operation).

Definition validated {A} (parsed : option A) (call : A -> Operation) : Dispatch :=
  match parsed with
  | Some a => CallOperation (call a)
  | None => InvalidArguments
  end.

Definition dispatch (toolName : string) (args : option JSON) : Dispatch :=
  if String.eqb toolName "semrush_domain_overview" then
    validated (DomainParams args)
      (fun '(domain, database, _) => DomainOverview domain (Some database))
  else if String.eqb toolName "semrush_domain_organic_keywords" then
    validated (DomainParams args)
      (fun '(domain, database, limit) =>
         DomainOrganicKeywords domain (Some database) limit)
  else if String.eqb toolName "semrush_domain_paid_keywords" then
    validated (DomainParams args)
      (fun '(domain, database, limit) =>
         DomainPaidKeywords domain (Some database) limit)
  else if String.eqb toolName "semrush_competitors" then
    validated (DomainParams args)
      (fun '(domain, database, limit) =>
         CompetitorsInOrganic domain (Some database) limit)
  else if String.eqb toolName "semrush_backlinks" then
    validated (TargetParams args) (fun '(target, limit) => Backlinks target limit)
  else if String.eqb toolName "semrush_backlinks_domains" then
    validated (TargetParams args)
      (fun '(target, limit) => BacklinksDomains target limit)
  else if String.eqb toolName "semrush_keyword_overview" then
    validated (KeywordParams args)
      (fun '(keyword, database, _) => KeywordOverview keyword (Some database))
  else if String.eqb toolName "semrush_related_keywords" then
    validated (KeywordParams args)
      (fun '(keyword, database, limit) =>
         RelatedKeywords keyword (Some database) limit)
  else if String.eqb toolName "semrush_keyword_overview_single_db" then
    validated (KeywordParams args)
      (fun '(keyword, database, _) => KeywordOverviewSingleDb keyword database)
  else if String.eqb toolName "semrush_batch_keyword_overview" then
    validated (BatchKeywordParams args)
      (fun '(keywords, database) => BatchKeywordOverview keywords database)
  else if String.eqb toolName "semrush_keyword_organic_results" then
    validated (KeywordParams args)
      (fun '(keyword, database, limit) =>
         KeywordOrganicResults keyword database limit)
  else if String.eqb toolName "semrush_keyword_paid_results" then
    validated (KeywordParams args)
      (fun '(keyword, database, limit) =>
         KeywordPaidResults keyword database limit)
  else if String.eqb toolName "semrush_keyword_ads_history" then
    validated (KeywordParams args)
      (fun '(keyword, database, limit) =>
         KeywordAdsHistory keyword database limit)
  else if String.eqb toolName "semrush_broad_match_keywords" then
    validated (KeywordParams args)
      (fun '(keyword, database, limit) =>
         BroadMatchKeywords keyword database limit)
  else if String.eqb toolName "semrush_phrase_questions" then
    validated (KeywordParams args)
      (fun '(keyword, database, limit) =>
         PhraseQuestions keyword database limit)
  else if String.eqb toolName "semrush_keyword_difficulty" then
    validated (BatchKeywordParams args)
      (fun '(keywords, database) => KeywordDifficulty keywords database)
  else if String.eqb toolName "semrush_traffic_summary" then
    validated (TrafficDomainsParams args)
      (fun '(domains, country) => TrafficSummary domains (Some country))
  else if String.eqb toolName "semrush_traffic_sources" then
    validated (TrafficDomainParams args)
      (fun '(domain, country) => TrafficSources domain (Some country))
  else if String.eqb toolName "semrush_api_units_balance" then
    validated (CheckParams args) (fun _ => ApiUnitsBalance)
  else UnknownTool.

(** The handler.  [zodMessage] is the message of the [ZodError] thrown for
    the arguments, a text made by the zod library.  [None]: the
    operation is still waiting for the rate limiter after [fuel] polls. *)
Definition callTool (env : Env) (fuel : nat) (zodMessage : string)
  (semrushApi : SemrushApiClient) (toolName : string) (args : option JSON)
  (w : World) : option (ToolResult * World) :=
  match dispatch toolName args with
  | UnknownTool =>
      Some ({| isError := true; text := "Unknown tool: " +:+ toolName |}, w)
  | InvalidArguments => Some (handleApiError (CaughtError zodMessage), w)
  | CallOperation op =>
      match invoke env fuel semrushApi op w with
      | None => None
      | Some (Normal response, w1) =>
          Some ({| isError := false; text := stringify (data response) |}, w1)
      | Some (Throw error, w1) =>
          Some (handleApiError (CaughtApiError error), w1)
      end
  end.

(** ** The declared tools ([TOOLS]) *)

Inductive SchemaType := TString | TNumber | TBoolean | TStringArray.

(** An entry of [TOOLS]: the name, the properties of the input schema with
    their types, and the required ones. *)
Record Tool := {
  name : string;
  properties : list (string * SchemaType);
  required : list string
}.

Definition TOOLS : list Tool :=
  [ {| name := "semrush_domain_overview";
       properties := [("domain", TString); ("database", TString)];
       required := ["domain"] |};
    {| name := "semrush_domain_organic_keywords";
       properties :=
         [("domain", TString); ("database", TString); ("limit", TNumber)];
       required := ["domain"] |};
    {| name := "semrush_domain_paid_keywords";
       properties :=
         [("domain", TString); ("database", TString); ("limit", TNumber)];
       required := ["domain"] |};
    {| name := "semrush_competitors";
       properties :=
         [("domain", TString); ("database", TString); ("limit", TNumber)];
       required := ["domain"] |};
    {| name := "semrush_backlinks";
       properties := [("target", TString); ("limit", TNumber)];
       required := ["target"] |};
    {| name := "semrush_backlinks_domains";
       properties := [("target", TString); ("limit", TNumber)];
       required := ["target"] |};
    {| name := "semrush_keyword_overview";
       properties := [("keyword", TString); ("database", TString)];
       required := ["keyword"] |};
    {| name := "semrush_related_keywords";
       properties :=
         [("keyword", TString); ("database", TString); ("limit", TNumber)];
       required := ["keyword"] |};
    {| name := "semrush_keyword_overview_single_db";
       properties := [("keyword", TString); ("database", TString)];
       required := ["keyword"; "database"] |};
    {| name := "semrush_batch_keyword_overview";
       properties := [("keywords", TStringArray); ("database", TString)];
       required := ["keywords"; "database"] |};
    {| name := "semrush_keyword_organic_results";
       properties :=
         [("keyword", TString); ("database", TString); ("limit", TNumber)];
       required := ["keyword"; "database"] |};
    {| name := "semrush_keyword_paid_results";
       properties :=
         [("keyword", TString); ("database", TString); ("limit", TNumber)];
       required := ["keyword"; "database"] |};
    {| name := "semrush_keyword_ads_history";
       properties :=
         [("keyword", TString); ("database", TString); ("limit", TNumber)];
       required := ["keyword"; "database"] |};
    {| name := "semrush_broad_match_keywords";
       properties :=
         [("keyword", TString); ("database", TString); ("limit", TNumber)];
       required := ["keyword"; "database"] |};
    {| name := "semrush_phrase_questions";
       properties :=
         [("keyword", TString); ("database", TString); ("limit", TNumber)];
       required := ["keyword"; "database"] |};
    {| name := "semrush_keyword_difficulty";
       properties := [("keywords", TStringArray); ("database", TString)];
       required := ["keywords"; "database"] |};
    {| name := "semrush_traffic_summary";
       properties := [("domains", TStringArray); ("country", TString)];
       required := ["domains"] |};
    {| name := "semrush_traffic_sources";
       properties := [("domain", TString); ("country", TString)];
       required := ["domain"] |};
    {| name := "semrush_api_units_balance";
       properties := [("check", TBoolean)];
       required := ["check"] |} ].

(** A value of the declared type. *)
Definition hasType (ty : SchemaType) (value : JSON) : bool :=
  match ty, value with
  | TString, JStr _ => true
  | TNumber, JNum _ => true
  | TBoolean, JBool _ => true
  | TStringArray, JArr items =>
      forallb (fun item => match item with JStr _ => true | _ => false end) items
  | _, _ => false
  end.

(** Arguments that satisfy the declared input schema of a tool: an object
    whose declared properties, where present, have the declared type and
    whose required properties are present. *)
Definition conforms (tool : Tool) (args : option JSON) : bool :=
  match args with
  | Some (JObj fields) =>
      forallb (fun p => match assoc (fst p) fields with
                        | Some value => hasType (snd p) value
                        | None => true
                        end) (properties tool)
      && forallb (fun r => match assoc r fields with
                           | Some _ => true
                           | None => false
                           end) (required tool)
  | _ => false
  end.

(** Arguments with no property beyond the declared ones. *)
Definition onlyDeclared (tool : Tool) (args : option JSON) : bool :=
  match args with
  | Some (JObj fields) =>
      forallb (fun p => existsb (String.eqb (fst p)) (map fst (properties tool)))
        fields
  | _ => false
  end.

(** A little more than 300 seconds after [storedWorld]. *)
Definition expiredWorld : World :=
  {| clock := clock storedWorld + 300001;
     apiCache := apiCache storedWorld;
     rateLimiter := rateLimiter storedWorld;
     network := network storedWorld |}.

(** ** Reading back a quoted character

    The inverse of [quoteChar], used to show that the serialisation loses
    nothing. *)
Definition hexValue (c : ascii) : N :=
  match c with
  | "0" => 0 | "1" => 1 | "2" => 2 | "3" => 3 | "4" => 4
  | "5" => 5 | "6" => 6 | "7" => 7 | "8" => 8 | "9" => 9
  | "a" => 10 | "b" => 11 | "c" => 12 | "d" => 13 | "e" => 14
  | _ => 15
  end%char%N.

Definition unquoteChar (s : string) : option (ascii * string) :=
  match s with
  | String c rest =>
      if Ascii.eqb c backslash then
        match rest with
        | String e rest' =>
            if Ascii.eqb e "b" then Some (ascii_of_N 8, rest')
            else if Ascii.eqb e "t" then Some (ascii_of_N 9, rest')
            else if Ascii.eqb e "n" then Some (ascii_of_N 10, rest')
            else if Ascii.eqb e "f" then Some (ascii_of_N 12, rest')
            else if Ascii.eqb e "r" then Some (ascii_of_N 13, rest')
            else if Ascii.eqb e dquote then Some (dquote, rest')
            else if Ascii.eqb e backslash then Some (backslash, rest')
            else if Ascii.eqb e "u" then
              match rest' with
              | String _ (String _ (String h (String l rest''))) =>
                  Some (ascii_of_N (16 * hexValue h + hexValue l), rest'')
              | _ => None
              end
            else None
        | EmptyString => None
        end
      else if Ascii.eqb c dquote then None
      else Some (c, rest)
  | EmptyString => None
  end.

(** The text up to the closing quote, read back, and what follows the
    quote; [fuel] bounds the number of characters read. *)
Fixpoint unquoteChars (fuel : nat) (s : string) : option (string * string) :=
  match fuel with
  | O => None
  | S fuel' =>
      match s with
      | String c rest =>
          if Ascii.eqb c dquote then Some ("", rest)
          else
            match unquoteChar s with
            | Some (ch, rest') =>
                match unquoteChars fuel' rest' with
                | Some (str, r) => Some (String ch str, r)
                | None => None
                end
            | None => None
            end
      | EmptyString => None
      end
  end.

(** The characters of a decimal number. *)
Definition isNumChar (c : ascii) : bool :=
  match c with
  | "-" | "0" | "1" | "2" | "3" | "4" | "5" | "6" | "7" | "8" | "9" => true
  | _ => false
  end%char.

Fixpoint allNumChars (s : string) : bool :=
  match s with
  | EmptyString => true
  | String c rest => isNumChar c && allNumChars rest
  end.

(** What follows a property in a serialised object: a comma or the
    closing brace. *)
Definition terminated (s : string) : Prop :=
  exists rest, s = String "," rest \/ s = String "}" rest.

(** Parameters none of which is [undefined]. *)
Definition allDefined (obj : ApiQueryParams) : Prop :=
  Forall (fun p => snd p <> PUndefined) obj.

(** The integers a JS number holds exactly, which are written with their
    decimal digits. *)
Definition safeInteger (n : Z) : Prop := - 2 ^ 53 < n < 2 ^ 53.

(** A call whose [limit], if it has one, is such an integer. *)
Definition safeLimit (op : Operation) : Prop :=
  match limitArgument op with
  | Some (Some n) => safeInteger n
  | _ => True
  end.

(** The three addresses the client knows. *)
Definition endpoint (url : string) : Prop :=
  url = SEMRUSH_API_BASE_URL
  \/ url = TRENDS_API_BASE_URL +:+ "summary"
  \/ url = TRENDS_API_BASE_URL +:+ "sources".

(** ** Redaction of log text ([redactSensitive], [config.ts])

    The three regular expressions of [redactSensitive] test single
    characters, so for this function a JS string is the list of its UTF-16
    code units, which is what a regular expression without the [u] flag
    works on.  Only the branch for a string input is modelled, the one
    every [logger] call of the sources takes (the branch for objects
    lower-cases property names, which needs the Unicode case tables). *)

(** The code units of an ASCII literal. *)
Definition codeUnits (s : string) : list N :=
  map N_of_ascii (list_ascii_of_string s).

(** [[0-9a-fA-F]]. *)
Definition isHexDigit (c : N) : bool :=
  (((48 <=? c) && (c <=? 57)) || ((65 <=? c) && (c <=? 70))
   || ((97 <=? c) && (c <=? 102)))%N.

(** [\s]: the white space and line terminator code units of ECMAScript. *)
Definition isWhiteSpace (c : N) : bool :=
  (((9 <=? c) && (c <=? 13)) || (c =? 32) || (c =? 160) || (c =? 5760)
   || ((8192 <=? c) && (c <=? 8202)) || (c =? 8232) || (c =? 8233)
   || (c =? 8239) || (c =? 8287) || (c =? 12288) || (c =? 65279))%N.

(** [[^=&\s]]. *)
Definition isLongChar (c : N) : bool :=
  negb ((c =? 61)%N || (c =? 38)%N || isWhiteSpace c).

(** [[^&\s]]. *)
Definition isValueChar (c : N) : bool :=
  negb ((c =? 38)%N || isWhiteSpace c).

(** The number of leading code units in a class: what a greedy
    quantifier over the class can take. *)
Fixpoint runLength (class : N -> bool) (s : list N) : nat :=
  match s with
  | c :: rest => if class c then S (runLength class rest) else O
  | [] => O
  end.

(** [input.replace(/re/g, ...)] for an expression that matches no empty
    text.  [matchAt s] is the match that starts at the head of [s], if
    there is one: the text put in its place and the number of code units
    matched.  The text is scanned from the left; where a match starts its
    replacement is put out and the scan goes on after the match, elsewhere
    the code unit is kept.  [skip] counts the code units of the current
    match still to pass over. *)
Fixpoint replaceAll (matchAt : list N -> option (list N * nat)) (skip : nat)
  (s : list N) : list N :=
  match s with
  | [] => []
  | c :: rest =>
      match skip with
      | S skip' => replaceAll matchAt skip' rest
      | O =>
          match matchAt s with
          | Some (replacement, matched) =>
              replacement ++ replaceAll matchAt (matched - 1) rest
          | None => c :: replaceAll matchAt O rest
          end
      end
  end.

(** [/[0-9a-fA-F]{32,64}/] at the head of [s]. *)
Definition matchHexKey (s : list N) : option (list N * nat) :=
  let n := Nat.min (runLength isHexDigit s) 64 in
  if (32 <=? n)%nat then Some (codeUnits "[REDACTED_KEY]", n) else None.

(** [/[^=&\s]{32,}/] at the head of [s]. *)
Definition matchLongValue (s : list N) : option (list N * nat) :=
  let n := runLength isLongChar s in
  if (32 <=? n)%nat then Some (codeUnits "[REDACTED_LONG_VALUE]", n) else None.

(** A code unit that matches the pattern character [p] under the [i]
    flag: [p] itself or, for a lower-case letter, its upper-case form. *)
Definition matchesIgnoringCase (p c : N) : bool :=
  ((c =? p) || ((97 <=? p) && (p <=? 122) && (c =? p - 32)))%N.

Fixpoint startsWithIgnoringCase (pattern s : list N) : bool :=
  match pattern, s with
  | [], _ => true
  | p :: pattern', c :: s' =>
      matchesIgnoringCase p c && startsWithIgnoringCase pattern' s'
  | _ :: _, [] => false
  end.

(** One alternative [name] of [/(...)=([^&\s]+)/i] at the head of [s]:
    the name, [=] and one or more value characters, replaced by
    [$1=[REDACTED]]. *)
Definition matchAssignment (name : list N) (s : list N)
  : option (list N * nat) :=
  if startsWithIgnoringCase name s then
    match drop (length name) s with
    | c :: value =>
        if (c =? 61)%N then
          let n := runLength isValueChar value in
          if (1 <=? n)%nat
          then Some (take (length name) s ++ codeUnits "=[REDACTED]",
                     (length name + 1 + n)%nat)
          else None
        else None
    | [] => None
    end
  else None.

(** [/(api_key|key|token|password)=([^&\s]+)/i] at the head of [s]: the
    alternatives are tried in order. *)
Definition matchSecretAssignment (s : list N) : option (list N * nat) :=
  match matchAssignment (codeUnits "api_key") s with
  | Some m => Some m
  | None =>
      match matchAssignment (codeUnits "key") s with
      | Some m => Some m
      | None =>
          match matchAssignment (codeUnits "token") s with
          | Some m => Some m
          | None => matchAssignment (codeUnits "password") s
          end
      end
  end.

(** [redactSensitive(input)] for a string [input]. *)
Definition redactSensitive (input : list N) : list N :=
  replaceAll matchSecretAssignment 0
    (replaceAll matchLongValue 0
       (replaceAll matchHexKey 0 input)).

(** No run of 32 characters of the class [[^=&\s]]: [n] is the length of
    the run that ends just before [s]. *)
Fixpoint noLongRun (n : nat) (s : list N) : bool :=
  match s with
  | [] => true
  | c :: rest =>
      if isLongChar c then (S n <? 32)%nat && noLongRun (S n) rest
      else noLongRun 0 rest
  end.

(** The four names of the third expression. *)
Definition secretNames : list (list N) :=
  [codeUnits "api_key"; codeUnits "key"; codeUnits "token";
   codeUnits "password"].

(** A text that is one of the four names, in any letter case. *)
Definition isSecretName (name : list N) : Prop :=
  exists pattern,
    In pattern secretNames
    /\ length name = length pattern
    /\ startsWithIgnoringCase pattern name = true.

(** A text that is empty or begins with [&] or white space: what may
    follow a value. *)
Definition delimited (post : list N) : Prop :=
  match post with
  | [] => True
  | c :: _ => isValueChar c = false
  end.


(** The characters of the four names: lower-case letters and [_]. *)
Definition isNameChar (p : N) : bool :=
  ((p =? 95) || ((97 <=? p) && (p <=? 122)))%N.

(** ** Loading the environment file ([loadEnv], [config.ts])

    Strings are lists of code units here too: [trim] removes the white
    space of ECMAScript, which is the class [\s].  The variables of
    [process.env] are a map from names to values (as on a POSIX system,
    where names are case sensitive); names and values are taken to be free
    of the NUL character, at which the strings of the environment end. *)

(** [s.split(sep)] for a one-character separator. *)
Fixpoint splitOn (sep : N) (s : list N) : list (list N) :=
  match s with
  | [] => [[]]
  | c :: rest =>
      if (c =? sep)%N then [] :: splitOn sep rest
      else
        match splitOn sep rest with
        | piece :: pieces => (c :: piece) :: pieces
        | [] => [[c]]
        end
  end.

Fixpoint trimStart (s : list N) : list N :=
  match s with
  | c :: rest => if isWhiteSpace c then trimStart rest else s
  | [] => []
  end.

(** [s.trim()]. *)
Definition trim (s : list N) : list N :=
  rev (trimStart (rev (trimStart s))).

(** [acc[name] = value] on the plain object [acc], kept as the list of its
    properties: an assignment to [__proto__] with a string is without
    effect, an existing property takes the new value, a new one is
    added. *)
Fixpoint setOwn (name value : list N) (acc : list (list N * list N))
  : list (list N * list N) :=
  match acc with
  | [] => [(name, value)]
  | (k, old) :: rest =>
      if decide (k = name) then (k, value) :: rest
      else (k, old) :: setOwn name value rest
  end.

Definition assign (name value : list N) (acc : list (list N * list N))
  : list (list N * list N) :=
  if decide (name = codeUnits "__proto__") then acc
  else setOwn name value acc.

(** The body of the [reduce]: [const [key, value] = line.split('=')] and
    [if (key && value) acc[key.trim()] = value.trim()]. *)
Definition parseLine (acc : list (list N * list N)) (line : list N)
  : list (list N * list N) :=
  match splitOn 61 line with
  | key :: value :: _ =>
      match key, value with
      | _ :: _, _ :: _ => assign (trim key) (trim value) acc
      | _, _ => acc
      end
  | _ => acc
  end.

(** [envVars]: the lines of the file, reduced from the empty object. *)
Definition envVars (envContent : list N) : list (list N * list N) :=
  fold_left parseLine (splitOn 10 envContent) [].

(** The names every object inherits from [Object.prototype]. *)
Definition inheritedNames : list (list N) :=
  map codeUnits
    ["constructor"; "__defineGetter__"; "__defineSetter__"; "hasOwnProperty";
     "__lookupGetter__"; "__lookupSetter__"; "isPrototypeOf";
     "propertyIsEnumerable"; "toString"; "valueOf"; "__proto__";
     "toLocaleString"].

(** [if (!process.env[key]) process.env[key] = value].  The read
    [process.env[key]] gives the value of the variable when there is one;
    when there is none it goes on to [Object.prototype], where an inherited
    name is found with a function or an object as its value, which is
    truthy.  The assignment sets the variable, except under the empty name,
    which the environment refuses. *)
Definition setIfMissing (env : gmap (list N) (list N))
  (entry : list N * list N) : gmap (list N) (list N) :=
  match env !! fst entry with
  | Some (_ :: _) => env
  | Some [] => <[fst entry := snd entry]> env
  | None =>
      if decide (fst entry ∈ inheritedNames) then env
      else if decide (fst entry = []) then env
      else <[fst entry := snd entry]> env
  end.

(** [loadEnv()]: [file] is the content of the [.env] file, [None] when
    reading it throws; [process.env] is taken and given back. *)
Definition loadEnv (file : option (list N)) (env : gmap (list N) (list N))
  : gmap (list N) (list N) :=
  match file with
  | Some envContent => fold_left setIfMissing (envVars envContent) env
  | None => env
  end.

(** * Properties *)

(** ** Rate limiter *)

Section RateLimiterFacts.

Implicit Types (l : list Z) (rl : RateLimiter).

Lemma length_filter_mono (P Q : Z -> Prop)
  `{!forall x, Decision (P x)} `{!forall x, Decision (Q x)} l :
  (forall x, P x -> Q x) ->
  (length (filter P l) <= length (filter Q l))%nat.
Proof.
  intros HPQ. induction l as [|x l IH]; [done|].
  rewrite !filter_cons.
  destruct (decide (P x)) as [HP|HP], (decide (Q x)) as [HQ|HQ];
    simpl; try lia.
  exfalso; auto.
Qed.

Lemma filter_after_filter (x y : Z) l :
  y <= x ->
  filter (fun t => x < t) (filter (fun t => y < t) l)
  = filter (fun t => x < t) l.
Proof.
  intros Hxy. rewrite list_filter_filter.
  apply list_filter_iff. intros t. lia.
Qed.

Lemma canMakeRequest_rateLimit now rl :
  rateLimit (snd (canMakeRequest now rl)) = rateLimit rl.
Proof. reflexivity. Qed.

Lemma checkRateLimit_rateLimit now now' rl :
  rateLimit (snd (checkRateLimit now now' rl)) = rateLimit rl.
Proof.
  unfold checkRateLimit, canMakeRequest.
  by destruct (_ <? _).
Qed.

(** What a poll does, in terms of the pruned list. *)
Lemma checkRateLimit_cases now now' rl :
  let kept := filter (fun t => now - 1000 < t) (requestTimestamps rl) in
  (Z.of_nat (length kept) < rateLimit rl /\
   checkRateLimit now now' rl
   = (true, {| requestTimestamps := kept ++ [now'];
               rateLimit := rateLimit rl |}))
  \/
  (rateLimit rl <= Z.of_nat (length kept) /\
   checkRateLimit now now' rl
   = (false, {| requestTimestamps := kept; rateLimit := rateLimit rl |})).
Proof.
  unfold checkRateLimit, canMakeRequest, recordRequest. simpl.
  destruct (Z.ltb_spec
              (Z.of_nat (length (filter (fun t => now - 1000 < t)
                                   (requestTimestamps rl))))
              (rateLimit rl)); [left|right]; split; auto.
Qed.

(** Right after an admission the limiter holds at most [rateLimit]
    timestamps. *)
Lemma admission_bound now now' rl rl' :
  checkRateLimit now now' rl = (true, rl') ->
  Z.of_nat (length (requestTimestamps rl')) <= rateLimit rl'.
Proof.
  intros H.
  destruct (checkRateLimit_cases now now' rl) as [[Hlt E]|[_ E]];
    rewrite E in H; [|discriminate].
  injection H as <-. simpl. rewrite length_app. simpl. lia.
Qed.

Lemma runInvariant_poll lo now now' admitted rl :
  runInvariant lo admitted rl ->
  lo <= now -> now <= now' ->
  match checkRateLimit now now' rl with
  | (true, rl') => runInvariant now' (admitted ++ [now']) rl'
  | (false, rl') => runInvariant now' admitted rl'
  end.
Proof.
  intros [Hsync Hwin] Hlo Hnow.
  destruct (checkRateLimit_cases now now' rl) as [[Hlt E]|[Hge E]];
    rewrite E; clear E; split; simpl.
  - intros x Hx. rewrite !filter_app, filter_after_filter by lia.
    rewrite Hsync by lia. reflexivity.
  - intros w. unfold admittedIn. rewrite filter_app, length_app.
    rewrite filter_cons, filter_nil.
    destruct (decide (w <= now' /\ now' < w + 1000)) as [Hin|Hout]; simpl.
    + assert (le (length (filter (fun t => w <= t /\ t < w + 1000) admitted))
                (length (filter (fun t => now - 1000 < t)
                           (requestTimestamps rl)))) as Hle.
      { rewrite <- Hsync by lia.
        apply length_filter_mono. intros t. lia. }
      lia.
    + specialize (Hwin w). unfold admittedIn in Hwin. lia.
  - intros x Hx. rewrite filter_after_filter by lia. apply Hsync. lia.
  - exact Hwin.
Qed.

Lemma runPolls_invariant polls : forall lo admitted rl,
  runInvariant lo admitted rl ->
  chronological lo polls ->
  exists lo', runInvariant lo' (fst (runPolls polls admitted rl))
                (snd (runPolls polls admitted rl)).
Proof.
  induction polls as [|[now now'] rest IH]; intros lo admitted rl Hinv Hchr.
  - exists lo. exact Hinv.
  - destruct Hchr as (Hlo & Hnow & Hrest). simpl.
    pose proof (runInvariant_poll lo now now' admitted rl Hinv Hlo Hnow) as Hstep.
    destruct (checkRateLimit now now' rl) as [[|] rl']; eauto.
Qed.

Lemma runPolls_rateLimit polls : forall admitted rl,
  rateLimit (snd (runPolls polls admitted rl)) = rateLimit rl.
Proof.
  induction polls as [|[now now'] rest IH]; intros admitted rl; [done|].
  simpl. pose proof (checkRateLimit_rateLimit now now' rl) as Hrl.
  destruct (checkRateLimit now now' rl) as [[|] rl']; simpl in Hrl;
    rewrite IH; exact Hrl.
Qed.

(** A limiter with a positive limit grants within a bounded number of
    polls: once the clock is 1000ms past every timestamp held, the
    pruned list is empty. *)
Lemma filter_expired now bound l :
  Forall (fun t => t <= bound) l ->
  bound + 1000 <= now ->
  filter (fun t => now - 1000 < t) l = [].
Proof.
  intros Hbound Hnow. induction Hbound as [|t l Ht _ IHl]; [done|].
  rewrite filter_cons_False by lia. exact IHl.
Qed.

Lemma waitForRateLimit_grants env : forall fuel now rl bound,
  1 <= rateLimit rl ->
  Forall (fun t => t <= bound) (requestTimestamps rl) ->
  bound + 1000 - now <= 100 * Z.of_nat fuel ->
  exists granted rl',
    waitForRateLimit env (S fuel) now rl = Some (granted, rl') /\
    now <= granted /\
    rateLimit rl' = rateLimit rl /\
    (fst (canMakeRequest now rl) = false -> now + 100 <= granted).
Proof.
  induction fuel as [|fuel IH]; intros now rl bound Hpos Hbound Hfuel;
    cbn [waitForRateLimit];
    (destruct (checkRateLimit_cases now now rl) as [[Hlt E]|[Hge E]];
     rewrite E; clear E;
     [ eexists _, _; split; [reflexivity|]; split; [lia|]; split; [done|];
       unfold canMakeRequest; simpl; intros Hno;
       apply Z.ltb_ge in Hno; lia | ]).
  - rewrite (filter_expired now bound) in Hge by (auto; lia).
    simpl in Hge. lia.
  - destruct (IH (now + 100 + Z.of_N (lateness env now))
                {| requestTimestamps :=
                     filter (fun t => now - 1000 < t) (requestTimestamps rl);
                   rateLimit := rateLimit rl |} bound)
      as (granted & rl' & Hrun & Hle & Hrl & _).
    + exact Hpos.
    + simpl. apply Forall_forall. intros t Ht.
      apply list_elem_of_filter in Ht as [_ Ht].
      rewrite Forall_forall in Hbound. auto.
    + lia.
    + exists granted, rl'. split; [exact Hrun|]. split; [lia|].
      split; [exact Hrl|]. intros _. lia.
Qed.

(** Every list of timestamps has an upper bound. *)
Lemma timestamps_bounded l : exists bound, Forall (fun t => t <= bound) l.
Proof.
  induction l as [|t l [b Hb]].
  - exists 0. constructor.
  - exists (Z.max t b). constructor; [lia|].
    eapply Forall_impl; [exact Hb|]. simpl. intros. lia.
Qed.

Lemma waitForRateLimit_terminates env now rl :
  1 <= rateLimit rl ->
  exists fuel granted rl',
    waitForRateLimit env fuel now rl = Some (granted, rl') /\
    now <= granted /\
    (fst (canMakeRequest now rl) = false -> now + 100 <= granted).
Proof.
  intros Hpos. destruct (timestamps_bounded (requestTimestamps rl)) as [bound Hbound].
  destruct (waitForRateLimit_grants env (Z.to_nat (bound + 1000 - now))
              now rl bound Hpos Hbound)
    as (granted & rl' & Hrun & Hle & _ & Hdelay); [lia|].
  eauto 10.
Qed.

(** A grant comes no earlier than the call, from a limiter whose limit is
    at least 1, and leaves the limit as it was. *)
Lemma waitForRateLimit_granted env : forall fuel now rl granted rl',
  waitForRateLimit env fuel now rl = Some (granted, rl') ->
  now <= granted /\ 1 <= rateLimit rl /\ rateLimit rl' = rateLimit rl.
Proof.
  induction fuel as [|fuel IH]; intros now rl granted rl'; [discriminate|].
  simpl.
  destruct (checkRateLimit_cases now now rl) as [[Hlt E]|[Hge E]];
    rewrite E; clear E.
  - intros [= <- <-]. simpl. lia.
  - intros H. apply IH in H. simpl in H. lia.
Qed.

(** The limiter a grant leaves holds at most [rateLimit] timestamps. *)
Lemma waitForRateLimit_bound env : forall fuel now rl granted rl',
  waitForRateLimit env fuel now rl = Some (granted, rl') ->
  Z.of_nat (length (requestTimestamps rl')) <= rateLimit rl'.
Proof.
  induction fuel as [|fuel IH]; intros now rl granted rl'; [discriminate|].
  simpl. destruct (checkRateLimit now now rl) as [[|] rl1] eqn:E.
  - intros [= <- <-]. by apply (admission_bound now now rl).
  - apply IH.
Qed.

(** Runs of polls follow one another. *)
Lemma runPolls_app a : forall b admitted rl,
  runPolls (a ++ b) admitted rl
  = runPolls b (fst (runPolls a admitted rl)) (snd (runPolls a admitted rl)).
Proof.
  induction a as [|[now now'] a IH]; intros b admitted rl; [done|].
  simpl. destruct (checkRateLimit now now' rl) as [[|] rl1]; apply IH.
Qed.

Lemma chronological_weaken polls lo lo' :
  lo <= lo' -> chronological lo' polls -> chronological lo polls.
Proof.
  destruct polls as [|[now now'] rest]; simpl; [done|].
  intros Hle (Hlo & Hnow & Hrest). split; [lia|]. split; [lia|exact Hrest].
Qed.

Lemma chronological_app a : forall lo x b,
  chronological lo (a ++ [(x, x)]) -> chronological x b ->
  chronological lo (a ++ b).
Proof.
  induction a as [|[now now'] a IH]; intros lo x b; simpl.
  - intros (Hlo & _ & _). by apply chronological_weaken.
  - intros (Hlo & Hnow & Hrest) Hb. eauto.
Qed.

(** A wait that is granted is a run of polls of [checkRateLimit] on a
    clock that does not go back: polls that decline, 100ms or more apart,
    and a last one that admits the request at the instant of the grant and
    records it. *)
Lemma waitForRateLimit_polls env : forall fuel now rl granted rl',
  waitForRateLimit env fuel now rl = Some (granted, rl') ->
  exists declined,
    chronological now (declined ++ [(granted, granted)])
    /\ now + 100 * Z.of_nat (length declined) <= granted
    /\ (forall admitted,
          runPolls (declined ++ [(granted, granted)]) admitted rl
          = (admitted ++ [granted], rl'))
    /\ exists kept, requestTimestamps rl' = kept ++ [granted].
Proof.
  induction fuel as [|fuel IH]; intros now rl granted rl'; [discriminate|].
  simpl.
  destruct (checkRateLimit_cases now now rl) as [[Hlt E]|[Hge E]]; rewrite E.
  - intros [= <- <-]. exists []. simpl. rewrite E.
    split; [lia|]. split; [lia|]. split; [done|]. eauto.
  - intros Hwait. apply IH in Hwait as (declined & Hchr & Hlate & Hrun & Hrec).
    exists ((now, now) :: declined).
    split; [|split; [|split; [|exact Hrec]]].
    + simpl. split; [lia|]. split; [lia|].
      eapply chronological_weaken; [|exact Hchr]. lia.
    + cbn [length]. rewrite Nat2Z.inj_succ. lia.
    + intros admitted. simpl. rewrite E. apply Hrun.
Qed.

End RateLimiterFacts.

(** ** C5: the sliding one-second window *)

(** C5.  Right after a poll that grants a slot the limiter holds at most
    [rateLimit] timestamps, hence at most that many less than one second
    old.  A grant of [waitForRateLimit] is such a poll: the wait is a run of
    polls on a clock that does not go back, polls that decline, 100ms or
    more apart, and a last one that admits the request at the instant of
    the grant and records that instant in the limiter; the limiter the wait
    leaves holds at most [rateLimit] timestamps less than one second old.
    Over any run of polls from a new limiter, on a clock that does not go
    back, no window [[w, w + 1000)] holds more admitted requests than the
    limit (none is admitted when the limit is not positive); so the
    admission of a wait that comes after any such run leaves no window with
    more admissions than the limit.  A request in excess is not rejected:
    its poll is repeated 100ms or more later, and, waiting alone on a
    limiter with a limit of at least 1, it is granted after finitely many
    polls. *)
Theorem rate_limiter_window :
  (forall now now' rl rl',
     checkRateLimit now now' rl = (true, rl') ->
     Z.of_nat (length (requestTimestamps rl')) <= rateLimit rl' /\
     Z.of_nat (recent now' (requestTimestamps rl')) <= rateLimit rl')
  /\
  (forall env fuel now rl granted rl',
     waitForRateLimit env fuel now rl = Some (granted, rl') ->
     (exists declined,
        chronological now (declined ++ [(granted, granted)])
        /\ now + 100 * Z.of_nat (length declined) <= granted
        /\ forall admitted,
             runPolls (declined ++ [(granted, granted)]) admitted rl
             = (admitted ++ [granted], rl'))
     /\ (exists kept, requestTimestamps rl' = kept ++ [granted])
     /\ Z.of_nat (recent granted (requestTimestamps rl')) <= rateLimit rl')
  /\
  (forall config limit rl0 lo polls w,
     RateLimiter_new config limit = Normal rl0 ->
     chronological lo polls ->
     Z.of_nat (admittedIn w (fst (runPolls polls [] rl0)))
     <= Z.max 0 (rateLimit rl0))
  /\
  (forall config limit rl0 lo history env fuel now granted rl' w,
     RateLimiter_new config limit = Normal rl0 ->
     chronological lo (history ++ [(now, now)]) ->
     waitForRateLimit env fuel now (snd (runPolls history [] rl0))
     = Some (granted, rl') ->
     Z.of_nat (admittedIn w (fst (runPolls history [] rl0) ++ [granted]))
     <= rateLimit rl0)
  /\
  (forall env now rl,
     1 <= rateLimit rl ->
     exists fuel granted rl',
       waitForRateLimit env fuel now rl = Some (granted, rl') /\
       now <= granted /\
       (fst (canMakeRequest now rl) = false -> now + 100 <= granted)).
Proof.
  assert (forall config limit rl0 lo polls w,
            RateLimiter_new config limit = Normal rl0 ->
            chronological lo polls ->
            Z.of_nat (admittedIn w (fst (runPolls polls [] rl0)))
            <= Z.max 0 (rateLimit rl0)) as Hwindow.
  { intros config limit rl0 lo polls w Hnew Hchr.
    assert (requestTimestamps rl0 = []) as Hfresh.
    { unfold RateLimiter_new in Hnew. by injection Hnew as <-. }
    destruct (runPolls_invariant polls lo [] rl0) as (lo' & _ & Hwin).
    + split; [by rewrite Hfresh|]. intros w'. unfold admittedIn. simpl. lia.
    + exact Hchr.
    + rewrite runPolls_rateLimit in Hwin. apply Hwin. }
  split; [|split; [|split; [|split]]].
  - intros now now' rl rl' H.
    pose proof (admission_bound _ _ _ _ H) as Hlen. split; [exact Hlen|].
    unfold recent.
    pose proof (length_filter (fun t => now' - 1000 < t) (requestTimestamps rl')).
    lia.
  - intros env fuel now rl granted rl' H.
    destruct (waitForRateLimit_polls _ _ _ _ _ _ H)
      as (declined & Hchr & Hlate & Hrun & Hrec).
    split; [eauto|]. split; [exact Hrec|].
    pose proof (waitForRateLimit_bound _ _ _ _ _ _ H) as Hlen.
    unfold recent.
    pose proof (length_filter (fun t => granted - 1000 < t)
                  (requestTimestamps rl')).
    lia.
  - exact Hwindow.
  - intros config limit rl0 lo history env fuel now granted rl' w Hnew Hchr H.
    destruct (waitForRateLimit_polls _ _ _ _ _ _ H)
      as (declined & Hchr' & _ & Hrun & _).
    destruct (waitForRateLimit_granted _ _ _ _ _ _ H) as (_ & Hpos & _).
    rewrite runPolls_rateLimit in Hpos.
    pose proof (Hwindow config limit rl0 lo
                  (history ++ declined ++ [(granted, granted)]) w Hnew
                  (chronological_app _ _ _ _ Hchr Hchr')) as Hw.
    rewrite runPolls_app, Hrun in Hw. simpl in Hw. lia.
  - intros env now rl Hpos. by apply waitForRateLimit_terminates.
Qed.

Lemma rate_limiter_window_witness :
  checkRateLimit 5600 5601 busyLimiter
  = (true, {| requestTimestamps := [4900; 5601]; rateLimit := 2 |})
  /\ Z.of_nat (recent 5601 [4900; 5601]) <= 2
  /\ Z.of_nat
       (admittedIn 0
          (fst (runPolls [(0, 0); (10, 10); (20, 21); (1000, 1000)] []
                  {| requestTimestamps := []; rateLimit := 2 |})))
     <= 2
  /\ Z.of_nat
       (admittedIn 500
          (fst (runPolls [(0, 0); (10, 10)] []
                  {| requestTimestamps := []; rateLimit := 2 |}) ++ [1020]))
     <= 2
  /\ exists fuel granted rl',
       waitForRateLimit (answering okResponse) fuel 5000 busyLimiter
       = Some (granted, rl') /\ 5000 <= granted /\ 5100 <= granted.
Proof.
  destruct rate_limiter_window as (Hadm & _ & Hwin & Hafter & Hwait).
  split; [reflexivity|]. split.
  - exact (proj2 (Hadm 5600 5601 busyLimiter _ eq_refl)).
  - split; [|split].
    + assert (chronological 0 [(0, 0); (10, 10); (20, 21); (1000, 1000)])
        as Hchr by (simpl; lia).
      exact (Hwin sampleConfig (Some 2) _ 0 _ 0 eq_refl Hchr).
    + assert (chronological 0 ([(0, 0); (10, 10)] ++ [(20, 20)]))
        as Hchr by (simpl; lia).
      exact (Hafter sampleConfig (Some 2) _ 0 [(0, 0); (10, 10)]
               (answering okResponse) 11%nat 20 1020 _ 500 eq_refl Hchr
               eq_refl).
    + destruct (Hwait (answering okResponse) 5000 busyLimiter)
        as (fuel & granted & rl' & Hrun & Hle & Hdelay); [simpl; lia|].
      exists fuel, granted, rl'. split; [exact Hrun|]. split; [exact Hle|].
      apply Hdelay. reflexivity.
Defined.

(** ** C2: a limit of 0 or less *)

(** C2, as the code has it.  The constructor of [RateLimiter] never throws,
    whatever the limit, and keeps the limit it is given; a limiter whose
    limit is 0 or negative admits nothing: every poll declines and
    [waitForRateLimit] is still pending after any number of polls. *)
Theorem rate_limiter_nonpositive_limit :
  (forall config limit,
     RateLimiter_new config limit
     = Normal {| requestTimestamps := [];
                 rateLimit := default (API_RATE_LIMIT_PER_SECOND config) limit |})
  /\
  (forall rl, rateLimit rl <= 0 ->
     (forall now now', fst (checkRateLimit now now' rl) = false) /\
     (forall env fuel now, waitForRateLimit env fuel now rl = None)).
Proof.
  split.
  - intros config [n|]; reflexivity.
  - intros rl Hrl.
    assert (forall now now' rl, rateLimit rl <= 0 ->
              fst (checkRateLimit now now' rl) = false) as Hpoll.
    { clear. intros now now' rl Hrl.
      destruct (checkRateLimit_cases now now' rl) as [[Hlt E]|[_ E]];
        rewrite E; [lia|reflexivity]. }
    split; [intros; by apply Hpoll|].
    intros env fuel. revert rl Hrl.
    induction fuel as [|fuel IH]; intros rl Hrl now; [reflexivity|].
    simpl. pose proof (Hpoll now now rl Hrl) as Hno.
    pose proof (checkRateLimit_rateLimit now now rl) as Hkeep.
    destruct (checkRateLimit now now rl) as [[|] rl1]; [discriminate|].
    apply IH. simpl in Hkeep. lia.
Qed.

Lemma rate_limiter_nonpositive_limit_witness :
  rateLimit {| requestTimestamps := []; rateLimit := 0 |} <= 0
  /\ fst (checkRateLimit 5000 5000
            {| requestTimestamps := []; rateLimit := 0 |}) = false
  /\ waitForRateLimit unreachable 40 5000
       {| requestTimestamps := []; rateLimit := 0 |} = None.
Proof.
  destruct rate_limiter_nonpositive_limit as [_ H].
  assert (rateLimit {| requestTimestamps := []; rateLimit := 0 |} <= 0)
    as Hrl by (simpl; lia).
  destruct (H _ Hrl) as [Hpoll Hwait].
  split; [exact Hrl|]. split; [apply Hpoll|apply Hwait].
Defined.

(** C2 as stated fails: a limiter is constructed with limit 0, and with a
    negative limit. *)
Lemma rate_limiter_zero_limit_constructed :
  threw (RateLimiter_new sampleConfig (Some 0)) = false
  /\ threw (RateLimiter_new sampleConfig (Some (-3))) = false
  /\ RateLimiter_new sampleConfig (Some 0)
     = Normal {| requestTimestamps := []; rateLimit := 0 |}.
Proof. repeat split. Qed.

(** ** C3: the client needs a credential *)

(** C3.  With no key given and none configured, and also with an empty
    key, the constructor throws; so does the initialisation of the module,
    which yields neither a world nor a client.  The constructor touches no
    world, and a client it returns has a non-empty key. *)
Theorem client_requires_credential :
  (forall config,
     SEMRUSH_API_KEY config = None ->
     SemrushApiClient_new config None
     = Throw {| error_message := "Semrush API key is required" |}
     /\ forall now,
         initialise config now
         = Throw {| error_message := "Semrush API key is required" |})
  /\
  (forall config,
     SemrushApiClient_new config (Some "")
     = Throw {| error_message := "Semrush API key is required" |})
  /\
  (forall config key client,
     SemrushApiClient_new config key = Normal client ->
     apiKey client <> ""
     /\ (key = Some (apiKey client)
         \/ key = None /\ SEMRUSH_API_KEY config = Some (apiKey client))).
Proof.
  split; [|split].
  - intros config Hkey. unfold initialise, SemrushApiClient_new.
    rewrite Hkey. simpl. auto.
  - reflexivity.
  - intros config key client. unfold SemrushApiClient_new.
    destruct key as [k|]; [|destruct (SEMRUSH_API_KEY config) as [k|] eqn:Hk];
      try discriminate;
      (destruct (String.eqb_spec k ""); [discriminate|]);
      intros [= <-]; simpl; auto.
Qed.

Lemma client_requires_credential_witness :
  SEMRUSH_API_KEY keylessConfig = None
  /\ SemrushApiClient_new keylessConfig None
     = Throw {| error_message := "Semrush API key is required" |}
  /\ initialise keylessConfig 0
     = Throw {| error_message := "Semrush API key is required" |}
  /\ apiKey {| apiKey := "secret" |} <> "".
Proof.
  destruct client_requires_credential as (Hnone & _ & Hsome).
  destruct (Hnone keylessConfig eq_refl) as [Hnew Hinit].
  split; [reflexivity|]. split; [exact Hnew|]. split; [apply Hinit|].
  apply (Hsome sampleConfig None {| apiKey := "secret" |}). reflexivity.
Defined.

(** ** The request path *)

Section MakeRequestFacts.

Variable env : Env.
Variable this : SemrushApiClient.
Variable url : string.
Variable ps : ApiQueryParams.
Variable options : AxiosRequestConfig.

Local Abbreviation key := (cacheKey this url ps).
Local Abbreviation req := (axiosRequest url (requestParams this ps) options).
Local Abbreviation afterExchange := (afterExchange env req).
Local Abbreviation afterStore := (afterStore env key req).

Lemma makeRequest_hit fuel w cached :
  NodeCache_get key (clock w) (apiCache w) = Some cached ->
  makeRequest env fuel this url ps options w = Some (Normal cached, w).
Proof. unfold makeRequest. by intros ->. Qed.

Lemma makeRequest_miss fuel w granted rl :
  NodeCache_get key (clock w) (apiCache w) = None ->
  waitForRateLimit env fuel (clock w) (rateLimiter w) = Some (granted, rl) ->
  makeRequest env fuel this url ps options w
  = Some
      match axios req (upstream env (length (network w)) req) with
      | Resolved r =>
          (Normal {| data := response_data r; status := response_status r;
                     headers := response_headers r |},
           afterStore w granted rl r)
      | RejectedAxios error =>
          (Throw (fromAxiosError error), afterExchange w granted rl)
      | RejectedOther error =>
          (Throw {| err_message := error_message error; err_status := 500;
                    err_response := None |},
           afterExchange w granted rl)
      end.
Proof.
  intros Hmiss Hwait. unfold makeRequest.
  rewrite Hmiss, Hwait.
  by destruct (axios req (upstream env (length (network w)) req)).
Qed.

(** A call that ends at all either was a hit, or missed, was granted a
    slot and made its exchange. *)
Lemma makeRequest_inv fuel w out w1 :
  makeRequest env fuel this url ps options w = Some (out, w1) ->
  (exists cached,
     NodeCache_get key (clock w) (apiCache w) = Some cached /\
     out = Normal cached /\ w1 = w)
  \/
  (exists granted rl,
     NodeCache_get key (clock w) (apiCache w) = None /\
     waitForRateLimit env fuel (clock w) (rateLimiter w) = Some (granted, rl) /\
     ((exists r, out = Normal {| data := response_data r;
                                 status := response_status r;
                                 headers := response_headers r |} /\
                 w1 = afterStore w granted rl r)
      \/ (exists e, out = Throw e /\ w1 = afterExchange w granted rl))).
Proof.
  destruct (NodeCache_get key (clock w) (apiCache w)) as [cached|] eqn:Hget.
  - rewrite (makeRequest_hit fuel w cached Hget). intros [= <- <-]. eauto.
  - destruct (waitForRateLimit env fuel (clock w) (rateLimiter w))
      as [[granted rl]|] eqn:Hwait.
    + rewrite (makeRequest_miss fuel w granted rl Hget Hwait).
      intros H. right. exists granted, rl. split; [done|]. split; [done|].
      destruct (axios req (upstream env (length (network w)) req));
        injection H as <- <-; eauto.
    + unfold makeRequest. rewrite Hget, Hwait. discriminate.
Qed.

End MakeRequestFacts.

(** An entry that is expired stays expired. *)
Lemma NodeCache_get_None_later key now now' c :
  NodeCache_get key now c = None -> now <= now' ->
  NodeCache_get key now' c = None.
Proof.
  unfold NodeCache_get. destruct (entries c !! key) as [e|]; [|done].
  destruct (t e =? 0) eqn:Hz; simpl; [discriminate|].
  destruct (Z.ltb_spec (t e) now); [|discriminate].
  intros _ Hle. destruct (Z.ltb_spec (t e) now'); [done|lia].
Qed.

Lemma NodeCache_get_set key value now c :
  entries (NodeCache_set key value now c) !! key
  = Some {| t := if stdTTL c =? 0 then 0 else now + stdTTL c * 1000;
            v := value |}.
Proof. unfold NodeCache_set. simpl. apply lookup_insert_eq. Qed.

(** ** C1: what a response leads to *)

(** The response an exchange ends with is never a redirection that the
    library follows. *)
Lemma followRedirects_final hop : forall budget h r,
  followRedirects hop budget h = HttpResponse r -> isRedirect r = false.
Proof.
  induction budget as [|budget IH]; intros h r; simpl;
    destruct (hop h) as [r0|m|m]; try discriminate;
    destruct (isRedirect r0) eqn:E; try discriminate; eauto;
    by intros [= <-].
Qed.

(** C1, as the code has it.  Take a call that misses the cache, is granted
    a slot and whose HTTP exchange ends with a response.  That response is
    never a redirection with a [location]: the library follows such a
    response by itself, and the exchange ends as the hops after it do.
    axios resolves the response when its status passes [validateStatus]
    (with the default options: 200 to 299); the call then succeeds: status,
    headers and body are wrapped, stored in the cache under the computed key
    and returned.  axios rejects a response of any other status, whatever
    its body; the call then fails with a [SemrushApiError] that carries the
    status and the body, and the cache is left as it was. *)
Theorem response_outcome env fuel this url ps options w granted rl r :
  let key := cacheKey this url ps in
  let req := axiosRequest url (requestParams this ps) options in
  let envelope :=
    {| data := response_data r; status := response_status r;
       headers := response_headers r |} in
  NodeCache_get key (clock w) (apiCache w) = None ->
  waitForRateLimit env fuel (clock w) (rateLimiter w) = Some (granted, rl) ->
  upstream env (length (network w)) req = HttpResponse r ->
  (forall budget, maxRedirects env = S budget ->
     isRedirect r = false
     /\ forall r0,
          wire env (length (network w)) 0 req = HttpResponse r0 ->
          isRedirect r0 = true ->
          followRedirects (fun h => wire env (length (network w)) h req)
            budget 1
          = HttpResponse r)
  /\ (opt_validateStatus options = None ->
      forall s, validateStatus req s = (200 <=? s) && (s <? 300))
  /\ ((response_status r =? 0) || validateStatus req (response_status r) = true ->
      makeRequest env fuel this url ps options w
      = Some (Normal envelope, afterStore env key req w granted rl r)
      /\ v <$> entries (apiCache (afterStore env key req w granted rl r)) !! key
         = Some envelope)
  /\ ((response_status r =? 0) || validateStatus req (response_status r) = false ->
      exists e,
        makeRequest env fuel this url ps options w
        = Some (Throw e, afterExchange env req w granted rl)
        /\ err_status e = response_status r
        /\ err_response e = Some (response_data r)
        /\ apiCache (afterExchange env req w granted rl) = apiCache w).
Proof.
  intros key req envelope Hmiss Hwait Hup. subst key req envelope.
  pose proof (makeRequest_miss env this url ps options fuel w granted rl
                Hmiss Hwait) as Hrun.
  rewrite Hup in Hrun. unfold axios in Hrun.
  split; [|split; [|split]].
  - intros budget Hmax. unfold upstream in Hup. rewrite Hmax in Hup.
    split; [by apply followRedirects_final in Hup|].
    intros r0 Hfirst Hmoved. simpl in Hup.
    by rewrite Hfirst, Hmoved in Hup.
  - intros Hopt s. unfold axiosRequest. rewrite Hopt. reflexivity.
  - intros Hok. rewrite Hok in Hrun. split; [exact Hrun|].
    unfold afterStore, NodeCache_set. simpl. by rewrite lookup_insert_eq.
  - intros Hno. rewrite Hno in Hrun.
    eexists. split; [exact Hrun|].
    apply orb_false_iff in Hno as [Hz _].
    unfold fromAxiosError. simpl. rewrite Hz. auto.
Qed.

Lemma response_outcome_witness :
  isRedirect movedResponse = true
  /\ makeRequest (redirecting okResponse) 1 sampleClient SEMRUSH_API_BASE_URL
       [("type", PStr "api_units")] noOptions freshWorld
     = Some (Normal {| data := JStr "Ph;Nq"; status := 200;
                       headers := [("content-type", "text/plain")] |},
             afterStore (redirecting okResponse)
               (cacheKey sampleClient SEMRUSH_API_BASE_URL
                  [("type", PStr "api_units")])
               (axiosRequest SEMRUSH_API_BASE_URL
                  (requestParams sampleClient [("type", PStr "api_units")])
                  noOptions)
               freshWorld 1000000
               {| requestTimestamps := [1000000]; rateLimit := 10 |} okResponse).
Proof.
  split; [reflexivity|].
  refine (proj1 (proj1 (proj2 (proj2
    (response_outcome (redirecting okResponse) 1 sampleClient
       SEMRUSH_API_BASE_URL [("type", PStr "api_units")] noOptions freshWorld
       1000000 {| requestTimestamps := [1000000]; rateLimit := 10 |}
       okResponse _ _ _))) _)); reflexivity.
Defined.

(** C1 as stated fails: the upstream answers with status 404 and an HTML
    body, no structured error data; the call does not succeed and nothing
    is stored. *)
Lemma error_page_is_not_a_success :
  makeRequest (answering notFoundResponse) 1 sampleClient SEMRUSH_API_BASE_URL
    [("type", PStr "api_units")] noOptions freshWorld
  = Some (Throw {| err_message := "Request failed with status code 404";
                   err_status := 404;
                   err_response := Some (JStr "<html>Not Found</html>") |},
          {| clock := 1000050;
             apiCache := NodeCache_new 300;
             rateLimiter := {| requestTimestamps := [1000000]; rateLimit := 10 |};
             network :=
               [axiosRequest SEMRUSH_API_BASE_URL
                  [("type", PStr "api_units"); ("key", PStr "secret")]
                  noOptions] |}).
Proof. reflexivity. Qed.

(** ** C8: the error surfaced *)

(** The message axios gives the error of a rejected response. *)
Lemma fromAxiosError_message (error : AxiosError) :
  (forall r m,
     response error = Some r ->
     nestedErrorMessage (response_data r) = Some (JStr m) -> m <> "" ->
     err_message (fromAxiosError error) = m)
  /\ ((forall r, response error = Some r ->
                 truthy (nestedErrorMessage (response_data r)) = false) ->
      err_message (fromAxiosError error) = message error).
Proof.
  unfold fromAxiosError. split.
  - intros r m -> Hnested Hm. simpl. rewrite Hnested. simpl.
    by destruct (String.eqb_spec m "").
  - intros Hfalsy. destruct (response error) as [r|]; [|done].
    specialize (Hfalsy r eq_refl). cbn [mbind option_bind].
    destruct (nestedErrorMessage (response_data r)) as [m|]; [|done].
    by rewrite Hfalsy.
Qed.

(** C8.  Take a call that misses the cache and is granted a slot.  When the
    upstream answers with a status axios rejects, the call fails with a
    [SemrushApiError] whose status is the upstream status and whose payload
    is the body; its message is the nested [error.message] of the body when
    that is a non-empty string, and the message of the axios error when the
    body has no such field or a falsy one.  When no response arrives, the
    call fails with status 500, the message of the failure and no payload.
    A 403 with body [{error:{message:"Access denied"}}] surfaces with that
    message and status 403. *)
Theorem error_normalisation env fuel this url ps options w granted rl :
  let req := axiosRequest url (requestParams this ps) options in
  NodeCache_get (cacheKey this url ps) (clock w) (apiCache w) = None ->
  waitForRateLimit env fuel (clock w) (rateLimiter w) = Some (granted, rl) ->
  (forall r,
     upstream env (length (network w)) req = HttpResponse r ->
     (response_status r =? 0) || validateStatus req (response_status r) = false ->
     exists e,
       makeRequest env fuel this url ps options w
       = Some (Throw e, afterExchange env req w granted rl)
       /\ err_status e = response_status r
       /\ err_response e = Some (response_data r)
       /\ (forall m, nestedErrorMessage (response_data r) = Some (JStr m) ->
                     m <> "" -> err_message e = m)
       /\ (truthy (nestedErrorMessage (response_data r)) = false ->
           err_message e
           = "Request failed with status code " +:+ pretty (response_status r)))
  /\ (forall m,
        upstream env (length (network w)) req = NoResponse m ->
        makeRequest env fuel this url ps options w
        = Some (Throw {| err_message := m; err_status := 500;
                         err_response := None |},
                afterExchange env req w granted rl))
  /\ fst <$> makeRequest (answering deniedResponse) 1 sampleClient
               SEMRUSH_API_BASE_URL [("type", PStr "api_units")] noOptions
               freshWorld
     = Some (Throw {| err_message := "Access denied"; err_status := 403;
                      err_response := Some (response_data deniedResponse) |}).
Proof.
  intros req Hmiss Hwait. subst req.
  pose proof (makeRequest_miss env this url ps options fuel w granted rl
                Hmiss Hwait) as Hrun.
  split; [|split].
  - intros r Hup Hno. rewrite Hup in Hrun. unfold axios in Hrun.
    rewrite Hno in Hrun. eexists. split; [exact Hrun|].
    apply orb_false_iff in Hno as [Hz _].
    match goal with
    | |- context [fromAxiosError ?err] =>
        destruct (fromAxiosError_message err) as [Hnested Hfallback]
    end.
    split; [unfold fromAxiosError; simpl; by rewrite Hz|].
    split; [reflexivity|]. split.
    + intros m Hm Hne. by apply (Hnested r m).
    + intros Hfalsy. rewrite Hfallback; [reflexivity|].
      by intros r' [= <-].
  - intros m Hup. rewrite Hup in Hrun. exact Hrun.
  - reflexivity.
Qed.

Lemma error_normalisation_witness :
  makeRequest unreachable 1 sampleClient SEMRUSH_API_BASE_URL
    [("type", PStr "api_units")] noOptions freshWorld
  = Some (Throw {| err_message := "connect ECONNREFUSED 10.0.0.1:443";
                   err_status := 500; err_response := None |},
          afterExchange unreachable
            (axiosRequest SEMRUSH_API_BASE_URL
               (requestParams sampleClient [("type", PStr "api_units")])
               noOptions)
            freshWorld 1000000
            {| requestTimestamps := [1000000]; rateLimit := 10 |}).
Proof.
  refine (proj1 (proj2
    (error_normalisation unreachable 1 sampleClient SEMRUSH_API_BASE_URL
       [("type", PStr "api_units")] noOptions freshWorld 1000000
       {| requestTimestamps := [1000000]; rateLimit := 10 |} _ _)) _ _);
    reflexivity.
Defined.

(** ** C7: errors are not cached *)

(** C7.  A call that fails leaves the cache as it was, so the computed key
    still has no live entry; the same call made again, at once or later in
    a world with that cache and limit, is granted a slot after finitely many
    polls and makes a new exchange with the upstream. *)
Theorem errors_not_cached env fuel this url ps options w e w1 :
  let key := cacheKey this url ps in
  let req := axiosRequest url (requestParams this ps) options in
  makeRequest env fuel this url ps options w = Some (Throw e, w1) ->
  apiCache w1 = apiCache w
  /\ NodeCache_get key (clock w1) (apiCache w1) = None
  /\ forall env' w2,
       apiCache w2 = apiCache w1 ->
       clock w1 <= clock w2 ->
       rateLimit (rateLimiter w2) = rateLimit (rateLimiter w1) ->
       exists fuel' out w3,
         makeRequest env' fuel' this url ps options w2 = Some (out, w3)
         /\ network w3 = network w2 ++ [req].
Proof.
  intros key req Hrun. subst key req.
  apply makeRequest_inv in Hrun
    as [(cached & _ & Hout & _)|(granted & rl & Hmiss & Hwait & Hend)];
    [discriminate|].
  destruct Hend as [(r & Hout & _)|(e' & _ & ->)]; [discriminate|].
  destruct (waitForRateLimit_granted _ _ _ _ _ _ Hwait) as (Hle & Hpos & Hrl).
  assert (NodeCache_get (cacheKey this url ps)
            (clock (afterExchange env
                      (axiosRequest url (requestParams this ps) options)
                      w granted rl))
            (apiCache w) = None) as Hstill.
  { apply (NodeCache_get_None_later _ (clock w)); [exact Hmiss|]. simpl. lia. }
  split; [reflexivity|]. split; [exact Hstill|].
  intros env' w2 Hcache Hclock Hlimit. simpl in Hcache, Hlimit.
  destruct (waitForRateLimit_terminates env' (clock w2) (rateLimiter w2))
    as (fuel' & granted' & rl' & Hwait' & _); [lia|].
  assert (NodeCache_get (cacheKey this url ps) (clock w2) (apiCache w2) = None)
    as Hmiss'.
  { rewrite Hcache. by apply (NodeCache_get_None_later _ _ _ _ Hstill). }
  pose proof (makeRequest_miss env' this url ps options fuel' w2 granted' rl'
                Hmiss' Hwait') as Hrun'.
  destruct (axios _ _) in Hrun'; eauto.
Qed.

Lemma errors_not_cached_witness :
  apiCache (afterExchange (answering notFoundResponse)
              (axiosRequest SEMRUSH_API_BASE_URL
                 [("type", PStr "api_units"); ("key", PStr "secret")] noOptions)
              freshWorld 1000000
              {| requestTimestamps := [1000000]; rateLimit := 10 |})
  = apiCache freshWorld.
Proof.
  refine (proj1
    (errors_not_cached (answering notFoundResponse) 1 sampleClient
       SEMRUSH_API_BASE_URL [("type", PStr "api_units")] noOptions freshWorld
       {| err_message := "Request failed with status code 404";
          err_status := 404;
          err_response := Some (JStr "<html>Not Found</html>") |}
       _ _)).
  reflexivity.
Defined.

(** ** The operations as calls of [makeRequest] *)

Lemma assoc_obj_set name value (obj : ApiQueryParams) :
  assoc name (obj_set name value obj) = Some value.
Proof.
  induction obj as [|[k old] rest IH]; simpl.
  - by rewrite String.eqb_refl.
  - destruct (String.eqb k name) eqn:E; simpl; rewrite E; auto.
Qed.

Lemma assoc_obj_set_ne name name' value (obj : ApiQueryParams) :
  name <> name' ->
  assoc name' (obj_set name value obj) = assoc name' obj.
Proof.
  intros Hne. induction obj as [|[k old] rest IH]; simpl.
  - by destruct (String.eqb_spec name name').
  - destruct (String.eqb_spec k name) as [->|Hk]; simpl.
    + by destruct (String.eqb_spec name name').
    + by rewrite IH.
Qed.

Lemma assoc_setDisplayLimit name limit (obj : ApiQueryParams) :
  name <> "display_limit" ->
  assoc name (setDisplayLimit limit obj) = assoc name obj.
Proof.
  intros Hne. unfold setDisplayLimit.
  destruct limit as [n|]; [|done]. destruct (n =? 0); [done|].
  by apply assoc_obj_set_ne.
Qed.

(** The [display_limit] property a call sets: none without a limit
    argument, none for a limit that is [undefined] or 0. *)
Lemma assoc_display_limit limit (obj : ApiQueryParams) :
  assoc "display_limit" obj = None ->
  assoc "display_limit" (setDisplayLimit limit obj)
  = match limit with
    | Some n => if n =? 0 then None else Some (PNum n)
    | None => None
    end.
Proof.
  intros Hobj. unfold setDisplayLimit.
  destruct limit as [n|]; [|done]. destruct (n =? 0); [done|].
  apply assoc_obj_set.
Qed.

(** Every operation is one call of [makeRequest], with the default
    options and parameters that have no [key] property of their own. *)
Lemma invoke_makeRequest op :
  exists url ps,
    assoc "key" ps = None /\
    assoc "display_limit" ps
    = match limitArgument op with
      | Some (Some n) => if n =? 0 then None else Some (PNum n)
      | _ => None
      end /\
    forall env fuel this,
      invoke env fuel this op = makeRequest env fuel this url ps noOptions.
Proof.
  destruct op; eexists _, _; (split; [|split; [|reflexivity]]);
    rewrite ?assoc_setDisplayLimit by discriminate;
    rewrite ?assoc_display_limit by reflexivity; reflexivity.
Qed.

(** A call either leaves the record of requests alone or adds its one
    request; with an empty cache and a limit of at least 1 it ends, given
    enough fuel, and has added its request. *)
Lemma makeRequest_request env fuel this url ps options w out w1 :
  makeRequest env fuel this url ps options w = Some (out, w1) ->
  network w1 = network w
  \/ network w1
     = network w ++ [axiosRequest url (requestParams this ps) options].
Proof.
  intros Hrun. apply makeRequest_inv in Hrun
    as [(cached & _ & _ & ->)|(granted & rl & _ & _ & Hend)]; [by left|].
  right. by destruct Hend as [(r & _ & ->)|(e & _ & ->)].
Qed.

Lemma makeRequest_fetches env this url ps options w :
  entries (apiCache w) = ∅ ->
  1 <= rateLimit (rateLimiter w) ->
  exists fuel out w1,
    makeRequest env fuel this url ps options w = Some (out, w1) /\
    network w1
    = network w ++ [axiosRequest url (requestParams this ps) options].
Proof.
  intros Hempty Hpos.
  destruct (waitForRateLimit_terminates env (clock w) (rateLimiter w) Hpos)
    as (fuel & granted & rl & Hwait & _).
  assert (NodeCache_get (cacheKey this url ps) (clock w) (apiCache w) = None)
    as Hmiss.
  { unfold NodeCache_get. by rewrite Hempty, lookup_empty. }
  pose proof (makeRequest_miss env this url ps options fuel w granted rl
                Hmiss Hwait) as Hrun.
  exists fuel. destruct (axios _ _) in Hrun; eauto.
Qed.

(** Serialisation of an object whose last property is a string. *)
Lemma append_assoc (a b c : string) : (a +:+ b) +:+ c = a +:+ (b +:+ c).
Proof.
  induction a as [|x a IH]; [done|].
  change (String x ((a +:+ b) +:+ c) = String x (a +:+ (b +:+ c))).
  by rewrite IH.
Qed.

Lemma concat_snoc sep (l : list string) x :
  exists pre, String.concat sep (l ++ [x]) = pre +:+ x.
Proof.
  induction l as [|y l [pre IH]].
  - by exists "".
  - exists (y +:+ sep +:+ pre). simpl.
    destruct (l ++ [x]) as [|z rest] eqn:E.
    + by destruct l.
    + rewrite IH. by rewrite !append_assoc.
Qed.

Lemma obj_set_fresh name value (obj : ApiQueryParams) :
  assoc name obj = None -> obj_set name value obj = obj ++ [(name, value)].
Proof.
  induction obj as [|[k old] rest IH]; simpl; [done|].
  destruct (String.eqb k name); [discriminate|].
  intros H. by rewrite IH.
Qed.

Lemma JSON_stringify_key this (ps : ApiQueryParams) :
  assoc "key" ps = None ->
  exists pre,
    JSON_stringify (requestParams this ps)
    = pre +:+ (quoteJSONString "key" +:+ ":" +:+
               quoteJSONString (apiKey this) +:+ "}").
Proof.
  intros Hfresh. unfold JSON_stringify, requestParams.
  rewrite obj_set_fresh by done. rewrite omap_app. simpl.
  destruct (concat_snoc "," (omap stringifyProperty ps)
              (quoteJSONString "key" +:+ ":" +:+ quoteJSONString (apiKey this)))
    as [pre ->].
  exists ("{" +:+ pre). by rewrite !append_assoc.
Qed.

(** ** C6: a repeated call is answered from the cache *)

(** C6.  After a call of an operation has returned an envelope, the cache
    holds it, under one key, in an entry; every later call of the same
    operation with the same arguments, in any world whose cache still has
    that entry and whose clock is not past its expiry, returns that very
    envelope and leaves the world as it is: no request is issued and the
    rate limiter is neither polled (no fuel is needed) nor changed.  When
    the first call fetched the envelope, the expiry is the standard TTL
    after its arrival. *)
Theorem repeated_call_served_from_cache env fuel this op w r w1 :
  invoke env fuel this op w = Some (Normal r, w1) ->
  (exists key e,
     entries (apiCache w1) !! key = Some e /\ v e = r /\
     forall env' fuel' w2,
       entries (apiCache w2) !! key = Some e ->
       t e = 0 \/ clock w2 <= t e ->
       invoke env' fuel' this op w2 = Some (Normal r, w2))
  /\
  (network w1 <> network w ->
   forall env' fuel' w2,
     apiCache w2 = apiCache w1 ->
     stdTTL (apiCache w1) = 0
     \/ clock w2 <= clock w1 + stdTTL (apiCache w1) * 1000 ->
     invoke env' fuel' this op w2 = Some (Normal r, w2)).
Proof.
  destruct (invoke_makeRequest op) as (url & ps & _ & _ & Hop).
  rewrite Hop. intros Hrun.
  assert (forall e w2 env' fuel',
            entries (apiCache w2) !! cacheKey this url ps = Some e ->
            v e = r -> t e = 0 \/ clock w2 <= t e ->
            invoke env' fuel' this op w2 = Some (Normal r, w2)) as Hhit.
  { intros e w2 env' fuel' He Hv Hlive. rewrite Hop.
    apply makeRequest_hit. unfold NodeCache_get. rewrite He, Hv.
    destruct Hlive as [->|Hle]; [reflexivity|].
    destruct (Z.ltb_spec (t e) (clock w2)); [lia|].
    by rewrite andb_false_r. }
  apply makeRequest_inv in Hrun
    as [(cached & Hget & [= <-] & ->)|(granted & rl & Hmiss & Hwait & Hend)].
  - unfold NodeCache_get in Hget.
    destruct (entries (apiCache w) !! cacheKey this url ps) as [e|] eqn:He;
      [|discriminate].
    assert (v e = r) as Hv.
    { destruct (negb (t e =? 0) && (t e <? clock w)); congruence. }
    split; [|done].
    exists (cacheKey this url ps), e. split; [exact He|]. split; [exact Hv|].
    intros env' fuel' w2 He2 Hlive. by apply (Hhit e).
  - destruct Hend as [(r0 & [= ->] & ->)|(e & Hout & _)]; [|discriminate].
    pose proof (NodeCache_get_set (cacheKey this url ps)
                  {| data := response_data r0; status := response_status r0;
                     headers := response_headers r0 |}
                  (granted + Z.of_N (duration env (length (network w))))
                  (apiCache w)) as Hstored.
    split.
    + eexists _, _. split; [exact Hstored|]. split; [reflexivity|].
      intros env' fuel' w2 He2 Hlive. eapply Hhit; [exact He2|done|done].
    + intros _ env' fuel' w2 Hcache Hlive.
      eapply Hhit; [rewrite Hcache; exact Hstored|done|].
      simpl in Hlive |- *.
      destruct (Z.eqb_spec (stdTTL (apiCache w)) 0); [by left|].
      destruct Hlive; [done|by right].
Qed.

Lemma repeated_call_served_from_cache_witness :
  invoke (answering okResponse) 1 sampleClient ApiUnitsBalance freshWorld
  = Some (Normal {| data := JStr "Ph;Nq"; status := 200;
                    headers := [("content-type", "text/plain")] |},
          storedWorld)
  /\ invoke unreachable 0 sampleClient ApiUnitsBalance laterWorld
     = Some (Normal {| data := JStr "Ph;Nq"; status := 200;
                       headers := [("content-type", "text/plain")] |},
             laterWorld).
Proof.
  assert (invoke (answering okResponse) 1 sampleClient ApiUnitsBalance freshWorld
          = Some (Normal {| data := JStr "Ph;Nq"; status := 200;
                            headers := [("content-type", "text/plain")] |},
                  storedWorld)) as Hfirst by reflexivity.
  split; [exact Hfirst|].
  apply (proj2 (repeated_call_served_from_cache _ _ _ _ _ _ _ Hfirst)).
  - discriminate.
  - reflexivity.
  - right. simpl. lia.
Defined.

(** ** C4: the credential in every request *)

(** C4.  Every call of an operation that ends has one request [req], whose
    parameters have the configured key as their [key] property and whose
    serialisation ends with that property.  The cache key of the call is
    the URL, a colon and the serialised parameters: the call either found a
    live entry under it and returned its value, or found none, issued [req]
    and, on success, stored the envelope under it.  With an empty cache and
    a limit of at least 1 the call ends and issues such a request. *)
Theorem credential_in_every_request this op :
  exists req,
    assoc "key" (params req) = Some (PStr (apiKey this))
    /\ (exists pre,
          JSON_stringify (params req)
          = pre +:+ (quoteJSONString "key" +:+ ":" +:+
                     quoteJSONString (apiKey this) +:+ "}"))
    /\ (forall env fuel w out w1,
          invoke env fuel this op w = Some (out, w1) ->
          let key := url req +:+ ":" +:+ JSON_stringify (params req) in
          (exists cached,
             NodeCache_get key (clock w) (apiCache w) = Some cached /\
             out = Normal cached /\ w1 = w)
          \/ (NodeCache_get key (clock w) (apiCache w) = None /\
              network w1 = network w ++ [req] /\
              forall r, out = Normal r ->
                        v <$> entries (apiCache w1) !! key = Some r))
    /\ (forall env w,
          entries (apiCache w) = ∅ -> 1 <= rateLimit (rateLimiter w) ->
          exists fuel out w1,
            invoke env fuel this op w = Some (out, w1) /\
            network w1 = network w ++ [req]).
Proof.
  destruct (invoke_makeRequest op) as (url & ps & Hfresh & _ & Hop).
  exists (axiosRequest url (requestParams this ps) noOptions).
  split; [apply assoc_obj_set|].
  split; [by apply JSON_stringify_key|].
  split.
  - intros env fuel w out w1. rewrite Hop. intros Hrun. simpl.
    apply makeRequest_inv in Hrun
      as [(cached & Hget & -> & ->)|(granted & rl & Hmiss & _ & Hend)].
    + left. exists cached. auto.
    + right. split; [exact Hmiss|].
      destruct Hend as [(r & -> & ->)|(e & -> & ->)].
      * split; [reflexivity|]. intros r' [= <-].
        unfold afterStore, NodeCache_set. simpl.
        by rewrite lookup_insert_eq.
      * split; [reflexivity|]. discriminate.
  - intros env w Hempty Hpos.
    destruct (makeRequest_fetches env this url ps noOptions w Hempty Hpos)
      as (fuel & out & w1 & Hrun & Hnet).
    exists fuel, out, w1. by rewrite Hop.
Qed.

Lemma credential_in_every_request_witness :
  exists req fuel out w1,
    assoc "key" (params req) = Some (PStr "secret")
    /\ invoke (answering okResponse) fuel sampleClient ApiUnitsBalance freshWorld
       = Some (out, w1)
    /\ network w1 = network freshWorld ++ [req].
Proof.
  destruct (credential_in_every_request sampleClient ApiUnitsBalance)
    as (req & Hkey & _ & _ & Hfetch).
  destruct (Hfetch (answering okResponse) freshWorld)
    as (fuel & out & w1 & Hrun & Hnet); [reflexivity|simpl; lia|].
  exists req, fuel, out, w1. auto.
Defined.

(** ** C9: lists are sent joined *)

(** The request with which a call extends the record of requests. *)
Lemma invoke_sends env fuel this url ps w out w1 req :
  makeRequest env fuel this url ps noOptions w = Some (out, w1) ->
  network w1 = network w ++ [req] ->
  req = axiosRequest url (requestParams this ps) noOptions.
Proof.
  intros Hrun Hnet.
  destruct (makeRequest_request _ _ _ _ _ _ _ _ _ Hrun) as [Hsame|Hadd];
    rewrite Hnet in *.
  - exfalso. apply (f_equal length) in Hsame.
    rewrite length_app in Hsame. simpl in Hsame. lia.
  - by apply app_inv_head in Hadd as [= ->].
Qed.

(** C9.  The request issued by [getBatchKeywordOverview] and by
    [getKeywordDifficulty] has the keywords joined with semicolons as its
    [phrase], the request issued by [getTrafficSummary] has the domains
    joined with commas as its [domains]; with an empty cache and a limit of
    at least 1 each of the calls ends and issues its request.  The
    keywords a, b, c are sent as [a;b;c]. *)
Theorem lists_sent_joined env this :
  (forall fuel keywords database w out w1 req,
     getBatchKeywordOverview env fuel this keywords database w = Some (out, w1) ->
     network w1 = network w ++ [req] ->
     assoc "phrase" (params req) = Some (PStr (String.concat ";" keywords)))
  /\ (forall fuel keywords database w out w1 req,
        getKeywordDifficulty env fuel this keywords database w = Some (out, w1) ->
        network w1 = network w ++ [req] ->
        assoc "phrase" (params req) = Some (PStr (String.concat ";" keywords)))
  /\ (forall fuel domains country w out w1 req,
        getTrafficSummary env fuel this domains country w = Some (out, w1) ->
        network w1 = network w ++ [req] ->
        assoc "domains" (params req) = Some (PStr (String.concat "," domains)))
  /\ (forall keywords domains database country w,
        entries (apiCache w) = ∅ -> 1 <= rateLimit (rateLimiter w) ->
        (exists fuel out w1 req,
           getBatchKeywordOverview env fuel this keywords database w
           = Some (out, w1) /\ network w1 = network w ++ [req])
        /\ (exists fuel out w1 req,
              getKeywordDifficulty env fuel this keywords database w
              = Some (out, w1) /\ network w1 = network w ++ [req])
        /\ (exists fuel out w1 req,
              getTrafficSummary env fuel this domains country w
              = Some (out, w1) /\ network w1 = network w ++ [req]))
  /\ join ";" ["a"; "b"; "c"] = "a;b;c".
Proof.
  split; [|split; [|split; [|split]]].
  - intros fuel keywords database w out w1 req Hrun Hnet.
    by rewrite (invoke_sends _ _ _ _ _ _ _ _ _ Hrun Hnet).
  - intros fuel keywords database w out w1 req Hrun Hnet.
    by rewrite (invoke_sends _ _ _ _ _ _ _ _ _ Hrun Hnet).
  - intros fuel domains country w out w1 req Hrun Hnet.
    by rewrite (invoke_sends _ _ _ _ _ _ _ _ _ Hrun Hnet).
  - intros keywords domains database country w Hempty Hpos.
    unfold getBatchKeywordOverview, getKeywordDifficulty, getTrafficSummary.
    split; [|split];
      match goal with
      | |- context [makeRequest env _ this ?u ?p noOptions w] =>
          destruct (makeRequest_fetches env this u p noOptions w Hempty Hpos)
            as (fuel & out & w1 & Hrun & Hnet)
      end; eauto 10.
  - reflexivity.
Qed.

Lemma lists_sent_joined_witness :
  assoc "phrase"
    (params (axiosRequest SEMRUSH_API_BASE_URL
               (requestParams sampleClient
                  [("type", PStr "phrase_these"); ("phrase", PStr "a;b;c");
                   ("database", PStr "uk");
                   ("export_columns", PStr "Ph,Nq,Cp,Co,Nr,Td,In,Kd")])
               noOptions))
  = Some (PStr (String.concat ";" ["a"; "b"; "c"])).
Proof.
  refine (proj1 (lists_sent_joined (answering okResponse) sampleClient)
            1%nat ["a"; "b"; "c"] "uk" freshWorld _ _ _ _ _);
    reflexivity.
Defined.

(** ** C10: a display limit of 0 *)

(** C10.  A call whose [limit] argument is 0 is the same call as the one
    with no limit: it has the same outcome in every world, and the request
    it issues has no [display_limit] property.  (A limit other than 0 is
    sent as [display_limit].)  With an empty cache and a limit of at least 1
    for the rate limiter, the call ends and issues its request. *)
Theorem zero_limit_dropped op :
  limitArgument op = Some (Some 0) ->
  (forall env fuel this,
     invoke env fuel this op = invoke env fuel this (withLimit None op))
  /\ (forall env fuel this w out w1 req,
        invoke env fuel this op w = Some (out, w1) ->
        network w1 = network w ++ [req] ->
        assoc "display_limit" (params req) = None)
  /\ (forall env this w,
        entries (apiCache w) = ∅ -> 1 <= rateLimit (rateLimiter w) ->
        exists fuel out w1 req,
          invoke env fuel this op w = Some (out, w1) /\
          network w1 = network w ++ [req])
  /\ (forall n env fuel this w out w1 req,
        n <> 0 ->
        invoke env fuel this (withLimit (Some n) op) w = Some (out, w1) ->
        network w1 = network w ++ [req] ->
        assoc "display_limit" (params req) = Some (PNum n)).
Proof.
  intros Hzero.
  destruct (invoke_makeRequest op) as (url & ps & _ & Hlimit & Hop).
  rewrite Hzero in Hlimit. simpl in Hlimit.
  split; [|split; [|split]].
  - intros env fuel this.
    destruct op; simpl in Hzero; try discriminate;
      injection Hzero as ->; reflexivity.
  - intros env fuel this w out w1 req. rewrite Hop. intros Hrun Hnet.
    rewrite (invoke_sends _ _ _ _ _ _ _ _ _ Hrun Hnet). simpl.
    unfold requestParams. by rewrite assoc_obj_set_ne.
  - intros env this w Hempty Hpos.
    destruct (makeRequest_fetches env this url ps noOptions w Hempty Hpos)
      as (fuel & out & w1 & Hrun & Hnet).
    exists fuel, out, w1. rewrite Hop. eauto.
  - intros n env fuel this w out w1 req Hn.
    destruct (invoke_makeRequest (withLimit (Some n) op))
      as (url' & ps' & _ & Hlimit' & Hop').
    assert (limitArgument (withLimit (Some n) op) = Some (Some n)) as Hset.
    { destruct op; simpl in Hzero; try discriminate; reflexivity. }
    rewrite Hset in Hlimit'. destruct (Z.eqb_spec n 0); [done|].
    rewrite Hop'. intros Hrun Hnet.
    rewrite (invoke_sends _ _ _ _ _ _ _ _ _ Hrun Hnet). simpl.
    unfold requestParams. by rewrite assoc_obj_set_ne.
Qed.

Lemma zero_limit_dropped_witness :
  limitArgument (DomainOrganicKeywords "example.com" None (Some 0))
  = Some (Some 0)
  /\ invoke (answering okResponse) 1 sampleClient
       (DomainOrganicKeywords "example.com" None (Some 0))
     = invoke (answering okResponse) 1 sampleClient
         (DomainOrganicKeywords "example.com" None None).
Proof.
  split; [reflexivity|].
  exact (proj1 (zero_limit_dropped
                  (DomainOrganicKeywords "example.com" None (Some 0)) eq_refl)
           (answering okResponse) 1%nat sampleClient).
Defined.

(** * Further properties of the request path *)

(** ** What a call leaves alone *)

(** X1.  A call of [makeRequest] that ends touches no cache entry but the
    one under its own key, keeps the TTL of the cache and the limit of the
    rate limiter, never puts the clock back, and adds at most its own
    request, at the end of the record of requests. *)
Theorem makeRequest_frame env fuel this url ps options w out w1 :
  makeRequest env fuel this url ps options w = Some (out, w1) ->
  (forall k, k <> cacheKey this url ps ->
             entries (apiCache w1) !! k = entries (apiCache w) !! k)
  /\ stdTTL (apiCache w1) = stdTTL (apiCache w)
  /\ rateLimit (rateLimiter w1) = rateLimit (rateLimiter w)
  /\ clock w <= clock w1
  /\ (network w1 = network w
      \/ network w1
         = network w ++ [axiosRequest url (requestParams this ps) options]).
Proof.
  intros Hrun.
  pose proof (makeRequest_request _ _ _ _ _ _ _ _ _ Hrun) as Hnet.
  apply makeRequest_inv in Hrun
    as [(cached & _ & _ & ->)|(granted & rl & _ & Hwait & Hend)].
  - repeat split; auto. lia.
  - destruct (waitForRateLimit_granted _ _ _ _ _ _ Hwait) as (Hle & _ & Hrl).
    destruct Hend as [(r & _ & ->)|(e & _ & ->)]; simpl;
      (split; [|split; [done|split; [done|split; [lia|exact Hnet]]]]).
    + intros k Hk. by rewrite lookup_insert_ne.
    + done.
Qed.

Lemma makeRequest_frame_witness :
  entries (apiCache storedWorld) !! "some other key"
  = entries (apiCache freshWorld) !! "some other key"
  /\ clock freshWorld <= clock storedWorld.
Proof.
  destruct (makeRequest_frame (answering okResponse) 1 sampleClient
              SEMRUSH_API_BASE_URL [("type", PStr "api_units")] noOptions
              freshWorld _ storedWorld eq_refl) as (Hother & _ & _ & Hclock & _).
  split; [|exact Hclock]. by apply Hother.
Defined.

(** ** How long a call waits for its slot *)







(** ** The first requests are not delayed *)




(** ** The limiter does not grow *)

Lemma checkRateLimit_length now now' rl :
  Z.of_nat (length (requestTimestamps (snd (checkRateLimit now now' rl))))
  <= Z.max (rateLimit rl) (Z.of_nat (length (requestTimestamps rl))).
Proof.
  pose proof (length_filter (fun t => now - 1000 < t) (requestTimestamps rl))
    as Hkept.
  destruct (checkRateLimit_cases now now' rl) as [[Hlt E]|[Hge E]];
    rewrite E; simpl; [rewrite length_app; simpl|]; lia.
Qed.

(** X4.  The list of timestamps never outgrows the limit: over any run of
    polls, and through any wait, a limiter that holds at most
    [max 0 rateLimit] timestamps (a new one holds none) still does so
    afterwards, whether the polls were granted or declined. *)
Theorem limiter_stays_bounded rl :
  Z.of_nat (length (requestTimestamps rl)) <= Z.max 0 (rateLimit rl) ->
  (forall polls admitted,
     Z.of_nat (length (requestTimestamps (snd (runPolls polls admitted rl))))
     <= Z.max 0 (rateLimit rl))
  /\ (forall env fuel now granted rl',
        waitForRateLimit env fuel now rl = Some (granted, rl') ->
        Z.of_nat (length (requestTimestamps rl')) <= Z.max 0 (rateLimit rl)).
Proof.
  intros Hinit. split.
  - intros polls. revert rl Hinit.
    induction polls as [|[now now'] rest IH]; intros rl Hinit admitted;
      [exact Hinit|].
    simpl.
    pose proof (checkRateLimit_length now now' rl) as Hlen.
    pose proof (checkRateLimit_rateLimit now now' rl) as Hrl.
    destruct (checkRateLimit now now' rl) as [[|] rl1]; simpl in Hlen, Hrl;
      rewrite <- Hrl; apply IH; lia.
  - intros env fuel now granted rl' Hwait.
    pose proof (waitForRateLimit_bound _ _ _ _ _ _ Hwait) as Hlen.
    destruct (waitForRateLimit_granted _ _ _ _ _ _ Hwait) as (_ & _ & Hrl).
    lia.
Qed.

Lemma limiter_stays_bounded_witness :
  Z.of_nat
    (length (requestTimestamps
               (snd (runPolls [(5000, 5000); (5100, 5100); (6000, 6001)] []
                       busyLimiter))))
  <= Z.max 0 (rateLimit busyLimiter).
Proof.
  apply (proj1 (limiter_stays_bounded busyLimiter ltac:(simpl; lia))).
Defined.

(** ** After the TTL *)

(** X5.  An envelope stored by a call is not returned once the standard
    TTL has passed since it arrived: the same call then misses the cache
    and, granted a slot, makes a new exchange.  (An entry whose expiry
    instant is 0 never expires; that is the case of a TTL of 0.) *)
Theorem expired_entry_refetched env fuel this url ps options w r w1 :
  makeRequest env fuel this url ps options w = Some (Normal r, w1) ->
  network w1 <> network w ->
  forall env' w2,
    apiCache w2 = apiCache w1 ->
    stdTTL (apiCache w1) <> 0 ->
    clock w1 + stdTTL (apiCache w1) * 1000 <> 0 ->
    clock w1 + stdTTL (apiCache w1) * 1000 < clock w2 ->
    1 <= rateLimit (rateLimiter w2) ->
    NodeCache_get (cacheKey this url ps) (clock w2) (apiCache w2) = None
    /\ exists fuel' out w3,
         makeRequest env' fuel' this url ps options w2 = Some (out, w3)
         /\ network w3
            = network w2 ++ [axiosRequest url (requestParams this ps) options].
Proof.
  intros Hrun Hfetched env' w2 Hcache Httl Hnz Hlate Hpos.
  apply makeRequest_inv in Hrun
    as [(cached & _ & _ & ->)|(granted & rl & _ & _ & Hend)]; [done|].
  destruct Hend as [(r0 & _ & ->)|(e & Hout & _)]; [|discriminate].
  assert (NodeCache_get (cacheKey this url ps) (clock w2) (apiCache w2) = None)
    as Hmiss.
  { rewrite Hcache. unfold NodeCache_get, afterStore, NodeCache_set in *.
    simpl in *. rewrite lookup_insert_eq. simpl.
    destruct (Z.eqb_spec (stdTTL (apiCache w)) 0); [done|].
    destruct (Z.eqb_spec
                (granted + Z.of_N (duration env (length (network w)))
                 + stdTTL (apiCache w) * 1000) 0); [done|].
    destruct (Z.ltb_spec
                (granted + Z.of_N (duration env (length (network w)))
                 + stdTTL (apiCache w) * 1000) (clock w2)); [done|lia]. }
  split; [exact Hmiss|].
  destruct (waitForRateLimit_terminates env' (clock w2) (rateLimiter w2) Hpos)
    as (fuel' & granted' & rl' & Hwait' & _).
  pose proof (makeRequest_miss env' this url ps options fuel' w2 granted' rl'
                Hmiss Hwait') as Hrun'.
  destruct (axios _ _) in Hrun'; eauto.
Qed.

Lemma expired_entry_refetched_witness :
  NodeCache_get
    (cacheKey sampleClient SEMRUSH_API_BASE_URL [("type", PStr "api_units")])
    (clock expiredWorld) (apiCache expiredWorld) = None.
Proof.
  refine (proj1 (expired_entry_refetched (answering okResponse) 1 sampleClient
                   SEMRUSH_API_BASE_URL [("type", PStr "api_units")] noOptions
                   freshWorld _ storedWorld eq_refl _
                   unreachable expiredWorld eq_refl _ _ _ _));
    [discriminate|discriminate|discriminate|reflexivity|simpl; lia].
Defined.

(** ** The status of an error *)

(** X6.  The status of the error a call fails with is never 0; with the
    default options it is never a status from 200 to 299: it is 500, or the
    status of a response outside that range. *)
Theorem error_status_is_a_failure env fuel this url ps options w e w1 :
  makeRequest env fuel this url ps options w = Some (Throw e, w1) ->
  err_status e <> 0
  /\ (opt_validateStatus options = None ->
      ~ (200 <= err_status e < 300)).
Proof.
  intros Hrun.
  pose proof Hrun as Hinv. apply makeRequest_inv in Hinv
    as [(cached & _ & Hout & _)|(granted & rl & Hmiss & Hwait & _)];
    [discriminate|].
  rewrite (makeRequest_miss _ _ _ _ _ _ _ _ _ Hmiss Hwait) in Hrun.
  unfold axios in Hrun.
  destruct (upstream env (length (network w))
              (axiosRequest url (requestParams this ps) options))
    as [r|m|m].
  - destruct (Z.eqb_spec (response_status r) 0) as [Hz|Hz]; simpl in Hrun;
      [discriminate|].
    destruct (default defaultValidateStatus (opt_validateStatus options)
                (response_status r)) eqn:Hv; [discriminate|].
    injection Hrun as <- _. unfold fromAxiosError. simpl.
    destruct (Z.eqb_spec (response_status r) 0); [done|].
    split; [done|]. intros Hopt. rewrite Hopt in Hv.
    simpl in Hv. unfold defaultValidateStatus in Hv. lia.
  - injection Hrun as <- _. simpl. split; [done|]. intros _. lia.
  - injection Hrun as <- _. simpl. split; [done|]. intros _. lia.
Qed.

Lemma error_status_is_a_failure_witness :
  err_status {| err_message := "Request failed with status code 404";
                err_status := 404;
                err_response := Some (JStr "<html>Not Found</html>") |} <> 0.
Proof.
  refine (proj1 (error_status_is_a_failure (answering notFoundResponse) 1
                   sampleClient SEMRUSH_API_BASE_URL
                   [("type", PStr "api_units")] noOptions freshWorld _ _ _)).
  reflexivity.
Defined.

(** ** Where the operations send their requests *)

Lemma invoke_endpoint op :
  exists path ps,
    (path = "" \/ path = "analytics/ta/summary" \/ path = "analytics/ta/sources")
    /\ forall env fuel this,
         invoke env fuel this op
         = makeRequest env fuel this (SEMRUSH_API_BASE_URL +:+ path) ps
             noOptions.
Proof.
  destruct op.
  17: by exists "analytics/ta/summary"; eexists; split; [auto|].
  17: by exists "analytics/ta/sources"; eexists; split; [auto|].
  all: by exists ""; eexists; split; [auto|].
Qed.

(** X7.  Whatever the operation and its arguments, the request it issues
    is a GET to [https://api.semrush.com/], [.../analytics/ta/summary] or
    [.../analytics/ta/sources], judged by axios' default [validateStatus]. *)
Theorem operations_target_semrush env fuel this op w out w1 req :
  invoke env fuel this op w = Some (out, w1) ->
  network w1 = network w ++ [req] ->
  method req = "get"
  /\ (url req = "https://api.semrush.com/"
      \/ url req = "https://api.semrush.com/analytics/ta/summary"
      \/ url req = "https://api.semrush.com/analytics/ta/sources")
  /\ validateStatus req = defaultValidateStatus.
Proof.
  destruct (invoke_endpoint op) as (path & ps & Hpath & Hop).
  rewrite Hop. intros Hrun Hnet.
  rewrite (invoke_sends _ _ _ _ _ _ _ _ _ Hrun Hnet). simpl.
  split; [done|]. split; [|done].
  destruct Hpath as [-> | [-> | ->]]; auto.
Qed.

Lemma operations_target_semrush_witness :
  method (axiosRequest SEMRUSH_API_BASE_URL
            (requestParams sampleClient [("type", PStr "api_units")])
            noOptions) = "get".
Proof.
  refine (proj1 (operations_target_semrush (answering okResponse) 1
                   sampleClient ApiUnitsBalance freshWorld _ _ _ _ _));
    reflexivity.
Defined.

(** * The tool handler *)

(** ** The tools declared and the tools served *)

Lemma validated_known {A} (parsed : option A) call :
  validated parsed call <> UnknownTool.
Proof. by destruct parsed. Qed.

(** X8.  The handler knows a tool exactly when [TOOLS] declares it: for a
    declared name the [switch] reaches a case, whatever the arguments, and
    for any other name the answer is the error result [Unknown tool: name],
    with the world left as it is (no request, no poll of the limiter). *)
Theorem declared_tools_are_served toolName args :
  (dispatch toolName args = UnknownTool <-> ~ In toolName (map name TOOLS))
  /\ (~ In toolName (map name TOOLS) ->
      forall env fuel zodMessage semrushApi w,
        callTool env fuel zodMessage semrushApi toolName args w
        = Some ({| isError := true; text := "Unknown tool: " +:+ toolName |}, w)).
Proof.
  assert (dispatch toolName args = UnknownTool
          <-> ~ In toolName (map name TOOLS)) as Hiff.
  { unfold dispatch. split.
    - repeat match goal with
             | |- context [String.eqb toolName ?x] =>
                 destruct (String.eqb_spec toolName x) as [->|?];
                 [intros H; by apply validated_known in H|]
             end.
      intros _. simpl. intuition congruence.
    - intros Hnot.
      repeat match goal with
             | |- context [String.eqb toolName ?x] =>
                 destruct (String.eqb_spec toolName x) as [->|?];
                 [exfalso; apply Hnot; simpl; tauto|]
             end.
      reflexivity. }
  split; [exact Hiff|].
  intros Hnot env fuel zodMessage semrushApi w. unfold callTool.
  by rewrite (proj2 Hiff Hnot).
Qed.

Lemma declared_tools_are_served_witness :
  callTool unreachable 0 "" sampleClient "semrush_domain" None freshWorld
  = Some ({| isError := true; text := "Unknown tool: semrush_domain" |},
          freshWorld).
Proof.
  apply (proj2 (declared_tools_are_served "semrush_domain" None)).
  simpl. intuition discriminate.
Defined.

(** ** Declared arguments are accepted *)

Lemma zStringArray_accepts items :
  forallb (fun item => match item with JStr _ => true | _ => false end) items
  = true ->
  exists l, zStringArray (Some (JArr items)) = Some l.
Proof.
  unfold zStringArray. induction items as [|item items IH]; simpl.
  - by exists [].
  - destruct item; try discriminate. intros Hrest.
    destruct (IH Hrest) as [l Hl]. exists (s :: l).
    unfold zString in *. cbn. by rewrite Hl.
Qed.

Lemma declared_property names (fields : list (string * JSON)) k value :
  forallb (fun p => existsb (String.eqb (fst p)) names) fields = true ->
  assoc k fields = Some value ->
  existsb (String.eqb k) names = true.
Proof.
  induction fields as [|[k' v'] rest IH]; simpl; [discriminate|].
  intros [Hhead Hrest]%andb_prop.
  destruct (String.eqb_spec k' k) as [<-|_]; auto.
Qed.

(** X9.  Arguments that satisfy the input schema a tool declares in
    [TOOLS] and have no property beyond the declared ones are never refused
    by the zod schema the handler validates them with: the handler goes on
    to call an operation. *)
Theorem declared_arguments_accepted tool args :
  In tool TOOLS ->
  conforms tool args = true ->
  onlyDeclared tool args = true ->
  exists op, dispatch (name tool) args = CallOperation op.
Proof.
  intros Hin Hconf Honly.
  destruct args as [[| | | | |fields]|];
    try (unfold conforms in Hconf; discriminate).
  unfold onlyDeclared in Honly.
  assert (forall k value, assoc k fields = Some value ->
            existsb (String.eqb k) (map fst (properties tool)) = true)
    as Hdeclared by (intros; by eapply declared_property).
  clear Honly. simpl in Hin.
  repeat (destruct Hin as [<-|Hin]; [|]); [..|done];
    cbn in Hconf;
    repeat match type of Hconf with
           | context [assoc ?k fields] =>
               let E := fresh "E" in
               destruct (assoc k fields) as [[| | | | |]|] eqn:E;
               simpl in Hconf;
               rewrite ?andb_true_r, ?andb_false_r in Hconf;
               try discriminate
           end;
    unfold dispatch; cbn [String.eqb Ascii.eqb Bool.eqb];
    unfold DomainParams, TargetParams, KeywordParams, TrafficDomainsParams,
      TrafficDomainParams, CheckParams, BatchKeywordParams, zObject;
    cbn [mbind option_bind];
    repeat match goal with
           | E : assoc ?k fields = _ |- context [assoc ?k fields] => rewrite E
           end;
    repeat match goal with
           | |- context [zStringArray (Some (JArr ?items))] =>
               let l := fresh "l" in
               let Hl := fresh "Hl" in
               destruct (zStringArray_accepts items) as [l Hl];
               [done | rewrite Hl]
           end;
    cbn;
    try match goal with
        | |- context [assoc "limit" fields] =>
            let E := fresh "E" in
            destruct (assoc "limit" fields) as [value|] eqn:E;
            [apply Hdeclared in E; discriminate|]
        end;
    cbn; eauto.
Qed.

Lemma declared_arguments_accepted_witness :
  exists op,
    dispatch "semrush_batch_keyword_overview"
      (Some (JObj [("keywords", JArr [JStr "a"; JStr "b"]);
                   ("database", JStr "uk")]))
    = CallOperation op.
Proof.
  apply (declared_arguments_accepted
           {| name := "semrush_batch_keyword_overview";
              properties := [("keywords", TStringArray); ("database", TString)];
              required := ["keywords"; "database"] |});
    [simpl; tauto|reflexivity|reflexivity].
Defined.

(** ** Arguments beyond the declared schema *)

(** X10.  The three overview tools declare no [limit], yet their arguments
    are validated with a schema that has one: arguments whose [limit] is
    present and not a number are refused, and the handler answers with an
    error result without calling the client, the world left as it is. *)
Theorem undeclared_limit_refused toolName fields value :
  In toolName ["semrush_domain_overview"; "semrush_keyword_overview";
               "semrush_keyword_overview_single_db"] ->
  assoc "limit" fields = Some value ->
  (forall n, value <> JNum n) ->
  dispatch toolName (Some (JObj fields)) = InvalidArguments
  /\ forall env fuel zodMessage semrushApi w,
       callTool env fuel zodMessage semrushApi toolName (Some (JObj fields)) w
       = Some (handleApiError (CaughtError zodMessage), w).
Proof.
  intros Hin Hlimit Hvalue.
  assert (dispatch toolName (Some (JObj fields)) = InvalidArguments) as Hd.
  { assert (zNumberOptional (Some value) = None) as Hz.
    { destruct value; try reflexivity. by destruct (Hvalue n). }
    simpl in Hin.
    destruct Hin as [<-|[<-|[<-|[]]]];
      unfold dispatch; cbn [String.eqb Ascii.eqb Bool.eqb];
      unfold DomainParams, KeywordParams, zObject; cbn [mbind option_bind];
      rewrite Hlimit, Hz;
      repeat match goal with
             | |- context [zString ?x] => destruct (zString x)
             | |- context [zStringDefault ?d ?x] => destruct (zStringDefault d x)
             end; reflexivity. }
  split; [exact Hd|]. intros. unfold callTool. by rewrite Hd.
Qed.

Lemma undeclared_limit_refused_witness :
  conforms {| name := "semrush_domain_overview";
              properties := [("domain", TString); ("database", TString)];
              required := ["domain"] |}
    (Some (JObj [("domain", JStr "example.com"); ("limit", JStr "ten")]))
  = true
  /\ dispatch "semrush_domain_overview"
       (Some (JObj [("domain", JStr "example.com"); ("limit", JStr "ten")]))
     = InvalidArguments.
Proof.
  split; [reflexivity|].
  apply (undeclared_limit_refused "semrush_domain_overview" _ (JStr "ten"));
    [simpl; tauto|reflexivity|discriminate].
Defined.

Lemma assoc_app_fresh {A} k k' (value : A) fields :
  assoc k (fields ++ [(k', value)])
  = match assoc k fields with
    | Some x => Some x
    | None => if String.eqb k' k then Some value else None
    end.
Proof.
  induction fields as [|[k0 v0] rest IH]; simpl; [done|].
  by destruct (String.eqb k0 k).
Qed.

(** Adding the default by hand changes nothing for any of the schemas. *)
Lemma schemas_default k fields :
  k = "database" \/ k = "country" ->
  assoc k fields = None ->
  let fields' := fields ++ [(k, JStr "us")] in
  DomainParams (Some (JObj fields)) = DomainParams (Some (JObj fields'))
  /\ TargetParams (Some (JObj fields)) = TargetParams (Some (JObj fields'))
  /\ KeywordParams (Some (JObj fields)) = KeywordParams (Some (JObj fields'))
  /\ (k = "country" ->
      TrafficDomainsParams (Some (JObj fields))
      = TrafficDomainsParams (Some (JObj fields')))
  /\ (k = "country" ->
      TrafficDomainParams (Some (JObj fields))
      = TrafficDomainParams (Some (JObj fields')))
  /\ CheckParams (Some (JObj fields)) = CheckParams (Some (JObj fields'))
  /\ BatchKeywordParams (Some (JObj fields))
     = BatchKeywordParams (Some (JObj fields')).
Proof.
  intros Hk Hnone fields'. subst fields'.
  unfold DomainParams, TargetParams, KeywordParams, TrafficDomainsParams,
    TrafficDomainParams, CheckParams, BatchKeywordParams, zObject.
  cbn [mbind option_bind].
  destruct Hk as [-> | ->];
    rewrite !assoc_app_fresh, ?Hnone;
    cbn [String.eqb Ascii.eqb Bool.eqb];
    repeat split; try discriminate; intros;
    repeat match goal with
           | |- context [assoc ?x fields] => destruct (assoc x fields)
           end; reflexivity.
Qed.

(** The traffic schemas read no [database]. *)
Lemma traffic_schemas_database fields :
  let fields' := fields ++ [("database", JStr "us")] in
  TrafficDomainsParams (Some (JObj fields))
  = TrafficDomainsParams (Some (JObj fields'))
  /\ TrafficDomainParams (Some (JObj fields))
     = TrafficDomainParams (Some (JObj fields')).
Proof.
  intros fields'. subst fields'.
  unfold TrafficDomainsParams, TrafficDomainParams, zObject.
  cbn [mbind option_bind]. rewrite !assoc_app_fresh.
  cbn [String.eqb Ascii.eqb Bool.eqb].
  split;
    repeat match goal with
           | |- context [assoc ?x fields] => destruct (assoc x fields)
           end; reflexivity.
Qed.

(** X11.  A missing [database] is the database [us], for every tool, the
    eight that declare [database] as required included: arguments without
    the property lead to the same call as the arguments with
    [database: "us"] added.  Likewise a missing [country] is [us]. *)
Theorem missing_database_is_us toolName fields :
  (assoc "database" fields = None ->
   dispatch toolName (Some (JObj fields))
   = dispatch toolName (Some (JObj (fields ++ [("database", JStr "us")]))))
  /\ (assoc "country" fields = None ->
      dispatch toolName (Some (JObj fields))
      = dispatch toolName (Some (JObj (fields ++ [("country", JStr "us")])))).
Proof.
  split; intros Hnone.
  - destruct (schemas_default "database" fields (or_introl eq_refl) Hnone)
      as (Hd & Ht & Hk & _ & _ & Hc & Hb).
    destruct (traffic_schemas_database fields) as [Hts Htd].
    unfold dispatch. by rewrite <- Hd, <- Ht, <- Hk, <- Hc, <- Hb, <- Hts, <- Htd.
  - destruct (schemas_default "country" fields (or_intror eq_refl) Hnone)
      as (Hd & Ht & Hk & Hts & Htd & Hc & Hb).
    unfold dispatch.
    by rewrite <- Hd, <- Ht, <- Hk, <- Hc, <- Hb, <- (Hts eq_refl),
         <- (Htd eq_refl).
Qed.

Lemma missing_database_is_us_witness :
  dispatch "semrush_keyword_overview_single_db"
    (Some (JObj [("keyword", JStr "seo")]))
  = CallOperation (KeywordOverviewSingleDb "seo" "us").
Proof.
  rewrite (proj1 (missing_database_is_us
                    "semrush_keyword_overview_single_db"
                    [("keyword", JStr "seo")]) eq_refl).
  reflexivity.
Defined.

(** ** What the handler answers *)

(** X12.  An answer without [isError] comes from a call of the client that
    returned an envelope, and its text is the serialised payload of that
    envelope.  An answer with [isError] comes from an unknown tool or
    refused arguments, with the world left as it is, or from a call of the
    client that failed: its text then gives the message and the status of
    the error, and the cache is as it was before the call. *)
Theorem tool_answer env fuel zodMessage semrushApi toolName args w res w1 :
  callTool env fuel zodMessage semrushApi toolName args w = Some (res, w1) ->
  (isError res = false ->
   exists op response,
     dispatch toolName args = CallOperation op
     /\ invoke env fuel semrushApi op w = Some (Normal response, w1)
     /\ text res = stringify (data response))
  /\ (isError res = true ->
      (w1 = w /\ forall op, dispatch toolName args <> CallOperation op)
      \/ exists op e,
           dispatch toolName args = CallOperation op
           /\ invoke env fuel semrushApi op w = Some (Throw e, w1)
           /\ text res
              = "Error: " +:+ err_message e +:+ ". Status: " +:+
                pretty (err_status e)
           /\ apiCache w1 = apiCache w).
Proof.
  unfold callTool. intros Hrun.
  destruct (dispatch toolName args) as [| |op] eqn:Hd.
  - injection Hrun as <- <-. split; [discriminate|]. intros _. left. done.
  - injection Hrun as <- <-. split; [discriminate|]. intros _. left. done.
  - destruct (invoke env fuel semrushApi op w) as [[[response|e] w']|] eqn:Hop;
      [| |discriminate]; injection Hrun as <- <-.
    + split; [|discriminate]. intros _. eauto.
    + split; [discriminate|]. intros _. right. exists op, e.
      split; [done|]. split; [done|]. split; [done|].
      destruct (invoke_makeRequest op) as (url & ps & _ & _ & Hcall).
      rewrite Hcall in Hop.
      apply makeRequest_inv in Hop
        as [(cached & _ & Hout & _)|(granted & rl & _ & _ & Hend)];
        [discriminate|].
      by destruct Hend as [(r & Hout & _)|(e' & _ & ->)].
Qed.

Lemma tool_answer_witness :
  exists op response,
    dispatch "semrush_api_units_balance" (Some (JObj [("check", JBool false)]))
    = CallOperation op
    /\ invoke (answering okResponse) 1 sampleClient op freshWorld
       = Some (Normal response, storedWorld)
    /\ String (dquote) "Ph;Nq" +:+ String dquote "" = stringify (data response).
Proof.
  refine (proj1 (tool_answer (answering okResponse) 1 "" sampleClient
                   "semrush_api_units_balance"
                   (Some (JObj [("check", JBool false)])) freshWorld
                   {| isError := false;
                      text := String (dquote) "Ph;Nq" +:+ String dquote "" |}
                   storedWorld _) _); reflexivity.
Defined.

(** ** The handler without slots *)

Lemma waitForRateLimit_never env : forall fuel now rl,
  rateLimit rl <= 0 -> waitForRateLimit env fuel now rl = None.
Proof.
  induction fuel as [|fuel IH]; intros now rl Hrl; [reflexivity|].
  simpl.
  destruct (checkRateLimit_cases now now rl) as [[Hlt E]|[_ E]];
    rewrite E; [lia|]. by apply IH.
Qed.

(** X13.  With a rate limit of 0 or less the handler never reaches the
    upstream and never reports that: whatever it answers is the error
    result for an unknown tool or refused arguments, or a payload served
    from the cache without a poll, and the world is left as it is; a call
    with a known tool and accepted arguments that finds the cache empty is
    never answered, it is still pending after any number of polls. *)
Theorem handler_without_slots env zodMessage semrushApi toolName args w :
  rateLimit (rateLimiter w) <= 0 ->
  (forall fuel res w1,
     callTool env fuel zodMessage semrushApi toolName args w = Some (res, w1) ->
     w1 = w
     /\ ((isError res = true
          /\ forall op, dispatch toolName args <> CallOperation op)
         \/ exists op cached,
              dispatch toolName args = CallOperation op
              /\ invoke env 0 semrushApi op w = Some (Normal cached, w)
              /\ res = {| isError := false;
                          text := stringify (data cached) |}))
  /\ (entries (apiCache w) = ∅ ->
      forall op,
        dispatch toolName args = CallOperation op ->
        forall fuel,
          callTool env fuel zodMessage semrushApi toolName args w = None).
Proof.
  intros Hzero. unfold callTool. split.
  - intros fuel res w1.
    destruct (dispatch toolName args) as [| |op] eqn:Hd.
    + intros [= <- <-]. split; [done|]. left. done.
    + intros [= <- <-]. split; [done|]. left. done.
    + destruct (invoke_makeRequest op) as (url & ps & _ & _ & Hcall).
      rewrite Hcall.
      destruct (makeRequest env fuel semrushApi url ps noOptions w)
        as [[out w']|] eqn:Hrun; [|discriminate].
      apply makeRequest_inv in Hrun
        as [(cached & Hget & -> & ->)|(granted & rl & _ & Hwait & _)].
      * intros [= <- <-]. split; [done|]. right. exists op, cached.
        split; [done|]. split; [|done].
        rewrite Hcall. by apply makeRequest_hit.
      * by rewrite waitForRateLimit_never in Hwait.
  - intros Hempty op Hd fuel. rewrite Hd.
    destruct (invoke_makeRequest op) as (url & ps & _ & _ & Hcall).
    rewrite Hcall. unfold makeRequest, NodeCache_get.
    rewrite Hempty, lookup_empty.
    by rewrite waitForRateLimit_never.
Qed.

Lemma handler_without_slots_witness :
  callTool unreachable 1000 "" sampleClient "semrush_backlinks"
    (Some (JObj [("target", JStr "example.com")]))
    {| clock := 0; apiCache := NodeCache_new 300;
       rateLimiter := {| requestTimestamps := []; rateLimit := 0 |};
       network := [] |}
  = None
  /\ exists op cached,
       dispatch "semrush_api_units_balance" (Some (JObj [("check", JBool true)]))
       = CallOperation op
       /\ invoke unreachable 0 sampleClient op laterWorld
          = Some (Normal cached, laterWorld).
Proof.
  split.
  - apply (proj2 (handler_without_slots unreachable "" sampleClient
                    "semrush_backlinks"
                    (Some (JObj [("target", JStr "example.com")]))
                    {| clock := 0; apiCache := NodeCache_new 300;
                       rateLimiter := {| requestTimestamps := []; rateLimit := 0 |};
                       network := [] |}
                    ltac:(simpl; lia))
             eq_refl (Backlinks "example.com" None) eq_refl).
  - destruct (proj1 (handler_without_slots unreachable "" sampleClient
                       "semrush_api_units_balance"
                       (Some (JObj [("check", JBool true)])) laterWorld
                       ltac:(simpl; lia))
                5%nat
                {| isError := false;
                   text := String dquote "Ph;Nq" +:+ String dquote "" |}
                laterWorld eq_refl)
      as [_ [[Herr _]|(op & cached & Hd & Hrun & _)]]; [discriminate|].
    exists op, cached. auto.
Defined.

(** * The cache key loses nothing *)

(** ** Quoted strings *)

Lemma unquoteChar_quoteChar c rest :
  unquoteChar (quoteChar c +:+ rest) = Some (c, rest).
Proof. destruct c as [[] [] [] [] [] [] [] []]; reflexivity. Qed.

Lemma quoteChar_not_dquote c rest :
  exists c' rest', quoteChar c +:+ rest = String c' rest' /\ c' <> dquote.
Proof.
  destruct c as [[] [] [] [] [] [] [] []];
    eexists _, _; (split; [reflexivity|discriminate]).
Qed.

Lemma unquoteChars_quoteChars s : forall fuel rest,
  (String.length s < fuel)%nat ->
  unquoteChars fuel (quoteChars s +:+ String dquote rest) = Some (s, rest).
Proof.
  induction s as [|c s IH]; intros fuel rest Hfuel;
    (destruct fuel as [|fuel]; [simpl in Hfuel; lia|]).
  - reflexivity.
  - simpl in Hfuel. cbn [quoteChars]. rewrite append_assoc.
    destruct (quoteChar_not_dquote c (quoteChars s +:+ String dquote rest))
      as (c' & rest' & E & Hc').
    cbn [unquoteChars]. rewrite E.
    destruct (Ascii.eqb_spec c' dquote); [done|].
    rewrite <- E, unquoteChar_quoteChar, IH by lia. reflexivity.
Qed.

(** A quoted string ends where its closing quote is: two quoted strings
    followed by anything are equal only if the strings are and what follows
    is. *)
Lemma quoteJSONString_inj a b r r' :
  quoteJSONString a +:+ r = quoteJSONString b +:+ r' -> a = b /\ r = r'.
Proof.
  unfold quoteJSONString. intros H.
  change (String dquote ((quoteChars a +:+ String dquote "") +:+ r)
          = String dquote ((quoteChars b +:+ String dquote "") +:+ r')) in H.
  injection H as H. rewrite !append_assoc in H.
  change (String dquote "" +:+ r) with (String dquote r) in H.
  change (String dquote "" +:+ r') with (String dquote r') in H.
  pose proof (unquoteChars_quoteChars a
                (S (String.length a + String.length b)) r ltac:(lia)) as Ha.
  pose proof (unquoteChars_quoteChars b
                (S (String.length a + String.length b)) r' ltac:(lia)) as Hb.
  rewrite H in Ha. rewrite Ha in Hb. by injection Hb.
Qed.

(** ** Numbers *)

Lemma pretty_N_char_num x : isNumChar (pretty_N_char x) = true.
Proof. unfold pretty_N_char. by repeat case_match. Qed.

Lemma pretty_N_go_num x : forall s,
  allNumChars s = true -> allNumChars (pretty_N_go x s) = true.
Proof.
  induction (N.lt_wf_0 x) as [x _ IH]; intros s Hs.
  assert (x = 0 \/ 0 < x)%N as [->|Hpos] by lia.
  - by rewrite pretty_N_go_0.
  - rewrite pretty_N_go_step by done. apply IH.
    + by apply N.div_lt.
    + simpl. by rewrite pretty_N_char_num.
Qed.

Lemma pretty_Z_num (n : Z) : allNumChars (pretty n) = true.
Proof.
  assert (forall x : N, allNumChars (pretty x) = true) as HN.
  { intros x. unfold pretty, pretty_N. case_decide; [done|].
    by apply pretty_N_go_num. }
  destruct n as [|p|p]; [done|apply (HN (N.pos p))|].
  change (pretty (Z.neg p)) with ("-" +:+ pretty (N.pos p)).
  change (isNumChar "-" && allNumChars (pretty (N.pos p)) = true).
  by rewrite HN.
Qed.

(** A run of number characters ends where the first other character is. *)
Lemma numeric_prefix s1 : forall s2 c1 r1 c2 r2,
  allNumChars s1 = true -> allNumChars s2 = true ->
  isNumChar c1 = false -> isNumChar c2 = false ->
  s1 +:+ String c1 r1 = s2 +:+ String c2 r2 ->
  s1 = s2 /\ String c1 r1 = String c2 r2.
Proof.
  induction s1 as [|x s1 IH]; intros [|y s2] c1 r1 c2 r2 H1 H2 Hc1 Hc2 E.
  - done.
  - change (String c1 r1 = String y (s2 +:+ String c2 r2)) in E.
    injection E as -> _. simpl in H2. by rewrite Hc1 in H2.
  - change (String x (s1 +:+ String c1 r1) = String c2 r2) in E.
    injection E as -> _. simpl in H1. by rewrite Hc2 in H1.
  - change (String x (s1 +:+ String c1 r1) = String y (s2 +:+ String c2 r2))
      in E.
    injection E as -> E. simpl in H1, H2.
    apply andb_prop in H1 as [_ H1]. apply andb_prop in H2 as [_ H2].
    destruct (IH _ _ _ _ _ H1 H2 Hc1 Hc2 E) as [-> ?]. done.
Qed.

(** ** Properties and objects *)

Lemma terminated_cases r :
  terminated r ->
  exists c rest, r = String c rest /\ isNumChar c = false
                 /\ c <> dquote /\ c <> "t"%char /\ c <> "f"%char.
Proof. intros [rest [-> | ->]]; eexists _, _; repeat split; done. Qed.

(** A serialised property ends where a comma or the closing brace
    follows: two of them followed by such text are equal only if name and
    value are. *)
Lemma stringifyProperty_inj p p' i i' r r' :
  stringifyProperty p = Some i -> stringifyProperty p' = Some i' ->
  terminated r -> terminated r' ->
  i +:+ r = i' +:+ r' ->
  p = p' /\ r = r'.
Proof.
  destruct p as [k v], p' as [k' v']. intros Hi Hi' Hr Hr' E.
  destruct (terminated_cases r Hr) as (c & rest & -> & Hc & Hq & Ht & Hf).
  destruct (terminated_cases r' Hr') as (c' & rest' & -> & Hc' & Hq' & Ht' & Hf').
  assert (forall val val' : string,
            (quoteJSONString k +:+ ":" +:+ val) +:+ String c rest
            = (quoteJSONString k' +:+ ":" +:+ val') +:+ String c' rest' ->
            k = k' /\ val +:+ String c rest = val' +:+ String c' rest') as Hname.
  { intros val val' H. rewrite !append_assoc in H.
    apply quoteJSONString_inj in H as [-> H].
    split; [done|].
    change (String ":" (val +:+ String c rest)
            = String ":" (val' +:+ String c' rest')) in H.
    by injection H. }
  simpl in Hi, Hi'.
  destruct v as [s|n|[]|]; try discriminate;
    destruct v' as [s'|n'|[]|]; try discriminate;
    injection Hi as <-; injection Hi' as <-;
    try replace (quoteJSONString k +:+ ":true")
          with (quoteJSONString k +:+ ":" +:+ "true") in E by reflexivity;
    try replace (quoteJSONString k +:+ ":false")
          with (quoteJSONString k +:+ ":" +:+ "false") in E by reflexivity;
    try replace (quoteJSONString k' +:+ ":true")
          with (quoteJSONString k' +:+ ":" +:+ "true") in E by reflexivity;
    try replace (quoteJSONString k' +:+ ":false")
          with (quoteJSONString k' +:+ ":" +:+ "false") in E by reflexivity;
    apply Hname in E as [-> E].
  - (* string, string *)
    apply quoteJSONString_inj in E as [-> E]. done.
  - (* string, number *)
    exfalso. pose proof (pretty_Z_num n') as Hn.
    destruct (pretty n') as [|d rest0]; unfold quoteJSONString in E;
      [change (String dquote ((quoteChars s +:+ String dquote "")
                              +:+ String c rest) = String c' rest') in E
      |change (String dquote ((quoteChars s +:+ String dquote "")
                              +:+ String c rest)
               = String d (rest0 +:+ String c' rest')) in E];
      injection E as <- _; [done|]. simpl in Hn. done.
  - (* string, true *)
    exfalso. unfold quoteJSONString in E.
    change (String dquote ((quoteChars s +:+ String dquote "")
                           +:+ String c rest)
            = String "t" ("rue" +:+ String c' rest')) in E.
    by injection E.
  - exfalso. unfold quoteJSONString in E.
    change (String dquote ((quoteChars s +:+ String dquote "")
                           +:+ String c rest)
            = String "f" ("alse" +:+ String c' rest')) in E.
    by injection E.
  - (* number, string *)
    exfalso. pose proof (pretty_Z_num n) as Hn.
    destruct (pretty n) as [|d rest0]; unfold quoteJSONString in E;
      [change (String c rest
               = String dquote ((quoteChars s' +:+ String dquote "")
                                +:+ String c' rest')) in E
      |change (String d (rest0 +:+ String c rest)
               = String dquote ((quoteChars s' +:+ String dquote "")
                                +:+ String c' rest')) in E];
      injection E as -> _; [done|]. simpl in Hn. done.
  - (* number, number *)
    destruct (numeric_prefix _ _ _ _ _ _ (pretty_Z_num n) (pretty_Z_num n')
                Hc Hc' E) as [Hnn Hrr].
    apply (inj pretty) in Hnn as ->. done.
  - (* number, true *)
    exfalso. pose proof (pretty_Z_num n) as Hn.
    destruct (pretty n) as [|d rest0];
      [change (String c rest = String "t" ("rue" +:+ String c' rest')) in E
      |change (String d (rest0 +:+ String c rest)
               = String "t" ("rue" +:+ String c' rest')) in E];
      injection E as -> _; [done|]. simpl in Hn. done.
  - exfalso. pose proof (pretty_Z_num n) as Hn.
    destruct (pretty n) as [|d rest0];
      [change (String c rest = String "f" ("alse" +:+ String c' rest')) in E
      |change (String d (rest0 +:+ String c rest)
               = String "f" ("alse" +:+ String c' rest')) in E];
      injection E as -> _; [done|]. simpl in Hn. done.
  - (* true, string *)
    exfalso. unfold quoteJSONString in E.
    change (String "t" ("rue" +:+ String c rest)
            = String dquote ((quoteChars s' +:+ String dquote "")
                             +:+ String c' rest')) in E.
    by injection E.
  - (* true, number *)
    exfalso. pose proof (pretty_Z_num n') as Hn.
    destruct (pretty n') as [|d rest0];
      [change (String "t" ("rue" +:+ String c rest) = String c' rest') in E
      |change (String "t" ("rue" +:+ String c rest)
               = String d (rest0 +:+ String c' rest')) in E];
      injection E as <- _; [done|]. simpl in Hn. done.
  - (* true, true *)
    change (String "t" (String "r" (String "u" (String "e" (String c rest))))
            = String "t" (String "r" (String "u" (String "e" (String c' rest')))))
      in E.
    by injection E as -> ->.
  - exfalso.
    change (String "t" ("rue" +:+ String c rest)
            = String "f" ("alse" +:+ String c' rest')) in E.
    by injection E.
  - (* false, string *)
    exfalso. unfold quoteJSONString in E.
    change (String "f" ("alse" +:+ String c rest)
            = String dquote ((quoteChars s' +:+ String dquote "")
                             +:+ String c' rest')) in E.
    by injection E.
  - exfalso. pose proof (pretty_Z_num n') as Hn.
    destruct (pretty n') as [|d rest0];
      [change (String "f" ("alse" +:+ String c rest) = String c' rest') in E
      |change (String "f" ("alse" +:+ String c rest)
               = String d (rest0 +:+ String c' rest')) in E];
      injection E as <- _; [done|]. simpl in Hn. done.
  - exfalso.
    change (String "f" ("alse" +:+ String c rest)
            = String "t" ("rue" +:+ String c' rest')) in E.
    by injection E.
  - change (String "f" (String "a" (String "l" (String "s" (String "e"
              (String c rest)))))
            = String "f" (String "a" (String "l" (String "s" (String "e"
                (String c' rest')))))) in E.
    by injection E as -> ->.
Qed.

Lemma concat_cons_tail sep (x : string) l r :
  String.concat sep (x :: l) +:+ r
  = x +:+ match l with
          | [] => r
          | _ :: _ => sep +:+ String.concat sep l +:+ r
          end.
Proof.
  destruct l as [|y l]; [reflexivity|].
  change (String.concat sep (x :: y :: l))
    with (x +:+ sep +:+ String.concat sep (y :: l)).
  by rewrite !append_assoc.
Qed.

Lemma stringifyProperty_defined p :
  snd p <> PUndefined ->
  exists rest, stringifyProperty p = Some (String dquote rest).
Proof.
  destruct p as [k [s|n|[]|]]; simpl; intros Hdef; [..|done];
    unfold quoteJSONString; eexists; reflexivity.
Qed.

Lemma stringify_items_inj ps : forall ps',
  allDefined ps -> allDefined ps' ->
  String.concat "," (omap stringifyProperty ps) +:+ "}"
  = String.concat "," (omap stringifyProperty ps') +:+ "}" ->
  ps = ps'.
Proof.
  induction ps as [|p q IH]; intros [|p' q'] Hdef Hdef' E.
  - done.
  - exfalso. apply Forall_cons in Hdef' as [Hp' _].
    destruct (stringifyProperty_defined p' Hp') as [rest Hi'].
    cbn [omap list_omap] in E. rewrite Hi' in E.
    rewrite concat_cons_tail in E. discriminate.
  - exfalso. apply Forall_cons in Hdef as [Hp _].
    destruct (stringifyProperty_defined p Hp) as [rest Hi].
    cbn [omap list_omap] in E. rewrite Hi in E.
    rewrite concat_cons_tail in E. discriminate.
  - apply Forall_cons in Hdef as [Hp Hq].
    apply Forall_cons in Hdef' as [Hp' Hq'].
    destruct (stringifyProperty_defined p Hp) as [rest Hi].
    destruct (stringifyProperty_defined p' Hp') as [rest' Hi'].
    cbn [omap list_omap] in E. rewrite Hi, Hi' in E.
    rewrite !concat_cons_tail in E.
    apply (stringifyProperty_inj p p') in E as [-> E]; [| done | done | |].
    + f_equal. apply IH; [done|done|].
      destruct (omap stringifyProperty q) as [|x l],
               (omap stringifyProperty q') as [|x' l'];
        [done|discriminate|discriminate|].
      change (String "," (String.concat "," (x :: l) +:+ "}")
              = String "," (String.concat "," (x' :: l') +:+ "}")) in E.
      by injection E.
    + destruct (omap stringifyProperty q); eexists; [by right|by left].
    + destruct (omap stringifyProperty q'); eexists; [by right|by left].
Qed.

(** ** No two requests under one key *)

(** The serialisation of the parameters loses nothing: parameter objects
    none of whose values is [undefined] have the same text only if they
    have the same properties, with the same values, in the same order. *)
Lemma JSON_stringify_inj ps ps' :
  allDefined ps -> allDefined ps' ->
  JSON_stringify ps = JSON_stringify ps' -> ps = ps'.
Proof.
  intros Hdef Hdef' E. unfold JSON_stringify in E.
  change (String "{" (String.concat "," (omap stringifyProperty ps) +:+ "}")
          = String "{" (String.concat "," (omap stringifyProperty ps') +:+ "}"))
    in E.
  injection E as E. by apply stringify_items_inj.
Qed.

Lemma append_inj_l (s a b : string) : s +:+ a = s +:+ b -> a = b.
Proof.
  induction s as [|c s IH]; [done|].
  intros H. change (String c (s +:+ a) = String c (s +:+ b)) in H.
  injection H as H. auto.
Qed.

Lemma requestParams_defined this ps :
  allDefined ps -> allDefined (requestParams this ps).
Proof.
  unfold allDefined, requestParams.
  induction 1 as [|[k v] rest Hv Hrest IH]; simpl.
  - by repeat constructor.
  - destruct (String.eqb k "key"); constructor; auto.
Qed.

Lemma cacheKey_inj this url ps url' ps' :
  endpoint url -> endpoint url' -> allDefined ps -> allDefined ps' ->
  cacheKey this url ps = cacheKey this url' ps' ->
  url = url' /\ requestParams this ps = requestParams this ps'.
Proof.
  intros Hu Hu' Hdef Hdef' E. unfold cacheKey in E.
  assert (url = url') as <-.
  { destruct Hu as [-> | [-> | ->]], Hu' as [-> | [-> | ->]]; try done;
      exfalso;
      cbv [String.append SEMRUSH_API_BASE_URL TRENDS_API_BASE_URL] in E;
      discriminate E. }
  split; [done|].
  apply append_inj_l, append_inj_l in E.
  apply JSON_stringify_inj in E; auto using requestParams_defined.
Qed.

Lemma setDisplayLimit_defined limit ps :
  allDefined ps -> allDefined (setDisplayLimit limit ps).
Proof.
  unfold setDisplayLimit. destruct limit as [n|]; [|done].
  destruct (n =? 0); [done|]. unfold allDefined.
  induction 1 as [|[k v] rest Hv Hrest IH]; simpl.
  - by repeat constructor.
  - destruct (String.eqb k "display_limit"); constructor; auto.
Qed.

(** Every operation calls [makeRequest] with one of the three addresses
    and parameters that are all defined. *)
Lemma invoke_wellformed op :
  exists url ps,
    (forall env fuel this,
       invoke env fuel this op = makeRequest env fuel this url ps noOptions)
    /\ endpoint url /\ allDefined ps.
Proof.
  destruct op; eexists _, _; (split; [reflexivity|]); unfold endpoint;
    (split; [auto|]);
    try apply setDisplayLimit_defined;
    repeat constructor; discriminate.
Qed.

(** Calls of [makeRequest] that agree on the address and on the request
    parameters are the same call. *)
Lemma makeRequest_ext env fuel this url ps ps' options :
  requestParams this ps = requestParams this ps' ->
  makeRequest env fuel this url ps options
  = makeRequest env fuel this url ps' options.
Proof.
  intros E. unfold makeRequest, cacheKey. by rewrite E.
Qed.

(** X15.  No two different requests share a cache entry, for calls whose
    [limit] is an integer below 2^53 in magnitude.  (The infinities, which
    pass the test [if (limit)], are both written [null] in the key, so from
    there on the key no longer tells the calls apart.)  Every call of an
    operation has one cache key: the call is answered from the live entry
    under that key, or finds none there and goes to the upstream.  Two
    calls, of the same operation or of different ones, whose keys are equal
    are the same call, with the same outcome in every world. *)
Theorem operations_share_no_key this op op' :
  safeLimit op -> safeLimit op' ->
  exists key key',
    (forall env fuel w out w1,
       invoke env fuel this op w = Some (out, w1) ->
       (exists cached,
          NodeCache_get key (clock w) (apiCache w) = Some cached
          /\ out = Normal cached /\ w1 = w)
       \/ (NodeCache_get key (clock w) (apiCache w) = None
           /\ network w1 <> network w))
    /\ (forall env fuel w out w1,
          invoke env fuel this op' w = Some (out, w1) ->
          (exists cached,
             NodeCache_get key' (clock w) (apiCache w) = Some cached
             /\ out = Normal cached /\ w1 = w)
          \/ (NodeCache_get key' (clock w) (apiCache w) = None
              /\ network w1 <> network w))
    /\ (key = key' ->
        forall env fuel, invoke env fuel this op = invoke env fuel this op').
Proof.
  intros _ _.
  destruct (invoke_wellformed op) as (url & ps & Hop & Hu & Hdef).
  destruct (invoke_wellformed op') as (url' & ps' & Hop' & Hu' & Hdef').
  exists (cacheKey this url ps), (cacheKey this url' ps').
  assert (forall url ps env fuel w out w1,
            makeRequest env fuel this url ps noOptions w = Some (out, w1) ->
            (exists cached,
               NodeCache_get (cacheKey this url ps) (clock w) (apiCache w)
               = Some cached /\ out = Normal cached /\ w1 = w)
            \/ (NodeCache_get (cacheKey this url ps) (clock w) (apiCache w)
                = None /\ network w1 <> network w)) as Hkey.
  { clear. intros url ps env fuel w out w1 Hrun.
    apply makeRequest_inv in Hrun
      as [(cached & Hget & -> & ->)|(granted & rl & Hmiss & _ & Hend)];
      [left; eauto|right].
    split; [done|].
    assert (network w1
            = network w ++ [axiosRequest url (requestParams this ps) noOptions])
      as -> by (by destruct Hend as [(r & _ & ->)|(e & _ & ->)]).
    intros E. apply (f_equal length) in E. rewrite length_app in E.
    simpl in E. lia. }
  split; [intros env fuel w out w1; rewrite Hop; apply Hkey|].
  split; [intros env fuel w out w1; rewrite Hop'; apply Hkey|].
  intros E env fuel. rewrite Hop, Hop'.
  destruct (cacheKey_inj this url ps url' ps' Hu Hu' Hdef Hdef' E) as [<- Hps].
  by apply makeRequest_ext.
Qed.

Lemma operations_share_no_key_witness :
  safeLimit (RelatedKeywords "seo" None (Some 10))
  /\ exists key key' : string,
       (key = key' ->
        forall env fuel,
          invoke env fuel sampleClient (RelatedKeywords "seo" None (Some 10))
          = invoke env fuel sampleClient
              (RelatedKeywords "seo" (Some "us") (Some 10))).
Proof.
  assert (safeLimit (RelatedKeywords "seo" None (Some 10))) as Hsafe
    by (unfold safeLimit, safeInteger; simpl; lia).
  assert (safeLimit (RelatedKeywords "seo" (Some "us") (Some 10))) as Hsafe'
    by (unfold safeLimit, safeInteger; simpl; lia).
  split; [exact Hsafe|].
  destruct (operations_share_no_key sampleClient
              (RelatedKeywords "seo" None (Some 10))
              (RelatedKeywords "seo" (Some "us") (Some 10)) Hsafe Hsafe')
    as (key & key' & _ & _ & Hsame).
  exists key, key'. exact Hsame.
Defined.

(** * Redaction *)

(** ** The scan *)

Lemma replaceAll_skip matchAt : forall s skip,
  replaceAll matchAt skip s = replaceAll matchAt 0 (drop skip s).
Proof.
  induction s as [|c rest IH]; intros [|skip]; try reflexivity.
  simpl. apply IH.
Qed.

Lemma replaceAll_cons matchAt c rest :
  replaceAll matchAt 0 (c :: rest)
  = match matchAt (c :: rest) with
    | Some (replacement, matched) =>
        replacement ++ replaceAll matchAt 0 (drop (matched - 1) rest)
    | None => c :: replaceAll matchAt 0 rest
    end.
Proof.
  simpl. destruct (matchAt (c :: rest)) as [[replacement matched]|]; [|done].
  by rewrite replaceAll_skip.
Qed.

(** ** Runs of characters *)

Lemma noLongRun_app_elim a : forall n s,
  forallb isLongChar a = true ->
  noLongRun n (a ++ s) = true ->
  (a = [] \/ (n + length a < 32)%nat)
  /\ noLongRun (n + length a) s = true.
Proof.
  induction a as [|c a IH]; intros n s Ha Hrun; simpl in *.
  - rewrite Nat.add_0_r. auto.
  - apply andb_prop in Ha as [Hc Ha]. rewrite Hc in Hrun.
    apply andb_prop in Hrun as [Hlt Hrun]. apply Nat.ltb_lt in Hlt.
    destruct (IH (S n) s Ha Hrun) as [Hlen Hrest].
    replace (n + S (length a))%nat with (S n + length a)%nat by lia.
    split; [right|exact Hrest].
    destruct Hlen as [-> | ?]; simpl; lia.
Qed.

Lemma noLongRun_app_intro a : forall n s,
  forallb isLongChar a = true ->
  (n + length a < 32)%nat ->
  noLongRun (n + length a) s = true ->
  noLongRun n (a ++ s) = true.
Proof.
  induction a as [|c a IH]; intros n s Ha Hlt Hrest; simpl in *.
  - by rewrite Nat.add_0_r in Hrest.
  - apply andb_prop in Ha as [Hc Ha]. rewrite Hc.
    apply andb_true_intro. split; [apply Nat.ltb_lt; lia|].
    apply IH; [done|lia|].
    by replace (S n + length a)%nat with (n + S (length a))%nat by lia.
Qed.

(** A text without a long run has no piece of 32 or more characters of
    the class. *)
Lemma noLongRun_piece a : forall n secret b,
  noLongRun n (a ++ secret ++ b) = true ->
  forallb isLongChar secret = true ->
  (length secret < 32)%nat.
Proof.
  induction a as [|c a IH]; intros n secret b Hrun Hsecret.
  - simpl in Hrun.
    destruct (noLongRun_app_elim secret n b Hsecret Hrun) as [[-> | ?] _];
      simpl; lia.
  - simpl in Hrun. destruct (isLongChar c).
    + apply andb_prop in Hrun as [_ Hrun]. eauto.
    + eauto.
Qed.

(** The counter only matters up to the first character outside the
    class. *)
Lemma noLongRun_le s : forall n m,
  (m <= n)%nat -> noLongRun n s = true -> noLongRun m s = true.
Proof.
  induction s as [|c rest IH]; intros n m Hle; simpl; [done|].
  destruct (isLongChar c); [|done].
  intros [Hlt Hrest]%andb_prop. apply Nat.ltb_lt in Hlt.
  apply andb_true_intro. split; [apply Nat.ltb_lt; lia|].
  apply (IH (S n)); [lia|done].
Qed.

Lemma noLongRun_runLength s : forall n,
  noLongRun n s = true ->
  runLength isLongChar s = 0%nat \/ (n + runLength isLongChar s < 32)%nat.
Proof.
  induction s as [|c rest IH]; intros n; simpl; [auto|].
  destruct (isLongChar c); [|auto].
  intros [Hlt Hrest]%andb_prop. apply Nat.ltb_lt in Hlt. right.
  destruct (IH _ Hrest) as [-> | ?]; lia.
Qed.

Lemma runLength_drop class s :
  match drop (runLength class s) s with
  | [] => True
  | c :: _ => class c = false
  end.
Proof.
  induction s as [|c rest IH]; simpl; [done|].
  destruct (class c) eqn:E; simpl; [exact IH|exact E].
Qed.

Lemma runLength_take class s :
  forallb class (take (runLength class s) s) = true.
Proof.
  induction s as [|c rest IH]; simpl; [done|].
  destruct (class c) eqn:E; simpl; [by rewrite E|done].
Qed.

Lemma noLongRun_app_r a : forall n b,
  noLongRun n (a ++ b) = true -> exists k, noLongRun k b = true.
Proof.
  induction a as [|c a IH]; intros n b Hrun; simpl in Hrun; [eauto|].
  destruct (isLongChar c); [apply andb_prop in Hrun as [_ Hrun]|]; eauto.
Qed.

Lemma isValueChar_long c : isValueChar c = false -> isLongChar c = false.
Proof.
  unfold isValueChar, isLongChar. intros H%negb_false_iff.
  apply negb_false_iff. rewrite <- orb_assoc, H. apply orb_true_r.
Qed.

(** ** After the second expression *)

Lemma redacted_long_value :
  forallb isLongChar (codeUnits "[REDACTED_LONG_VALUE]") = true
  /\ length (codeUnits "[REDACTED_LONG_VALUE]") = 21%nat.
Proof. split; reflexivity. Qed.

Lemma matchLongValue_short len : forall s n,
  (length s <= len)%nat ->
  n = 0%nat \/ (n + runLength isLongChar s < 32)%nat ->
  (n < 32)%nat ->
  noLongRun n (replaceAll matchLongValue 0 s) = true.
Proof.
  induction len as [|len IH]; intros [|c rest] n Hlen Hn Hn32;
    try reflexivity; simpl in Hlen; [lia|].
  rewrite replaceAll_cons. unfold matchLongValue.
  destruct (Nat.leb_spec 32 (runLength isLongChar (c :: rest))) as [Hrun|Hrun].
  - destruct Hn as [-> | ?]; [|lia].
    destruct redacted_long_value as [Hclass Hsize].
    apply noLongRun_app_intro; [exact Hclass|rewrite Hsize; lia|].
    rewrite Hsize.
    pose proof (runLength_drop isLongChar (c :: rest)) as Hd.
    remember (runLength isLongChar (c :: rest)) as r eqn:Hr. clear Hr.
    assert (drop (r - 1) rest = drop r (c :: rest)) as ->.
    { destruct r; [lia|]. simpl. by rewrite Nat.sub_0_r. }
    apply IH; [rewrite length_drop; cbn [length]; lia| |lia].
    right. destruct (drop r (c :: rest)) as [|d tail]; simpl; [lia|].
    rewrite Hd. lia.
  - revert Hn Hrun. simpl. destruct (isLongChar c); intros Hn Hrun.
    + apply andb_true_intro. split; [apply Nat.ltb_lt; lia|].
      apply IH; [lia|right; lia|lia].
    + apply IH; [lia|by left|lia].
Qed.

(** ** Through the third expression *)

Lemma letter_range_long c :
  (65 <= c <= 122)%N -> isLongChar c = true /\ isValueChar c = true.
Proof.
  intros Hc.
  assert (isWhiteSpace c = false) as Hws.
  { unfold isWhiteSpace.
    rewrite (proj2 (N.leb_gt c 13)) by lia.
    rewrite (proj2 (N.leb_gt 8192 c)) by lia.
    rewrite !(proj2 (N.eqb_neq c _)) by lia.
    by rewrite andb_false_r. }
  unfold isLongChar, isValueChar. rewrite Hws.
  by rewrite !(proj2 (N.eqb_neq c _)) by lia.
Qed.

Lemma nameChar_matched p c :
  isNameChar p = true -> matchesIgnoringCase p c = true ->
  isLongChar c = true /\ isValueChar c = true.
Proof.
  unfold isNameChar, matchesIgnoringCase. intros Hp Hc.
  apply letter_range_long.
  apply orb_prop in Hp as [Hp%N.eqb_eq|[Hlo%N.leb_le Hhi%N.leb_le]%andb_prop];
    apply orb_prop in Hc
      as [Hc%N.eqb_eq|[[Hlo'%N.leb_le Hhi'%N.leb_le]%andb_prop Hc%N.eqb_eq]%andb_prop];
    lia.
Qed.

Lemma startsWithIgnoringCase_take name : forall s,
  forallb isNameChar name = true ->
  startsWithIgnoringCase name s = true ->
  forallb isLongChar (take (length name) s) = true
  /\ length (take (length name) s) = length name.
Proof.
  induction name as [|p name IH]; intros s Hname Hs; [done|].
  destruct s as [|c s]; [done|]. simpl in *.
  apply andb_prop in Hname as [Hp Hname].
  apply andb_prop in Hs as [Hc Hs].
  destruct (nameChar_matched p c Hp Hc) as [-> _].
  destruct (IH s Hname Hs) as [-> ->]. done.
Qed.

(** What a match of one alternative looks like. *)
Lemma matchAssignment_Some name s replacement matched :
  forallb isNameChar name = true ->
  matchAssignment name s = Some (replacement, matched) ->
  exists after,
    s = take (length name) s ++ 61%N :: after
    /\ forallb isLongChar (take (length name) s) = true
    /\ length (take (length name) s) = length name
    /\ replacement = take (length name) s ++ codeUnits "=[REDACTED]"
    /\ (1 <= runLength isValueChar after)%nat
    /\ matched = (length name + 1 + runLength isValueChar after)%nat.
Proof.
  intros Hname. unfold matchAssignment.
  destruct (startsWithIgnoringCase name s) eqn:Hstart; [|discriminate].
  destruct (startsWithIgnoringCase_take name s Hname Hstart) as [Hlong Hlen].
  destruct (drop (length name) s) as [|c after] eqn:Hdrop; [discriminate|].
  destruct (N.eqb_spec c 61) as [->|]; [|discriminate].
  destruct (Nat.leb_spec 1 (runLength isValueChar after)); [|discriminate].
  intros [= <- <-]. exists after.
  rewrite <- Hdrop, take_drop. auto 10.
Qed.

Lemma matchSecretAssignment_Some s replacement matched :
  matchSecretAssignment s = Some (replacement, matched) ->
  exists name after,
    s = name ++ 61%N :: after
    /\ forallb isLongChar name = true
    /\ (1 <= length name <= 8)%nat
    /\ replacement = name ++ codeUnits "=[REDACTED]"
    /\ (1 <= runLength isValueChar after)%nat
    /\ matched = (length name + 1 + runLength isValueChar after)%nat.
Proof.
  unfold matchSecretAssignment. intros H.
  assert (forall name,
            forallb isNameChar name = true ->
            (1 <= length name <= 8)%nat ->
            matchAssignment name s = Some (replacement, matched) ->
            exists name0 after,
              s = name0 ++ 61%N :: after
              /\ forallb isLongChar name0 = true
              /\ (1 <= length name0 <= 8)%nat
              /\ replacement = name0 ++ codeUnits "=[REDACTED]"
              /\ (1 <= runLength isValueChar after)%nat
              /\ matched
                 = (length name0 + 1 + runLength isValueChar after)%nat)
    as Halt.
  { intros name Hname Hsize Hm.
    destruct (matchAssignment_Some name s _ _ Hname Hm)
      as (after & Hs & Hlong & Hlen & Hrepl & Hrun & Hmatched).
    exists (take (length name) s), after. rewrite Hlen. auto 10. }
  destruct (matchAssignment (codeUnits "api_key") s) as [m|] eqn:E1;
    [injection H as ->;
     apply (Halt (codeUnits "api_key") eq_refl ltac:(simpl; lia) E1)|].
  destruct (matchAssignment (codeUnits "key") s) as [m|] eqn:E2;
    [injection H as ->;
     apply (Halt (codeUnits "key") eq_refl ltac:(simpl; lia) E2)|].
  destruct (matchAssignment (codeUnits "token") s) as [m|] eqn:E3;
    [injection H as ->;
     apply (Halt (codeUnits "token") eq_refl ltac:(simpl; lia) E3)|].
  apply (Halt (codeUnits "password") eq_refl ltac:(simpl; lia) H).
Qed.

(** No match starts at a character that cannot be part of a value. *)
Lemma matchSecretAssignment_delimiter d rest :
  isValueChar d = false -> matchSecretAssignment (d :: rest) = None.
Proof.
  intros Hd.
  assert (forall p name,
            isNameChar p = true ->
            matchAssignment (p :: name) (d :: rest) = None) as Halt.
  { intros p name Hp. unfold matchAssignment.
    cbn [startsWithIgnoringCase].
    destruct (matchesIgnoringCase p d) eqn:Hm; [|done].
    destruct (nameChar_matched p d Hp Hm) as [_ Hv]. congruence. }
  unfold matchSecretAssignment.
  change (codeUnits "api_key") with (97%N :: codeUnits "pi_key").
  change (codeUnits "key") with (107%N :: codeUnits "ey").
  change (codeUnits "token") with (116%N :: codeUnits "oken").
  change (codeUnits "password") with (112%N :: codeUnits "assword").
  by rewrite !Halt.
Qed.

Lemma redacted_value :
  forallb isLongChar (codeUnits "[REDACTED]") = true
  /\ length (codeUnits "[REDACTED]") = 10%nat
  /\ codeUnits "=[REDACTED]" = 61%N :: codeUnits "[REDACTED]".
Proof. repeat split. Qed.

Lemma matchSecretAssignment_short len : forall s n m,
  (length s <= len)%nat ->
  (m <= n)%nat ->
  noLongRun n s = true ->
  noLongRun m (replaceAll matchSecretAssignment 0 s) = true.
Proof.
  induction len as [|len IH]; intros [|c rest] n m Hlen Hmn Hrun;
    try reflexivity; simpl in Hlen; [lia|].
  rewrite replaceAll_cons.
  destruct (matchSecretAssignment (c :: rest)) as [[replacement matched]|]
    eqn:Hmatch.
  - destruct (matchSecretAssignment_Some _ _ _ Hmatch)
      as (name & after & Hs & Hlong & Hsize & -> & Hvalue & ->).
    destruct redacted_value as (Hclass & Hten & ->).
    assert (drop (length name + 1 + runLength isValueChar after - 1) rest
            = drop (runLength isValueChar after) after) as ->.
    { replace (length name + 1 + runLength isValueChar after - 1)%nat
        with (length name + runLength isValueChar after)%nat by lia.
      assert (rest = drop 1 (c :: rest)) as -> by done.
      rewrite Hs, drop_drop.
      replace (1 + (length name + runLength isValueChar after))%nat
        with (length name + (1 + runLength isValueChar after))%nat by lia.
      rewrite drop_app_add'; [|done]. done. }
    rewrite Hs in Hrun.
    destruct (noLongRun_app_elim name n _ Hlong Hrun) as [Hn Hafter].
    simpl in Hafter.
    rewrite <- app_assoc. apply noLongRun_app_intro; [done| |].
    { destruct Hn as [-> | ?]; [simpl in Hsize; lia|lia]. }
    change (noLongRun 0
              (codeUnits "[REDACTED]" ++
               replaceAll matchSecretAssignment 0
                 (drop (runLength isValueChar after) after)) = true).
    apply noLongRun_app_intro; [done|rewrite Hten; lia|]. rewrite Hten.
    rewrite <- (take_drop (runLength isValueChar after) after) in Hafter.
    apply noLongRun_app_r in Hafter as [k Htail].
    pose proof (runLength_drop isValueChar after) as Hd.
    assert (length (drop (runLength isValueChar after) after) <= len)%nat
      as Hshort.
    { rewrite length_drop. apply (f_equal length) in Hs.
      rewrite length_app in Hs. simpl in Hs. lia. }
    destruct (drop (runLength isValueChar after) after) as [|d tail];
      [reflexivity|].
    rewrite replaceAll_cons, matchSecretAssignment_delimiter by done.
    simpl in Htail |- *. rewrite (isValueChar_long d Hd) in Htail |- *.
    apply (IH tail 0%nat 0%nat); [simpl in Hshort; lia|lia|done].
  - simpl in Hrun |- *. destruct (isLongChar c).
    + apply andb_prop in Hrun as [Hlt Hrun]. apply Nat.ltb_lt in Hlt.
      apply andb_true_intro. split; [apply Nat.ltb_lt; lia|].
      apply (IH rest (S n)); [lia|lia|done].
    + apply (IH rest 0%nat); [lia|lia|done].
Qed.

(** ** Long secrets *)

(** X16.  No text of 32 or more characters free of [=], [&] and white
    space survives redaction: whatever the input, every piece of the
    redacted text that consists of such characters is shorter than 32.  In
    particular a key of that length is never written to the log as it
    is. *)
Theorem long_secrets_redacted input before secret after :
  redactSensitive input = before ++ secret ++ after ->
  forallb isLongChar secret = true ->
  (length secret < 32)%nat.
Proof.
  intros Hout Hclass.
  apply (noLongRun_piece before 0%nat secret after); [|done].
  rewrite <- Hout. unfold redactSensitive.
  apply (matchSecretAssignment_short _ _ 0%nat 0%nat (Nat.le_refl _));
    [lia|].
  apply (matchLongValue_short _ _ 0%nat (Nat.le_refl _)); [by left|lia].
Qed.

Lemma long_secrets_redacted_witness :
  ~ exists before after,
      redactSensitive
        (codeUnits "failed for 0123456789abcdef0123456789abcdef, retry")
      = before ++ codeUnits "0123456789abcdef0123456789abcdef" ++ after.
Proof.
  intros (before & after & Hout).
  apply long_secrets_redacted in Hout; [|reflexivity].
  simpl in Hout. lia.
Defined.

(** ** Text that is left alone *)

Lemma range_long c :
  (39 <= c <= 159)%N -> c <> 61%N -> isLongChar c = true.
Proof.
  intros Hc H61.
  assert (isWhiteSpace c = false) as Hws.
  { unfold isWhiteSpace.
    rewrite (proj2 (N.leb_gt c 13)) by lia.
    rewrite (proj2 (N.leb_gt 8192 c)) by lia.
    rewrite !(proj2 (N.eqb_neq c _)) by lia.
    by rewrite andb_false_r. }
  unfold isLongChar. rewrite Hws.
  by rewrite !(proj2 (N.eqb_neq c _)) by lia.
Qed.

Lemma isHexDigit_long c : isHexDigit c = true -> isLongChar c = true.
Proof.
  unfold isHexDigit. intros H. apply range_long;
    apply orb_prop in H as [H|H];
    [apply orb_prop in H as [H|H]| |apply orb_prop in H as [H|H]|];
    apply andb_prop in H as [Hlo%N.leb_le Hhi%N.leb_le]; lia.
Qed.

Lemma runLength_hex_le s :
  (runLength isHexDigit s <= runLength isLongChar s)%nat.
Proof.
  induction s as [|c rest IH]; simpl; [lia|].
  destruct (isHexDigit c) eqn:E; [|lia].
  rewrite (isHexDigit_long c E). lia.
Qed.

Lemma noLongRun_tail n c rest :
  noLongRun n (c :: rest) = true -> exists k, noLongRun k rest = true.
Proof. apply (noLongRun_app_r [c]). Qed.

Lemma noLongRun_run_lt n s :
  noLongRun n s = true -> (runLength isLongChar s < 32)%nat.
Proof. intros H. destruct (noLongRun_runLength s n H); lia. Qed.

Lemma matchHexKey_unchanged s : forall n,
  noLongRun n s = true -> replaceAll matchHexKey 0 s = s.
Proof.
  induction s as [|c rest IH]; intros n Hrun; [done|].
  rewrite replaceAll_cons.
  pose proof (noLongRun_run_lt _ _ Hrun) as Hlt.
  pose proof (runLength_hex_le (c :: rest)) as Hle.
  assert (matchHexKey (c :: rest) = None) as ->.
  { unfold matchHexKey.
    by destruct (Nat.leb_spec 32
                   (Nat.min (runLength isHexDigit (c :: rest)) 64)); [lia|]. }
  destruct (noLongRun_tail _ _ _ Hrun) as [k Hk]. by rewrite (IH k).
Qed.

Lemma matchLongValue_unchanged s : forall n,
  noLongRun n s = true -> replaceAll matchLongValue 0 s = s.
Proof.
  induction s as [|c rest IH]; intros n Hrun; [done|].
  rewrite replaceAll_cons.
  pose proof (noLongRun_run_lt _ _ Hrun) as Hlt.
  assert (matchLongValue (c :: rest) = None) as ->.
  { unfold matchLongValue.
    by destruct (Nat.leb_spec 32 (runLength isLongChar (c :: rest))); [lia|]. }
  destruct (noLongRun_tail _ _ _ Hrun) as [k Hk]. by rewrite (IH k).
Qed.

Lemma matchSecretAssignment_unchanged s :
  ~ In 61%N s -> replaceAll matchSecretAssignment 0 s = s.
Proof.
  induction s as [|c rest IH]; intros Hno; [done|].
  rewrite replaceAll_cons.
  destruct (matchSecretAssignment (c :: rest)) as [[replacement matched]|]
    eqn:Hmatch.
  - exfalso. apply Hno.
    destruct (matchSecretAssignment_Some _ _ _ Hmatch)
      as (name & after & -> & _).
    apply in_or_app. right. by left.
  - rewrite IH; [done|]. intros Hin. apply Hno. by right.
Qed.

(** X17.  Text that has no [=] and no run of 32 or more characters free
    of [=], [&] and white space is logged as it is: redaction changes
    nothing in it. *)
Theorem harmless_text_unchanged input :
  noLongRun 0 input = true ->
  ~ In 61%N input ->
  redactSensitive input = input.
Proof.
  intros Hrun Hno. unfold redactSensitive.
  rewrite (matchHexKey_unchanged input 0%nat Hrun).
  rewrite (matchLongValue_unchanged input 0%nat Hrun).
  by apply matchSecretAssignment_unchanged.
Qed.

Lemma harmless_text_unchanged_witness :
  redactSensitive (codeUnits "Request failed with status code 404")
  = codeUnits "Request failed with status code 404".
Proof.
  apply harmless_text_unchanged; [reflexivity|].
  simpl. intuition discriminate.
Defined.

(** ** What is replaced *)

Lemma runLength_all class s :
  forallb class s = true -> runLength class s = length s.
Proof.
  induction s as [|c rest IH]; simpl; [done|].
  intros [-> Hrest]%andb_prop. by rewrite IH.
Qed.

Lemma replaceAll_class class matchAt :
  (forall t replacement matched,
     matchAt t = Some (replacement, matched) ->
     forallb class replacement = true) ->
  forall s skip,
    forallb class s = true ->
    forallb class (replaceAll matchAt skip s) = true.
Proof.
  intros Hm. induction s as [|c rest IH]; intros skip Hs; [done|].
  simpl in Hs. apply andb_prop in Hs as [Hc Hrest].
  destruct skip as [|skip]; simpl; [|auto].
  destruct (matchAt (c :: rest)) as [[replacement matched]|] eqn:E.
  - rewrite forallb_app, (Hm _ _ _ E). simpl. auto.
  - simpl. rewrite Hc. simpl. auto.
Qed.

Lemma replaceAll_nonempty matchAt :
  (forall t replacement matched,
     matchAt t = Some (replacement, matched) -> replacement <> []) ->
  forall s, s <> [] -> replaceAll matchAt 0 s <> [].
Proof.
  intros Hm [|c rest] Hs; [done|]. rewrite replaceAll_cons.
  destruct (matchAt (c :: rest)) as [[replacement matched]|] eqn:E; [|done].
  specialize (Hm _ _ _ E). by destruct replacement.
Qed.

(** The first two expressions turn a value into a value. *)
Lemma value_stays_value value :
  value <> [] -> forallb isValueChar value = true ->
  let value' :=
    replaceAll matchLongValue 0 (replaceAll matchHexKey 0 value) in
  value' <> [] /\ forallb isValueChar value' = true.
Proof.
  intros Hne Hclass.
  assert (forall t replacement matched,
            matchHexKey t = Some (replacement, matched) ->
            replacement = codeUnits "[REDACTED_KEY]") as Hhex.
  { unfold matchHexKey. intros t replacement matched.
    destruct (_ <=? _)%nat; [by intros [= <- _]|discriminate]. }
  assert (forall t replacement matched,
            matchLongValue t = Some (replacement, matched) ->
            replacement = codeUnits "[REDACTED_LONG_VALUE]") as Hlong.
  { unfold matchLongValue. intros t replacement matched.
    destruct (_ <=? _)%nat; [by intros [= <- _]|discriminate]. }
  split.
  - apply replaceAll_nonempty;
      [intros t r m H; by rewrite (Hlong _ _ _ H)|].
    apply replaceAll_nonempty; [|done].
    intros t r m H. by rewrite (Hhex _ _ _ H).
  - apply replaceAll_class;
      [intros t r m H; by rewrite (Hlong _ _ _ H)|].
    apply replaceAll_class; [|done].
    intros t r m H. by rewrite (Hhex _ _ _ H).
Qed.

(** ** An assignment in its context *)

Lemma runLength_app_delim class s d rest :
  class d = false ->
  runLength class (s ++ d :: rest) = runLength class s.
Proof.
  intros Hd. induction s as [|c s IH]; simpl; [by rewrite Hd|].
  by rewrite IH.
Qed.

Lemma runLength_le_length class s : (runLength class s <= length s)%nat.
Proof.
  induction s as [|c s IH]; simpl; [done|]. destruct (class c); lia.
Qed.

(** A character at which no match starts and over which none goes cuts
    the scan in two. *)
Lemma replaceAll_delimiter matchAt d :
  (forall s rest, matchAt (s ++ d :: rest) = matchAt s) ->
  matchAt [] = None ->
  (forall s replacement matched,
     matchAt s = Some (replacement, matched) ->
     (1 <= matched <= length s)%nat) ->
  forall len s rest,
    (length s <= len)%nat ->
    replaceAll matchAt 0 (s ++ d :: rest)
    = replaceAll matchAt 0 s ++ d :: replaceAll matchAt 0 rest.
Proof.
  intros Hcut Hnil Hlen.
  assert (forall rest,
            replaceAll matchAt 0 (d :: rest)
            = d :: replaceAll matchAt 0 rest) as Hhead.
  { intros rest. rewrite replaceAll_cons.
    pose proof (Hcut [] rest) as H. simpl in H. by rewrite H, Hnil. }
  induction len as [|len IH]; intros [|c s] rest Hs;
    try (simpl in Hs; lia).
  - apply Hhead.
  - apply Hhead.
  - change ((c :: s) ++ d :: rest) with (c :: (s ++ d :: rest)).
    rewrite !replaceAll_cons.
    change (c :: (s ++ d :: rest)) with ((c :: s) ++ d :: rest).
    rewrite Hcut.
    destruct (matchAt (c :: s)) as [[replacement matched]|] eqn:E.
    + destruct (Hlen _ _ _ E) as [Hone Hmost]. simpl in Hmost, Hs.
      rewrite drop_app_le by lia.
      rewrite IH by (rewrite length_drop; lia).
      by rewrite <- app_assoc.
    + simpl in Hs. rewrite IH by lia. done.
Qed.

Lemma matchHexKey_delimiter d :
  isHexDigit d = false ->
  forall s rest,
    replaceAll matchHexKey 0 (s ++ d :: rest)
    = replaceAll matchHexKey 0 s ++ d :: replaceAll matchHexKey 0 rest.
Proof.
  intros Hd s rest.
  apply (replaceAll_delimiter matchHexKey d) with (len := length s); [| | |done].
  - intros s0 rest0. unfold matchHexKey. by rewrite runLength_app_delim.
  - reflexivity.
  - intros s0 replacement matched. unfold matchHexKey.
    pose proof (runLength_le_length isHexDigit s0).
    destruct (Nat.leb_spec 32 (Nat.min (runLength isHexDigit s0) 64));
      [|discriminate].
    intros [= _ <-]. lia.
Qed.

Lemma matchLongValue_delimiter d :
  isLongChar d = false ->
  forall s rest,
    replaceAll matchLongValue 0 (s ++ d :: rest)
    = replaceAll matchLongValue 0 s ++ d :: replaceAll matchLongValue 0 rest.
Proof.
  intros Hd s rest.
  apply (replaceAll_delimiter matchLongValue d) with (len := length s);
    [| | |done].
  - intros s0 rest0. unfold matchLongValue. by rewrite runLength_app_delim.
  - reflexivity.
  - intros s0 replacement matched. unfold matchLongValue.
    pose proof (runLength_le_length isLongChar s0).
    destruct (Nat.leb_spec 32 (runLength isLongChar s0)); [|discriminate].
    intros [= _ <-]. lia.
Qed.

Lemma isValueChar_hex d : isValueChar d = false -> isHexDigit d = false.
Proof.
  intros Hd. destruct (isHexDigit d) eqn:E; [|done].
  apply isHexDigit_long in E. by rewrite (isValueChar_long d Hd) in E.
Qed.

(** The first two expressions work on a value and on what follows it
    apart; what they leave is again a value and what may follow one. *)
Lemma value_and_rest value post :
  delimited post ->
  let clean s := replaceAll matchLongValue 0 (replaceAll matchHexKey 0 s) in
  clean (value ++ post) = clean value ++ clean post /\ delimited (clean post).
Proof.
  intros Hpost clean. subst clean. destruct post as [|d post]; simpl in Hpost.
  - by rewrite !app_nil_r.
  - pose proof (matchHexKey_delimiter d (isValueChar_hex d Hpost)) as Hhex.
    pose proof (matchLongValue_delimiter d (isValueChar_long d Hpost)) as Hlong.
    assert (replaceAll matchHexKey 0 (d :: post)
            = d :: replaceAll matchHexKey 0 post) as Hhex0
      by exact (Hhex [] post).
    assert (replaceAll matchLongValue 0 (d :: replaceAll matchHexKey 0 post)
            = d :: replaceAll matchLongValue 0 (replaceAll matchHexKey 0 post))
      as Hlong0 by exact (Hlong [] (replaceAll matchHexKey 0 post)).
    by rewrite Hhex, Hlong, Hhex0, Hlong0.
Qed.

Lemma secretName_chars name :
  isSecretName name -> forallb isLongChar name = true /\ name <> [].
Proof.
  intros (pattern & Hin & Hlen & Hstart).
  assert (forallb isNameChar pattern = true /\ pattern <> []) as [Hchars Hne].
  { simpl in Hin. destruct Hin as [<-|[<-|[<-|[<-|[]]]]]; by split. }
  destruct (startsWithIgnoringCase_take pattern name Hchars Hstart)
    as [Hlong _].
  rewrite <- Hlen, firstn_all in Hlong. split; [exact Hlong|].
  destruct name; [|done]. by destruct pattern.
Qed.

Lemma long_not_equals s : forallb isLongChar s = true -> ~ In 61%N s.
Proof.
  induction s as [|c s IH]; simpl; [tauto|].
  intros [Hc Hs]%andb_prop [->|Hin]; [by vm_compute in Hc|by apply IH].
Qed.

Lemma startsWithIgnoringCase_app pattern : forall s rest,
  startsWithIgnoringCase pattern s = true ->
  startsWithIgnoringCase pattern (s ++ rest) = true.
Proof.
  induction pattern as [|p pattern IH]; intros [|c s] rest; simpl;
    try done.
  intros [-> Hs]%andb_prop. simpl. auto.
Qed.

Lemma startsWithIgnoringCase_through pattern : forall name rest,
  forallb isNameChar pattern = true ->
  startsWithIgnoringCase pattern (name ++ 61%N :: rest) = true ->
  (length pattern <= length name)%nat.
Proof.
  induction pattern as [|p pattern IH]; intros name rest Hchars Hstart;
    simpl; [lia|].
  simpl in Hchars. apply andb_prop in Hchars as [Hp Hchars].
  destruct name as [|c name]; simpl in Hstart;
    apply andb_prop in Hstart as [Hc Hstart].
  - by destruct (nameChar_matched p 61 Hp Hc).
  - simpl. specialize (IH name rest Hchars Hstart). lia.
Qed.

(** An alternative of another length does not match where a name is. *)
Lemma matchAssignment_length pattern name rest :
  forallb isNameChar pattern = true ->
  forallb isLongChar name = true ->
  length pattern <> length name ->
  matchAssignment pattern (name ++ 61%N :: rest) = None.
Proof.
  intros Hchars Hname Hlen. unfold matchAssignment.
  destruct (startsWithIgnoringCase pattern (name ++ 61%N :: rest)) eqn:Hstart;
    [|done].
  pose proof (startsWithIgnoringCase_through _ _ _ Hchars Hstart) as Hle.
  rewrite drop_app_le by lia.
  destruct (drop (length pattern) name) as [|c tail] eqn:Hdrop.
  - apply (f_equal length) in Hdrop. rewrite length_drop in Hdrop.
    simpl in Hdrop. lia.
  - assert (In c name) as Hin.
    { rewrite <- (take_drop (length pattern) name), Hdrop.
      apply in_or_app. right. by left. }
    simpl. destruct (N.eqb_spec c 61) as [->|]; [|done].
    by apply long_not_equals in Hin.
Qed.

Lemma matchAssignment_exact pattern name rest :
  length name = length pattern ->
  startsWithIgnoringCase pattern name = true ->
  (1 <= runLength isValueChar rest)%nat ->
  matchAssignment pattern (name ++ 61%N :: rest)
  = Some (name ++ codeUnits "=[REDACTED]",
          (length name + 1 + runLength isValueChar rest)%nat).
Proof.
  intros Hlen Hstart Hrun. unfold matchAssignment.
  rewrite (startsWithIgnoringCase_app _ _ _ Hstart).
  rewrite <- Hlen, drop_app_length, take_app_length. simpl.
  destruct (runLength isValueChar rest); [lia|done].
Qed.

(** Where a name, [=] and a value stand, the third expression matches
    them. *)
Lemma matchSecretAssignment_here name rest :
  isSecretName name ->
  (1 <= runLength isValueChar rest)%nat ->
  matchSecretAssignment (name ++ 61%N :: rest)
  = Some (name ++ codeUnits "=[REDACTED]",
          (length name + 1 + runLength isValueChar rest)%nat).
Proof.
  intros Hname Hrun.
  destruct (secretName_chars name Hname) as [Hlong _].
  destruct Hname as (pattern & Hin & Hlen & Hstart).
  unfold matchSecretAssignment. simpl in Hin.
  destruct Hin as [<-|[<-|[<-|[<-|[]]]]]; simpl in Hlen;
    rewrite ?(matchAssignment_length (codeUnits "api_key") name rest)
      by (try done; simpl; lia);
    rewrite ?(matchAssignment_length (codeUnits "key") name rest)
      by (try done; simpl; lia);
    rewrite ?(matchAssignment_length (codeUnits "token") name rest)
      by (try done; simpl; lia);
    by rewrite matchAssignment_exact.
Qed.

Lemma first_split_unique (x : N) a : forall a' b b',
  ~ In x a -> ~ In x a' ->
  a ++ x :: b = a' ++ x :: b' -> a = a' /\ b = b'.
Proof.
  induction a as [|c a IH]; intros [|c' a'] b b' Ha Ha' E; simpl in *.
  - by injection E.
  - injection E as <- _. tauto.
  - injection E as -> _. tauto.
  - injection E as <- E. destruct (IH a' b b') as [-> ->]; auto.
Qed.

(** The scan of the third expression over a text without [=] up to the
    name. *)
Lemma matchSecretAssignment_context name value post :
  isSecretName name ->
  value <> [] -> forallb isValueChar value = true ->
  delimited post ->
  forall pre,
    ~ In 61%N pre ->
    replaceAll matchSecretAssignment 0 (pre ++ name ++ 61%N :: value ++ post)
    = pre ++ name ++ codeUnits "=[REDACTED]"
      ++ replaceAll matchSecretAssignment 0 post.
Proof.
  intros Hname Hne Hclass Hpost.
  destruct (secretName_chars name Hname) as [Hlong Hnamed].
  assert (runLength isValueChar (value ++ post) = length value) as Hrun.
  { destruct post as [|d post]; simpl in Hpost.
    - rewrite app_nil_r. by apply runLength_all.
    - rewrite runLength_app_delim by done. by apply runLength_all. }
  assert (1 <= length value)%nat as Hlen by (destruct value; simpl; [done|lia]).
  assert (forall pre c tail replacement matched,
            ~ In 61%N pre ->
            c :: tail = pre ++ name ++ 61%N :: value ++ post ->
            matchSecretAssignment (c :: tail) = Some (replacement, matched) ->
            replacement ++ replaceAll matchSecretAssignment 0
                             (drop (matched - 1) tail)
            = pre ++ name ++ codeUnits "=[REDACTED]"
              ++ replaceAll matchSecretAssignment 0 post) as Hmatch.
  { intros pre c tail replacement matched Hpre Hs Hm.
    destruct (matchSecretAssignment_Some _ _ _ Hm)
      as (name0 & after & Hs0 & Hlong0 & _ & -> & _ & ->).
    rewrite Hs, app_assoc in Hs0.
    apply first_split_unique in Hs0 as [<- <-].
    - rewrite Hrun.
      assert (drop (length (pre ++ name) + 1 + length value - 1) tail = post)
        as ->.
      { assert (tail = drop 1 (c :: tail)) as -> by done.
        rewrite Hs, drop_drop.
        replace (pre ++ name ++ 61%N :: value ++ post)
          with ((pre ++ name ++ 61%N :: value) ++ post)
          by (by rewrite <- !app_assoc).
        replace (1 + (length (pre ++ name) + 1 + length value - 1))%nat
          with (length (pre ++ name ++ 61%N :: value))%nat
          by (rewrite !length_app; simpl; lia).
        apply drop_app_length. }
      by rewrite <- !app_assoc.
    - intros Hin. apply in_app_or in Hin as [Hin|Hin]; [done|].
      by apply long_not_equals in Hin.
    - by apply long_not_equals. }
  induction pre as [|c pre IH]; intros Hpre.
  - destruct name as [|c tail] eqn:Hn; [done|]. rewrite <- Hn in *.
    simpl app at 1. simpl app at 3.
    assert (exists tail', name ++ 61%N :: value ++ post = c :: tail')
      as [tail' Hs] by (rewrite Hn; eauto).
    rewrite Hs, replaceAll_cons.
    pose proof (matchSecretAssignment_here name (value ++ post) Hname
                  ltac:(lia)) as Hhere.
    rewrite Hs in Hhere. rewrite Hhere.
    apply (Hmatch [] c tail' _ _ Hpre); [by rewrite Hs|exact Hhere].
  - change ((c :: pre) ++ name ++ 61%N :: value ++ post)
      with (c :: (pre ++ name ++ 61%N :: value ++ post)).
    rewrite replaceAll_cons.
    destruct (matchSecretAssignment
                (c :: (pre ++ name ++ 61%N :: value ++ post)))
      as [[replacement matched]|] eqn:Hm.
    + by apply (Hmatch (c :: pre) c _ _ _ Hpre).
    + rewrite IH; [done|]. intros Hin. apply Hpre. by right.
Qed.

(** X18.  A credential written as [api_key=...], [key=...], [token=...] or
    [password=...], the name in any letter case, is not logged where the
    text before it allows the name to be seen: the text up to the name has
    no [=] and, with the name, no run of 32 or more characters free of [=],
    [&] and white space.  (Such a run is replaced first, by the second
    expression, and takes the name with it: the value then stays.)  Whatever
    the value, as long as it is not empty and goes up to the end of the
    text, an [&] or white space, it is replaced by [[REDACTED]], the text
    before it stays and the text after it is redacted on its own. *)
Theorem assignment_redacted pre name value post :
  isSecretName name ->
  ~ In 61%N pre ->
  noLongRun 0 (pre ++ name) = true ->
  value <> [] ->
  forallb isValueChar value = true ->
  delimited post ->
  redactSensitive (pre ++ name ++ 61%N :: value ++ post)
  = pre ++ name ++ codeUnits "=[REDACTED]" ++ redactSensitive post.
Proof.
  intros Hname Hpre Hrun Hne Hclass Hpost.
  destruct (value_stays_value value Hne Hclass) as [Hne' Hclass'].
  destruct (value_and_rest value post Hpost) as [Hsplit Hpost'].
  unfold redactSensitive.
  rewrite app_assoc.
  rewrite (matchHexKey_delimiter 61 eq_refl).
  rewrite (matchLongValue_delimiter 61 eq_refl).
  rewrite (matchHexKey_unchanged _ _ Hrun).
  rewrite (matchLongValue_unchanged _ _ Hrun).
  rewrite Hsplit, <- app_assoc.
  by apply matchSecretAssignment_context.
Qed.

Lemma assignment_redacted_witness :
  redactSensitive (codeUnits "GET /?Key=abc&type=phrase_all")
  = codeUnits "GET /?Key=[REDACTED]&type=phrase_all".
Proof.
  assert (isSecretName (codeUnits "Key")) as Hname.
  { exists (codeUnits "key"). split; [simpl; tauto|]. by split. }
  assert (~ In 61%N (codeUnits "GET /?")) as Hpre.
  { simpl. intuition discriminate. }
  exact (assignment_redacted (codeUnits "GET /?") (codeUnits "Key")
           (codeUnits "abc") (codeUnits "&type=phrase_all")
           Hname Hpre eq_refl ltac:(discriminate) eq_refl eq_refl).
Defined.

(** ** An assignment behind a long run *)










(** X19.  A bare key of 32 to 64 hexadecimal digits is logged as
    [[REDACTED_KEY]]. *)
Theorem hex_key_redacted key :
  (32 <= length key <= 64)%nat ->
  forallb isHexDigit key = true ->
  redactSensitive key = codeUnits "[REDACTED_KEY]".
Proof.
  intros Hlen Hclass. unfold redactSensitive.
  assert (replaceAll matchHexKey 0 key = codeUnits "[REDACTED_KEY]") as ->.
  { destruct key as [|c rest]; [simpl in Hlen; lia|].
    rewrite replaceAll_cons. unfold matchHexKey at 1.
    rewrite (runLength_all _ _ Hclass).
    rewrite Nat.min_l by lia.
    destruct (Nat.leb_spec 32 (length (c :: rest))); [|lia].
    rewrite drop_ge by (simpl; lia). simpl. reflexivity. }
  reflexivity.
Qed.

Lemma hex_key_redacted_witness :
  redactSensitive (codeUnits "0123456789abcdef0123456789ABCDEF")
  = codeUnits "[REDACTED_KEY]".
Proof. apply hex_key_redacted; [simpl; lia|reflexivity]. Defined.

(** * The environment file *)

(** An entry of the file changes no variable but its own. *)
Lemma setIfMissing_ne env k v name :
  k <> name -> setIfMissing env (k, v) !! name = env !! name.
Proof.
  intros Hk. unfold setIfMissing. simpl.
  destruct (env !! k) as [[|c e]|]; repeat case_decide;
    by rewrite ?lookup_insert_ne.
Qed.

Lemma setIfMissing_keeps env entries : forall name value,
  env !! name = Some value -> value <> [] ->
  fold_left setIfMissing entries env !! name = Some value.
Proof.
  revert env. induction entries as [|[k v] entries IH];
    intros env name value Hget Hne; [done|].
  simpl. apply IH; [|done].
  destruct (decide (k = name)) as [->|Hk].
  - unfold setIfMissing. simpl. rewrite Hget. by destruct value.
  - by rewrite setIfMissing_ne.
Qed.

Lemma setIfMissing_other env entries : forall name,
  (forall value, ~ In (name, value) entries) ->
  fold_left setIfMissing entries env !! name = env !! name.
Proof.
  revert env. induction entries as [|[k v] entries IH]; intros env name Hno;
    [done|].
  simpl. rewrite IH.
  - apply setIfMissing_ne. intros ->. apply (Hno v). by left.
  - intros value Hin. apply (Hno value). by right.
Qed.


(** X20.  The environment wins over the file: a variable that is set to
    a non-empty value keeps it whatever the [.env] file says, a variable the
    file does not assign is left as it is, and so is every variable when
    the file cannot be read. *)
Theorem environment_wins file env name :
  (forall value,
     env !! name = Some value -> value <> [] ->
     loadEnv file env !! name = Some value)
  /\ (forall envContent,
        file = Some envContent ->
        (forall value, ~ In (name, value) (envVars envContent)) ->
        loadEnv file env !! name = env !! name)
  /\ (file = None -> loadEnv file env = env).
Proof.
  split; [|split].
  - intros value Hget Hne. destruct file as [envContent|]; [|done].
    by apply setIfMissing_keeps.
  - intros envContent -> Hno. by apply setIfMissing_other.
  - by intros ->.
Qed.

Lemma environment_wins_witness :
  loadEnv (Some (codeUnits "PORT=4000"))
    (<[codeUnits "PORT" := codeUnits "8080"]> ∅) !! codeUnits "PORT"
  = Some (codeUnits "8080").
Proof.
  apply (proj1 (environment_wins (Some (codeUnits "PORT=4000"))
                  (<[codeUnits "PORT" := codeUnits "8080"]> ∅)
                  (codeUnits "PORT"))); [reflexivity|discriminate].
Defined.




